(** * Statistics-EfficiencyCI: the Bayesian efficiency interval of [eff_ci.c]

    A shallow embedding of [src/eff_ci.c].  C [double] is IEEE-754 binary64
    with round-to-nearest-even, which is what Rocq's primitive [float] is;
    every arithmetic operation of the source is one primitive operation here
    (no fused or extended-precision evaluation).  C [int] arguments are
    integers [Z].  The process-wide variables [GLOBAL_k], [GLOBAL_N] and
    [CONFLEVEL], the text written by [printf], and a record of which routine
    was entered with which arguments form the state that the routines thread.

    The incomplete beta integral [beta_ab] comes from [eff_math_fun.h] and is
    not part of the file: it is a parameter of the development.

    The file has three parts: the routines of [eff_ci.c]; the vocabulary of
    the properties (the rational value of a binary64 number, what it means
    for an operation to round correctly, brackets, logs); and the proofs,
    which start from the specification of the primitive operations in
    [FloatAxioms] and end with the properties of [efficiency_ci]. *)

From Stdlib Require Import ZArith List String Floats Lia Bool.
From Stdlib Require Import QArith Qpower Qabs Lqa.
Import ListNotations.

Set Warnings "-inexact-float".
Local Open Scope float_scope.

(** ** State *)

(** One entry per activation of a routine of the file, with its arguments. *)
Inductive call : Type :=
| CallSearchUpper (low : float) (k N : Z) (c : float)
| CallSearchLower (high : float) (k N : Z) (c : float)
| CallInterval (low : float)
| CallBrent (ax bx cx tol : float).

Record world : Type := mkWorld {
  GLOBAL_k : Z;
  GLOBAL_N : Z;
  CONFLEVEL : float;
  stdout : list string;      (* what printf has written, oldest first *)
  calls : list call          (* activations, oldest first *)
}.

Definition M (A : Type) : Type := world -> A * world.

Definition ret {A} (a : A) : M A := fun w => (a, w).
Definition bind {A B} (m : M A) (f : A -> M B) : M B :=
  fun w => let (a, w') := m w in f a w'.

Notation "x <- m ;; k" := (bind m (fun x => k))
  (at level 61, m at next level, right associativity).
Notation "m ;;; k" := (bind m (fun _ => k))
  (at level 61, right associativity).

Definition enter (c : call) : M unit :=
  fun w => (tt, mkWorld (GLOBAL_k w) (GLOBAL_N w) (CONFLEVEL w) (stdout w)
                        (calls w ++ [c])).

Definition printf (s : string) : M unit :=
  fun w => (tt, mkWorld (GLOBAL_k w) (GLOBAL_N w) (CONFLEVEL w)
                        (stdout w ++ [s]) (calls w)).

Definition set_context (k N : Z) (c : float) : M unit :=
  fun w => (tt, mkWorld k N c (stdout w) (calls w)).

Definition get_context : M (Z * Z * float) :=
  fun w => ((GLOBAL_k w, GLOBAL_N w, CONFLEVEL w), w).

(** ** Arithmetic of the source *)

(** [(double)k] for a C [int]. *)
Definition double_of_int (z : Z) : float :=
  if (z <? 0)%Z then - (of_uint63 (Uint63.of_Z (- z)))
  else of_uint63 (Uint63.of_Z z).

(** [x > y] and [x >= y] of C, in terms of the primitive comparisons. *)
Definition gtb (x y : float) : bool := y <? x.
Definition geb (x y : float) : bool := y <=? x.

Definition fabs (x : float) : float := abs x.

(** [#define MYSIGN(a,b) ((b >= 0) ? fabs(a) : -fabs(a))] *)
Definition MYSIGN (a b : float) : float :=
  if geb b 0 then fabs a else - fabs a.

Definition kITMAX : nat := 100.
Definition kCGOLD : float := 0.3819660.
Definition kZEPS : float := 1.0e-10.

Definition too_many : string :=
  String.append "brent: Too many interations" (String (Ascii.ascii_of_nat 10) EmptyString).

Section EffCI.

(** The external primitive [beta_ab(x, y, k, N)]. *)
Variable beta_ab : float -> float -> Z -> Z -> float.

(** *** search_upper *)

(** The [for (loop=0; loop<50; loop++)] of [search_upper]; [n] passes remain.
    [test] is unassigned before the first pass and the body runs at least
    once, so the value given for it at the start is never returned.  The
    declaration line of the source names [too_high] twice; the variable the
    body assigns as [too_low] is the second of them. *)
Fixpoint search_upper_loop (n : nat) (low : float) (k N : Z) (c : float)
    (too_low too_high test : float) : float :=
  match n with
  | O => test
  | S n' =>
      let test := 0.5 * (too_low + too_high) in
      let integral := beta_ab low test k N in
      let too_high' := if gtb integral c then test else too_high in
      let too_low' := if gtb integral c then too_low else test in
      if fabs (integral - c) <=? 1.0e-15 then test
      else search_upper_loop n' low k N c too_low' too_high' test
  end.

Definition search_upper (low : float) (k N : Z) (c : float) : M float :=
  enter (CallSearchUpper low k N c) ;;;
  let integral := beta_ab low 1.0 k N in
  if integral =? c then ret 1.0
  else if integral <? c then ret (-1.0)
  else
    let too_high := 1.0 in
    let too_low := low in
    ret (search_upper_loop 50 low k N c too_low too_high too_high).

(** *** search_lower *)

Fixpoint search_lower_loop (n : nat) (high : float) (k N : Z) (c : float)
    (too_low too_high test : float) : float :=
  match n with
  | O => test
  | S n' =>
      let test := 0.5 * (too_high + too_low) in
      let integral := beta_ab test high k N in
      let too_low' := if gtb integral c then test else too_low in
      let too_high' := if gtb integral c then too_high else test in
      if fabs (integral - c) <=? 1.0e-15 then test
      else search_lower_loop n' high k N c too_low' too_high' test
  end.

Definition search_lower (high : float) (k N : Z) (c : float) : M float :=
  enter (CallSearchLower high k N c) ;;;
  let integral := beta_ab 0.0 high k N in
  if integral =? c then ret 0.0
  else if integral <? c then ret (-1.0)
  else
    let too_low := 0.0 in
    let too_high := high in
    ret (search_lower_loop 50 high k N c too_low too_high too_low).

(** *** interval *)

Definition interval (low : float) : M float :=
  enter (CallInterval low) ;;;
  ctx <- get_context ;;
  let '(gk, gN, conf) := ctx in
  high <- search_upper low gk gN conf ;;
  if high =? -1.0 then ret 2.0
  else ret (high - low).

(** *** brent *)

(** The variables of [brent] that live across passes of its loop. *)
Record brent_state : Type := mkBrent {
  br_a : float; br_b : float;
  br_d : float; br_e : float;
  br_v : float; br_w : float; br_x : float;
  br_fv : float; br_fw : float; br_fx : float
}.

(** [fabs(x-xm) <= (tol2-0.5*(b-a))] at the head of a pass. *)
Definition brent_converged (tol : float) (s : brent_state) : bool :=
  let a := br_a s in let b := br_b s in let x := br_x s in
  let xm := 0.5 * (a + b) in
  let tol1 := tol * fabs x + kZEPS in
  let tol2 := 2.0 * tol1 in
  fabs (x - xm) <=? (tol2 - 0.5 * (b - a)).

(** Lines 186-204: the new [d], [e] and the trial point [u]. *)
Definition brent_trial (tol : float) (s : brent_state) : float * float * float :=
  let a := br_a s in let b := br_b s in
  let d := br_d s in let e := br_e s in
  let v := br_v s in let w := br_w s in let x := br_x s in
  let fv := br_fv s in let fw := br_fw s in let fx := br_fx s in
  let xm := 0.5 * (a + b) in
  let tol1 := tol * fabs x + kZEPS in
  let tol2 := 2.0 * tol1 in
  let '(d, e) :=
    if gtb (fabs e) tol1 then
      let r := (x - w) * (fx - fv) in
      let q := (x - v) * (fx - fw) in
      let p := (x - v) * q - (x - w) * r in
      let q := 2.0 * (q - r) in
      let p := if gtb q 0.0 then - p else p in
      let q := fabs q in
      let etemp := e in
      let e := d in
      if geb (fabs p) (fabs (0.5 * q * etemp))
         || (p <=? q * (a - x)) || geb p (q * (b - x))
      then
        let e := if geb x xm then a - x else b - x in
        (kCGOLD * e, e)
      else
        let d := p / q in
        let u := x + d in
        let d := if (u - a <? tol2) || (b - u <? tol2)
                 then MYSIGN tol1 (xm - x) else d in
        (d, e)
    else
      let e := if geb x xm then a - x else b - x in
      (kCGOLD * e, e) in
  let u := if geb (fabs d) tol1 then x + d else x + MYSIGN tol1 d in
  (d, e, u).

(** Lines 206-225: the bookkeeping after [fu = interval(u)]. *)
Definition brent_update (s : brent_state) (d e u fu : float) : brent_state :=
  let a := br_a s in let b := br_b s in
  let v := br_v s in let w := br_w s in let x := br_x s in
  let fv := br_fv s in let fw := br_fw s in let fx := br_fx s in
  if fu <=? fx then
    let a := if geb u x then x else a in
    let b := if geb u x then b else x in
    mkBrent a b d e w x u fw fx fu
  else
    let a := if u <? x then u else a in
    let b := if u <? x then b else u in
    if (fu <=? fw) || (w =? x) then
      mkBrent a b d e w u x fw fu fx
    else if (fu <=? fv) || (v =? x) || (v =? w) then
      mkBrent a b d e u w x fu fw fx
    else
      mkBrent a b d e v w x fv fw fx.

(** The [for (iter=1;iter<=kITMAX;iter++)] loop; [n] passes remain.  The
    result is the pair (returned value, [*xmin]). *)
Fixpoint brent_loop (n : nat) (tol : float) (s : brent_state) : M (float * float) :=
  match n with
  | O =>
      printf too_many ;;;
      ret (br_fx s, br_x s)
  | S n' =>
      if brent_converged tol s then ret (br_fx s, br_x s)
      else
        let '(d, e, u) := brent_trial tol s in
        fu <- interval u ;;
        brent_loop n' tol (brent_update s d e u fu)
  end.

Definition brent (ax bx cx tol : float) : M (float * float) :=
  enter (CallBrent ax bx cx tol) ;;;
  let a := if ax <? cx then ax else cx in
  let b := if gtb ax cx then ax else cx in
  let x := bx in
  fx <- interval x ;;
  brent_loop kITMAX tol (mkBrent a b 0.0 0.0 x x x fx fx fx).

(** *** efficiency_ci *)

(** The three reference parameters are returned as (mode, low, high). *)
Definition efficiency_ci (k N : Z) (conflevel : float) : M (float * float * float) :=
  if (0 =? N)%Z then ret (0.5, 0.0, 1.0)
  else
    let mode := double_of_int k / double_of_int N in
    if (k =? 0)%Z then
      let low := 0.0 in
      high <- search_upper low k N conflevel ;;
      ret (mode, low, high)
    else if (k =? N)%Z then
      let high := 1.0 in
      low <- search_lower high k N conflevel ;;
      ret (mode, low, high)
    else
      set_context k N conflevel ;;;
      r <- brent 0.0 0.5 1.0 1.0e-9 ;;
      let low := snd r in
      len <- interval low ;;
      ret (mode, low, low + len).

End EffCI.

(** * Vocabulary *)

(** ** The value of a binary64 number *)

Abbreviation fexp64 := (fexp prec emax).
Abbreviation emin64 := (emin prec emax).

Section Values.
Local Open Scope Z_scope.

(** The rounded mantissa after shifting [m >= 0] right by [n >= 0] bits. *)
Definition rne (m n : Z) : Z :=
  let q := m / 2 ^ n in
  let r := m mod 2 ^ n in
  match 2 * r ?= 2 ^ n with
  | Lt => q
  | Eq => if Z.even q then q else q + 1
  | Gt => q + 1
  end.

(** The float made of sign [s], mantissa [m2 <= 2^53] and exponent [e1]. *)
Definition SFpack (s : bool) (m2 e1 : Z) : spec_float :=
  match m2 with
  | Z0 => S754_zero s
  | Zpos p =>
      if m2 <? 2 ^ 53 then
        if e1 <=? 971 then S754_finite s p e1 else S754_infinity s
      else
        if e1 + 1 <=? 971 then S754_finite s 4503599627370496 (e1 + 1)
        else S754_infinity s
  | Zneg _ => S754_nan
  end.

(** How a mantissa [m] with exponent [e] rounds to the exponent [e1]. *)
Definition round_to (m e e1 : Z) : Z :=
  if e1 <=? e then m * 2 ^ (e - e1) else rne m (e1 - e).

(** [m * 2^e] as a rational. *)
Definition Qv (m e : Z) : Q := (inject_Z m * 2 ^ e)%Q.

Definition SF2Q (x : spec_float) : Q :=
  match x with
  | S754_finite s m e => Qv (cond_Zopp s (Zpos m)) e
  | _ => 0%Q
  end.

Definition SFfin (x : spec_float) : bool :=
  match x with
  | S754_zero _ | S754_finite _ _ _ => true
  | _ => false
  end.

Definition SFisnan (x : spec_float) : bool :=
  match x with S754_nan => true | _ => false end.

Definition SFzero : spec_float := S754_zero false.

(** [r] is what the exact value [V] rounds to: never NaN; when finite, on
    the same side as [V] of every representable number; finite and within
    half a unit in the last place when [V] is below [2^k]. *)
Definition Rounds (V : Q) (r : spec_float) : Prop :=
  SFisnan r = false /\
  (SFfin r = true ->
   forall w, valid_binary w = true -> SFfin w = true ->
     ((V <= SF2Q w)%Q -> (SF2Q r <= SF2Q w)%Q) /\
     ((SF2Q w <= V)%Q -> (SF2Q w <= SF2Q r)%Q)) /\
  (forall k, -1021 <= k <= 1023 -> (- 2 ^ k < V < 2 ^ k)%Q ->
     SFfin r = true /\ (V - 2 ^ (k - 54) <= SF2Q r <= V + 2 ^ (k - 54))%Q).

Definition val (x : float) : Q := SF2Q (Prim2SF x).
Definition finite (x : float) : bool := SFfin (Prim2SF x).
Definition notnan (x : float) : bool := negb (SFisnan (Prim2SF x)).

(** Half a unit in the last place of numbers below 8. *)
Definition eps : Q := 1 # 2251799813685248.

(** The integer nearest to [a / B], the even one at a tie. *)
Definition rnd (a B : Z) : Z :=
  match 2 * (a mod B) ?= B with
  | Lt => a / B
  | Eq => if Z.even (a / B) then a / B else a / B + 1
  | Gt => a / B + 1
  end.

End Values.

(** ** Ranges and records of calls *)

Section Ranges.
Local Open Scope float_scope.
Local Open Scope Q_scope.
Variable beta_ab : float -> float -> Z -> Z -> float.

(** [x] is a finite number of [[L, H]]. *)
Definition within (L H : Q) (x : float) : Prop :=
  finite x = true /\ L <= val x <= H.

(** The state after [c] has been recorded. *)
Definition logged (cs : list call) (w : world) : world :=
  mkWorld (GLOBAL_k w) (GLOBAL_N w) (CONFLEVEL w) (stdout w) (calls w ++ cs).

(** What [search_upper] returns, apart from the record of the call. *)
Definition search_upper_value (low : float) (k N : Z) (c : float) : float :=
  fst (search_upper beta_ab low k N c (mkWorld 0 0 0 [] [])).

Definition search_lower_value (high : float) (k N : Z) (c : float) : float :=
  fst (search_lower beta_ab high k N c (mkWorld 0 0 0 [] [])).

(** What [interval] returns under the context [(gk, gN, conf)]. *)
Definition interval_value (gk gN : Z) (conf : float) (low : float) : float :=
  fst (interval beta_ab low (mkWorld gk gN conf [] [])).

End Ranges.

(** What [brent] keeps true of its variables: the bracket [a <= x <= b]
    stays inside [[L, H]], every abscissa is in [[L, H]], and the steps and
    the objective values stay bounded. *)
Definition brent_inv (L H : Q) (s : brent_state) : Prop :=
  within L H (br_a s) /\ within L H (br_b s) /\ within L H (br_x s) /\
  (val (br_a s) <= val (br_x s) <= val (br_b s))%Q /\
  within L H (br_w s) /\ within L H (br_v s) /\
  within (-2) 2 (br_d s) /\ within (-2) 2 (br_e s) /\
  within (-2) 2 (br_fv s) /\ within (-2) 2 (br_fw s) /\ within (-2) 2 (br_fx s).

(** [lo <= x <= hi], as the program compares. *)
Definition in_bracket (lo hi x : float) : bool := (lo <=? x) && (x <=? hi).

(** The abscissa of a recorded evaluation lies in [[L, H]]. *)
Definition call_within (L H : Q) (c : call) : Prop :=
  match c with
  | CallInterval u => within L H u
  | CallSearchUpper u _ _ _ => within L H u
  | _ => False
  end.

(** The abscissas at which [interval] was entered, oldest first. *)
Definition evaluated (cs : list call) : list float :=
  flat_map (fun c => match c with CallInterval u => [u] | _ => [] end) cs.

(** Every [search_upper] entered on [cs] was entered with [(k, N, c)]. *)
Definition searches_with (k N : Z) (c : float) (cs : list call) : Prop :=
  forall low k' N' c', In (CallSearchUpper low k' N' c') cs -> (k', N', c') = (k, N, c).

(** ** The bisections *)

(** The width left of [W] after [n] halvings, each off by at most [2^-50]. *)
Fixpoint halved (n : nat) (W : Q) : Q :=
  match n with
  | O => W
  | S n' => halved n' ((1 # 2) * W + (1 # 1125899906842624))%Q
  end.

(** ** The state is a context and two logs *)

(** The state with the same context and empty logs. *)
Definition bare (w : world) : world :=
  mkWorld (GLOBAL_k w) (GLOBAL_N w) (CONFLEVEL w) [] [].

(** [w1] run after [w]: the context of [w1], the logs of [w] then of [w1]. *)
Definition extend (w w1 : world) : world :=
  mkWorld (GLOBAL_k w1) (GLOBAL_N w1) (CONFLEVEL w1)
          (stdout w ++ stdout w1) (calls w ++ calls w1).

(** A computation that reads nothing but the context and only appends to
    the logs. *)
Definition framed {A} (m : M A) : Prop :=
  forall w, m w = (fst (m (bare w)), extend w (snd (m (bare w)))).

(** A computation that leaves the context as it found it. *)
Definition keeps_context {A} (m : M A) : Prop :=
  forall w, GLOBAL_k (snd (m w)) = GLOBAL_k w /\
            GLOBAL_N (snd (m w)) = GLOBAL_N w /\
            CONFLEVEL (snd (m w)) = CONFLEVEL w.

(** ** The routines in steps *)

Section Parts.
Variable beta_ab : float -> float -> Z -> Z -> float.

(** Lines 175-178 of [brent]: the state before the first pass. *)
Definition brent_start (ax bx cx : float) : M brent_state :=
  let a := if ax <? cx then ax else cx in
  let b := if gtb ax cx then ax else cx in
  let x := bx in
  fx <- interval beta_ab x ;;
  ret (mkBrent a b 0.0 0.0 x x x fx fx fx).

(** One pass of the loop of [brent] that does not stop. *)
Definition brent_pass (tol : float) (s : brent_state) : M brent_state :=
  let '(d, e, u) := brent_trial tol s in
  fu <- interval beta_ab u ;;
  ret (brent_update s d e u fu).

Fixpoint brent_passes (n : nat) (tol : float) (s : brent_state) : M brent_state :=
  match n with
  | O => ret s
  | S n' => s' <- brent_pass tol s ;; brent_passes n' tol s'
  end.

(** The convergence test of line 182 fails at the head of each of the next
    [n] passes. *)
Fixpoint never_converged (n : nat) (tol : float) (s : brent_state) (w : world) : bool :=
  match n with
  | O => true
  | S n' =>
      negb (brent_converged tol s)
      && (let (s', w') := brent_pass tol s w in never_converged n' tol s' w')
  end.

(** The general case of [efficiency_ci] in two steps: lines 53-55 write the
    context, lines 56-57 minimise and read it. *)
Definition ci_enter (k N : Z) (conflevel : float) : M unit :=
  set_context k N conflevel.

Definition ci_minimise (k N : Z) : M (float * float * float) :=
  r <- brent beta_ab 0.0 0.5 1.0 1.0e-9 ;;
  let low := snd r in
  len <- interval beta_ab low ;;
  ret (double_of_int k / double_of_int N, low, low + len).

(** [x] is an abscissa of [cs], [fx] is the objective there, and the
    objective is nowhere on [cs] strictly below [fx]. *)
Definition best_so_far (k N : Z) (c : float) (s : brent_state) (cs : list call) : Prop :=
  br_fx s = interval_value beta_ab k N c (br_x s) /\
  In (br_x s) (evaluated cs) /\
  forall u, In u (evaluated cs) -> (interval_value beta_ab k N c u <? br_fx s) = false.

End Parts.

(** ** A primitive to run the routines on *)

(** [beta_ab] is not in the file.  To run the routines on concrete inputs
    the posterior mass of [[x, y]] after [k] successes in [N] trials is
    computed here from the binomial sum, in binary64, and kept in [[0,1]]. *)

Fixpoint fpow_pos (x : float) (p : positive) : float :=
  match p with
  | xH => x
  | xO p' => let y := fpow_pos x p' in y * y
  | xI p' => let y := fpow_pos x p' in x * (y * y)
  end.

Definition fpow (x : float) (n : Z) : float :=
  match n with
  | Zpos p => fpow_pos x p
  | _ => 1
  end.

(** [binomial n j] is the number of [j]-subsets of [n] things. *)
Fixpoint binomial (n : Z) (j : nat) : Z :=
  match j with
  | O => 1
  | S j' => (binomial n j' * (n - Z.of_nat j') / Z.of_nat j)%Z
  end.

(** The sum over [j <= k] of [C(n,j) t^j (1-t)^(n-j)]. *)
Fixpoint binomial_lower (n : Z) (k : nat) (t : float) : float :=
  let term := double_of_int (binomial n k) * fpow t (Z.of_nat k) * fpow (1 - t) (n - Z.of_nat k) in
  match k with
  | O => term
  | S k' => binomial_lower n k' t + term
  end.

Definition beta_cdf (k N : Z) (t : float) : float :=
  1 - binomial_lower (N + 1) (Z.to_nat k) t.

Definition clamp01 (v : float) : float :=
  if 0 <=? v then (if v <=? 1 then v else 1) else 0.

Definition beta_ref (x y : float) (k N : Z) : float :=
  clamp01 (beta_cdf k N y - beta_cdf k N x).

Definition w0 : world := mkWorld 0 0 0 [] [].

(** * Rounding to nearest even *)

(** ** Shifting a mantissa right *)

Section Shifting.
Local Open Scope Z_scope.

Lemma fexp64_eq z : fexp64 z = Z.max (z - 53) (-1074).
Proof. reflexivity. Qed.

Lemma digits2_size p : digits2_pos p = Pos.size p.
Proof. induction p; simpl; congruence. Qed.

Lemma digits2_bounds p :
  2 ^ (Zpos (digits2_pos p) - 1) <= Zpos p < 2 ^ Zpos (digits2_pos p).
Proof.
  rewrite digits2_size. split.
  - pose proof (Pos.size_le p) as H.
    assert (Hz : 2 ^ Zpos (Pos.size p) <= 2 * Zpos p).
    { rewrite <- Pos2Z.inj_pow. change (2 * Zpos p) with (Zpos p~0).
      now apply Pos2Z.pos_le_pos. }
    replace (Zpos (Pos.size p)) with (Zpos (Pos.size p) - 1 + 1) in Hz by lia.
    rewrite Z.pow_add_r in Hz by lia. change (2 ^ 1) with 2 in Hz. lia.
  - pose proof (Pos.size_gt p) as H.
    rewrite <- Pos2Z.inj_pow. now apply Pos2Z.pos_lt_pos.
Qed.

(** digits from bounds *)
Lemma digits2_le_of_lt p k : 0 <= k -> Zpos p < 2 ^ k -> Zpos (digits2_pos p) <= k.
Proof.
  intros Hk H. destruct (Z_le_gt_dec (Zpos (digits2_pos p)) k) as [|G]; [trivial|exfalso].
  pose proof (digits2_bounds p) as [B _].
  assert (2 ^ k <= 2 ^ (Zpos (digits2_pos p) - 1)) by (apply Z.pow_le_mono_r; lia).
  lia.
Qed.

Lemma digits2_ge_of_le p k : 2 ^ k <= Zpos p -> k < Zpos (digits2_pos p).
Proof.
  intros H. destruct (Z_lt_ge_dec k (Zpos (digits2_pos p))) as [|G]; [trivial|exfalso].
  pose proof (digits2_bounds p) as [_ B].
  assert (2 ^ Zpos (digits2_pos p) <= 2 ^ k) by (apply Z.pow_le_mono_r; lia).
  lia.
Qed.

Lemma iter_pos_nat {A} (f : A -> A) p x :
  SpecFloat.iter_pos f p x = Nat.iter (Pos.to_nat p) f x.
Proof.
  revert x. induction p as [p IH|p IH|]; intros x; cbn [SpecFloat.iter_pos].
  - rewrite !IH. rewrite Pos2Nat.inj_xI.
    replace (S (2 * Pos.to_nat p)) with (Pos.to_nat p + S (Pos.to_nat p))%nat by lia.
    rewrite Nat.iter_add. f_equal. now rewrite Nat.iter_succ_r.
  - rewrite !IH. rewrite Pos2Nat.inj_xO.
    replace (2 * Pos.to_nat p)%nat with (Pos.to_nat p + Pos.to_nat p)%nat by lia.
    now rewrite Nat.iter_add.
  - reflexivity.
Qed.

Lemma shr_1_spec m r s : 0 <= m ->
  shr_1 (Build_shr_record m r s) = Build_shr_record (m / 2) (Z.odd m) (r || s).
Proof.
  intros Hm. destruct m as [|p|p]; try lia.
  - reflexivity.
  - destruct p as [p|p|]; simpl shr_1; f_equal.
    + rewrite Pos2Z.inj_xI. apply Z.div_unique with 1; lia.
    + rewrite Pos2Z.inj_xO. apply Z.div_unique with 0; lia.
Qed.

(** After [j+1] single shifts of [(m, false, false)]. *)
Lemma shr_iter_spec m j : 0 <= m ->
  Nat.iter (S j) shr_1 (Build_shr_record m false false) =
  Build_shr_record (m / 2 ^ (Z.of_nat j + 1)) (Z.odd (m / 2 ^ Z.of_nat j))
                   (negb (m mod 2 ^ Z.of_nat j =? 0)).
Proof.
  intros Hm. induction j as [|j IH].
  - rewrite Nat.iter_succ. change (Nat.iter 0 shr_1 ?x) with x.
    rewrite shr_1_spec by trivial. change (Z.of_nat 0) with 0.
    change (2 ^ (0 + 1)) with 2. change (2 ^ 0) with 1.
    rewrite Z.div_1_r, Z.mod_1_r. reflexivity.
  - rewrite Nat.iter_succ, IH.
    assert (P : 0 < 2 ^ Z.of_nat j) by (apply Z.pow_pos_nonneg; lia).
    rewrite shr_1_spec by (apply Z.div_pos; [lia|apply Z.pow_pos_nonneg; lia]).
    replace (Z.of_nat (S j)) with (Z.of_nat j + 1) by lia.
    f_equal.
    + rewrite Z.div_div by lia.
      f_equal. rewrite (Z.pow_add_r 2 (Z.of_nat j + 1) 1) by lia. reflexivity.
    + (* sticky *)
      rewrite (Z.pow_add_r 2 (Z.of_nat j) 1) by lia. change (2 ^ 1) with 2.
      rewrite Z.rem_mul_r by lia.
      pose proof (Z.mod_pos_bound m (2 ^ Z.of_nat j) P) as B1.
      pose proof (Z.mod_pos_bound (m / 2 ^ Z.of_nat j) 2 ltac:(lia)) as B2.
      rewrite Zodd_mod.
      destruct (Z.eqb_spec ((m / 2 ^ Z.of_nat j) mod 2) 1) as [E1|E1];
      destruct (Z.eqb_spec (m mod 2 ^ Z.of_nat j) 0) as [E2|E2];
      match goal with |- context [?t =? 0] => destruct (Z.eqb_spec t 0) as [E3|E3] end;
      cbn [negb orb]; try reflexivity; exfalso; nia.
Qed.

Lemma rne_0 m : rne m 0 = m.
Proof.
  unfold rne. change (2 ^ 0) with 1. rewrite Z.div_1_r, Z.mod_1_r. reflexivity.
Qed.

Lemma rne_bounds m n : 0 <= n ->
  m / 2 ^ n <= rne m n <= m / 2 ^ n + 1 /\
  (m mod 2 ^ n = 0 -> rne m n = m / 2 ^ n) /\
  2 * Z.abs (rne m n * 2 ^ n - m) <= 2 ^ n.
Proof.
  intros Hn. assert (P : 0 < 2 ^ n) by (apply Z.pow_pos_nonneg; lia).
  pose proof (Z.mod_pos_bound m (2 ^ n) P) as B.
  pose proof (Z.div_mod m (2 ^ n) ltac:(lia)) as D.
  unfold rne. destruct (Z.compare_spec (2 * (m mod 2 ^ n)) (2 ^ n)) as [E|E|E].
  - destruct (Z.even (m / 2 ^ n)); repeat split; try lia; nia.
  - repeat split; try lia; nia.
  - repeat split; try lia; nia.
Qed.

Lemma shr_round m (p : positive) : 0 <= m ->
  let rec := SpecFloat.iter_pos shr_1 p (Build_shr_record m false false) in
  round_nearest_even (shr_m rec) (loc_of_shr_record rec) = rne m (Zpos p).
Proof.
  intros Hm rec. subst rec. rewrite iter_pos_nat.
  destruct (Pos.to_nat p) as [|j] eqn:Ej; [lia|].
  rewrite shr_iter_spec by trivial.
  assert (Hp : Zpos p = Z.of_nat j + 1) by lia.
  rewrite Hp. set (J := Z.of_nat j) in *. assert (HJ : 0 <= J) by lia.
  unfold rne. cbn [shr_m].
  assert (P : 0 < 2 ^ J) by (apply Z.pow_pos_nonneg; lia).
  rewrite (Z.pow_add_r 2 J 1) by lia. change (2 ^ 1) with 2.
  rewrite Z.rem_mul_r by lia.
  rewrite <- Z.div_div by lia.
  pose proof (Z.mod_pos_bound m (2 ^ J) P) as B1.
  pose proof (Z.mod_pos_bound (m / 2 ^ J) 2 ltac:(lia)) as B2.
  rewrite Zodd_mod.
  destruct (Z.eqb_spec ((m / 2 ^ J) mod 2) 1) as [E1|E1];
  destruct (Z.eqb_spec (m mod 2 ^ J) 0) as [E2|E2]; cbn [negb loc_of_shr_record round_nearest_even].
  - rewrite E1, E2. replace (2 * (0 + 2 ^ J * 1) ?= 2 ^ J * 2) with Eq; [reflexivity|].
    symmetry. apply Z.compare_eq_iff. lia.
  - rewrite E1. replace (2 * (m mod 2 ^ J + 2 ^ J * 1) ?= 2 ^ J * 2) with Gt; [reflexivity|].
    symmetry. apply Z.compare_gt_iff. lia.
  - assert (E0 : (m / 2 ^ J) mod 2 = 0) by lia.
    rewrite E0, E2. replace (2 * (0 + 2 ^ J * 0) ?= 2 ^ J * 2) with Lt; [reflexivity|].
    symmetry. apply Z.compare_lt_iff. lia.
  - assert (E0 : (m / 2 ^ J) mod 2 = 0) by lia.
    rewrite E0. replace (2 * (m mod 2 ^ J + 2 ^ J * 0) ?= 2 ^ J * 2) with Lt; [reflexivity|].
    symmetry. apply Z.compare_lt_iff. lia.
Qed.

End Shifting.

(** ** What [binary_round] computes *)

Section BinaryRound.
Local Open Scope Z_scope.

Lemma rne_nonneg m n : 0 <= m -> 0 <= n -> 0 <= rne m n.
Proof.
  intros Hm Hn. pose proof (rne_bounds m n Hn) as [[L _] _].
  assert (0 <= m / 2 ^ n) by (apply Z.div_pos; [lia|apply Z.pow_pos_nonneg; lia]).
  lia.
Qed.

Lemma shr_fexp_noshift m e :
  fexp64 (Zdigits2 m + e) <= e ->
  shr_fexp prec emax m e loc_Exact = (Build_shr_record m false false, e).
Proof.
  intros H. unfold shr_fexp, shr. cbn [shr_record_of_loc].
  destruct (fexp64 (Zdigits2 m + e) - e) eqn:E; try reflexivity. lia.
Qed.

Lemma bra_spec s m e :
  let e1 := fexp64 (Zpos (digits2_pos m) + e) in
  e <= e1 ->
  binary_round_aux prec emax s (Zpos m) e loc_Exact
  = SFpack s (rne (Zpos m) (e1 - e)) e1.
Proof.
  intros e1 He.
  pose proof (digits2_bounds m) as [Dl Du].
  set (d := Zpos (digits2_pos m)) in *.
  assert (He1 : e1 = Z.max (d + e - 53) (-1074)) by reflexivity.
  assert (Hn : 0 <= e1 - e) by lia.
  (* the rounded mantissa is at most 2^53 *)
  assert (Hq : Zpos m / 2 ^ (e1 - e) < 2 ^ 53).
  { apply Z.div_lt_upper_bound; [apply Z.pow_pos_nonneg; lia|].
    rewrite <- Z.pow_add_r by lia.
    apply Z.lt_le_trans with (1 := Du). apply Z.pow_le_mono_r; lia. }
  pose proof (rne_bounds (Zpos m) (e1 - e) Hn) as [[Rl Ru] _].
  pose proof (rne_nonneg (Zpos m) (e1 - e) ltac:(lia) Hn) as R0.
  assert (Hfirst : let '(mrs, e') := shr_fexp prec emax (Zpos m) e loc_Exact in
                   round_nearest_even (shr_m mrs) (loc_of_shr_record mrs) = rne (Zpos m) (e1 - e)
                   /\ e' = e1).
  { unfold shr_fexp. cbn [Zdigits2 shr_record_of_loc]. fold d. fold e1.
    unfold shr. destruct (e1 - e) eqn:En; try lia.
    - cbn [shr_m loc_of_shr_record round_nearest_even]. rewrite rne_0. split; [reflexivity|lia].
    - split; [|lia]. apply shr_round. lia. }
  unfold binary_round_aux.
  destruct (shr_fexp prec emax (Zpos m) e loc_Exact) as [mrs e'].
  destruct Hfirst as [Hr He']. rewrite Hr. subst e'.
  set (m2 := rne (Zpos m) (e1 - e)) in *.
  destruct (Z.ltb_spec m2 (2 ^ 53)) as [Hlt|Hge].
  - (* no carry *)
    rewrite shr_fexp_noshift.
    + cbn [shr_m]. unfold SFpack. destruct m2 as [|p2|p2] eqn:Em2; try lia.
      * reflexivity.
      * destruct (Z.ltb_spec (Zpos p2) (2 ^ 53)); [|lia]. reflexivity.
    + destruct m2 as [|p2|p2] eqn:Em2; try lia.
      * cbn [Zdigits2]. rewrite fexp64_eq. lia.
      * cbn [Zdigits2]. rewrite fexp64_eq.
        pose proof (digits2_le_of_lt p2 53 ltac:(lia) Hlt). lia.
  - assert (Em2 : m2 = 2 ^ 53) by lia.
    rewrite Em2. change (2 ^ 53) with 9007199254740992.
    unfold shr_fexp. cbn [Zdigits2 shr_record_of_loc].
    change (Zpos (digits2_pos 9007199254740992)) with 54.
    rewrite fexp64_eq.
    replace (Z.max (54 + e1 - 53) (-1074) - e1) with 1 by lia.
    unfold shr. cbn [SpecFloat.iter_pos]. rewrite shr_1_spec by lia. cbn [shr_m].
    change (9007199254740992 / 2) with 4503599627370496.
    unfold SFpack. replace (e1 + 1) with (e1 + 1) by reflexivity.
    destruct (Z.ltb_spec 9007199254740992 (2 ^ 53)) as [X|X]; [exfalso; revert X; change (2^53) with 9007199254740992; lia|].
    reflexivity.
Qed.

Lemma pos_iter_xO m k : Zpos (Pos.iter xO m k) = Zpos m * 2 ^ Zpos k.
Proof.
  induction k using Pos.peano_ind.
  - cbn [Pos.iter]. rewrite Pos2Z.inj_xO. change (2 ^ 1) with 2. lia.
  - rewrite Pos.iter_succ, Pos2Z.inj_xO, IHk, Pos2Z.inj_succ, Z.pow_succ_r by lia. lia.
Qed.

Lemma digits2_iter_xO m k :
  Zpos (digits2_pos (Pos.iter xO m k)) = Zpos (digits2_pos m) + Zpos k.
Proof.
  induction k using Pos.peano_ind.
  - cbn. lia.
  - rewrite Pos.iter_succ. cbn [digits2_pos]. rewrite Pos2Z.inj_succ, IHk. lia.
Qed.

Lemma binary_round_spec s m e :
  let e1 := fexp64 (Zpos (digits2_pos m) + e) in
  binary_round prec emax s m e = SFpack s (round_to (Zpos m) e e1) e1.
Proof.
  intros e1. unfold binary_round, shl_align, round_to. fold e1.
  destruct (Z.leb_spec e1 e) as [L|L].
  - destruct (e1 - e) eqn:En; try lia.
    + assert (e1 = e) by lia.
      rewrite bra_spec; fold e1; [|lia].
      replace (e1 - e) with 0 by lia. replace (e - e1) with 0 by lia.
      rewrite rne_0. f_equal. lia.
    + rewrite bra_spec; rewrite digits2_iter_xO.
      * replace (Zpos (digits2_pos m) + Zpos p + e1) with (Zpos (digits2_pos m) + e) by lia.
        fold e1. rewrite Z.sub_diag, rne_0, pos_iter_xO. f_equal. f_equal. f_equal. lia.
      * replace (Zpos (digits2_pos m) + Zpos p + e1) with (Zpos (digits2_pos m) + e) by lia.
        fold e1. lia.
  - destruct (e1 - e) eqn:En; try lia.
    rewrite bra_spec; fold e1; [|lia]. now rewrite En.
Qed.

(** Multiplying aligned mantissas also goes through [binary_round]. *)
Lemma bra_is_binary_round s m e :
  e <= fexp64 (Zpos (digits2_pos m) + e) ->
  binary_round_aux prec emax s (Zpos m) e loc_Exact = binary_round prec emax s m e.
Proof.
  intros H. unfold binary_round, shl_align.
  destruct (fexp64 (Zpos (digits2_pos m) + e) - e) eqn:En; try reflexivity. lia.
Qed.

End BinaryRound.

(** ** Mantissa and exponent as a rational *)

Section Rationals.
Local Open Scope Z_scope.

Lemma pow2_pos e : (0 < 2 ^ e)%Q.
Proof. apply Qpower_0_lt. reflexivity. Qed.

Lemma pow2_add a b : (2 ^ (a + b) == 2 ^ a * 2 ^ b)%Q.
Proof. apply Qpower_plus. discriminate. Qed.

Lemma pow2_Z k : 0 <= k -> (inject_Z (2 ^ k) == 2 ^ k)%Q.
Proof. intros. now rewrite Zpower_Qpower. Qed.

Lemma Qv_shift m e k : 0 <= k -> (Qv (m * 2 ^ k) e == Qv m (e + k))%Q.
Proof.
  intros Hk. unfold Qv. rewrite inject_Z_mult, pow2_Z, pow2_add by trivial. ring.
Qed.

Lemma Qv_le m m' e : (Qv m e <= Qv m' e)%Q <-> m <= m'.
Proof.
  unfold Qv. rewrite Qmult_le_r by apply pow2_pos. now rewrite <- Zle_Qle.
Qed.

Lemma Qv_lt m m' e : (Qv m e < Qv m' e)%Q <-> m < m'.
Proof.
  unfold Qv. rewrite Qmult_lt_r by apply pow2_pos. now rewrite <- Zlt_Qlt.
Qed.

Lemma Qv_eq m m' e : (Qv m e == Qv m' e)%Q <-> m = m'.
Proof.
  split.
  - intros H. apply Z.le_antisymm; apply (Qv_le _ _ e); rewrite H; apply Qle_refl.
  - intros ->. reflexivity.
Qed.

Lemma Qv_plus m m' e : (Qv m e + Qv m' e == Qv (m + m') e)%Q.
Proof. unfold Qv. rewrite inject_Z_plus. ring. Qed.

Lemma Qv_opp m e : (- Qv m e == Qv (- m) e)%Q.
Proof. unfold Qv. rewrite inject_Z_opp. ring. Qed.

Lemma Qv_mult m e m' e' : (Qv m e * Qv m' e' == Qv (m * m') (e + e'))%Q.
Proof. unfold Qv. rewrite inject_Z_mult, pow2_add. ring. Qed.

Lemma Qv_0 e : (Qv 0 e == 0)%Q.
Proof. unfold Qv. ring. Qed.

Lemma Qv_pow2 k e : 0 <= k -> (Qv (2 ^ k) e == 2 ^ (k + e))%Q.
Proof. intros. unfold Qv. rewrite pow2_Z, pow2_add by trivial. reflexivity. Qed.

Lemma Qv_1 e : (Qv 1 e == 2 ^ e)%Q.
Proof. unfold Qv. ring. Qed.

Lemma pow2_le a b : a <= b -> (2 ^ a <= 2 ^ b)%Q.
Proof.
  intros H. rewrite <- !Qv_1.
  replace b with (a + (b - a)) by lia. rewrite <- Qv_shift by lia.
  apply Qv_le. assert (0 < 2 ^ (b - a)) by (apply Z.pow_pos_nonneg; lia). lia.
Qed.

Lemma pow2_lt a b : a < b -> (2 ^ a < 2 ^ b)%Q.
Proof.
  intros H. rewrite <- !Qv_1.
  replace b with (a + (b - a)) by lia. rewrite <- Qv_shift by lia.
  apply Qv_lt. assert (2 ^ 1 <= 2 ^ (b - a)) by (apply Z.pow_le_mono_r; lia).
  change (2 ^ 1) with 2 in *. lia.
Qed.

(** ** Canonical mantissas *)

Lemma valid_finite_bounds s m e :
  valid_binary (S754_finite s m e) = true ->
  -1074 <= e <= 971 /\ Zpos m < 2 ^ 53 /\ (-1074 < e -> 2 ^ 52 <= Zpos m)
  /\ fexp64 (Zpos (digits2_pos m) + e) = e.
Proof.
  unfold SpecFloat.valid_binary, bounded, canonical_mantissa.
  intros H. apply andb_prop in H as [H1 H2].
  apply Z.eqb_eq in H1. apply Z.leb_le in H2.
  change (emax - prec) with 971 in H2.
  pose proof (digits2_bounds m) as [Dl Du].
  rewrite fexp64_eq in H1.
  repeat split; try lia.
  - apply Z.lt_le_trans with (1 := Du). apply Z.pow_le_mono_r; lia.
  - intros He. apply Z.le_trans with (2 := Dl). apply Z.pow_le_mono_r; lia.
  - rewrite fexp64_eq. lia.
Qed.

(** ** Rounding, on rationals *)

Section Round.
Variables (m : positive) (e e1 : Z).
Hypothesis e1_def : e1 = fexp64 (Zpos (digits2_pos m) + e).
Local Abbreviation m2 := (round_to (Zpos m) e e1).

Lemma Qv_align_up : e1 <= e -> (Qv (Zpos m) e == Qv (Zpos m * 2 ^ (e - e1)) e1)%Q.
Proof.
  intros. rewrite Qv_shift by lia. replace (e1 + (e - e1)) with e by lia. reflexivity.
Qed.

Lemma round_to_range : 0 <= m2 <= 2 ^ 53.
Proof.
  unfold round_to. pose proof (digits2_bounds m) as [Dl Du].
  assert (He1 : e1 = Z.max (Zpos (digits2_pos m) + e - 53) (-1074)) by (rewrite e1_def; reflexivity).
  destruct (Z.leb_spec e1 e) as [L|L].
  - assert (0 < 2 ^ (e - e1)) by (apply Z.pow_pos_nonneg; lia).
    split; [nia|].
    apply Z.lt_le_incl.
    apply Z.lt_le_trans with (2 ^ Zpos (digits2_pos m) * 2 ^ (e - e1)); [nia|].
    rewrite <- Z.pow_add_r by lia. apply Z.pow_le_mono_r; lia.
  - split; [apply rne_nonneg; lia|].
    pose proof (rne_bounds (Zpos m) (e1 - e) ltac:(lia)) as [[_ Ru] _].
    assert (Zpos m / 2 ^ (e1 - e) < 2 ^ 53); [|lia].
    apply Z.div_lt_upper_bound; [apply Z.pow_pos_nonneg; lia|].
    rewrite <- Z.pow_add_r by lia.
    apply Z.lt_le_trans with (1 := Du). apply Z.pow_le_mono_r; lia.
Qed.

Lemma round_to_normal : -1074 < e1 -> 2 ^ 52 <= m2 /\ (Qv (2 ^ 52) e1 <= Qv (Zpos m) e)%Q.
Proof.
  intros Hn. unfold round_to. pose proof (digits2_bounds m) as [Dl Du].
  assert (He1 : e1 = Zpos (digits2_pos m) + e - 53).
  { assert (e1 = Z.max (Zpos (digits2_pos m) + e - 53) (-1074)) by (rewrite e1_def; reflexivity). lia. }
  destruct (Z.leb_spec e1 e) as [L|L].
  - assert (Hm : 2 ^ 52 <= Zpos m * 2 ^ (e - e1)).
    { apply Z.le_trans with (2 ^ (Zpos (digits2_pos m) - 1) * 2 ^ (e - e1)).
      - rewrite <- Z.pow_add_r by lia. apply Z.pow_le_mono_r; lia.
      - apply Z.mul_le_mono_nonneg_r; [apply Z.pow_nonneg|]; lia. }
    split; [trivial|].
    rewrite Qv_align_up by trivial. now apply Qv_le.
  - assert (Hq : 2 ^ 52 <= Zpos m / 2 ^ (e1 - e)).
    { apply Z.div_le_lower_bound; [apply Z.pow_pos_nonneg; lia|].
      rewrite <- Z.pow_add_r by lia.
      apply Z.le_trans with (2 := Dl). apply Z.pow_le_mono_r; lia. }
    pose proof (rne_bounds (Zpos m) (e1 - e) ltac:(lia)) as [[Rl _] _].
    split; [lia|].
    replace e1 with (e + (e1 - e)) by lia. rewrite <- Qv_shift by lia.
    apply Qv_le.
    assert (P : 0 < 2 ^ (e1 - e)) by (apply Z.pow_pos_nonneg; lia).
    pose proof (Z.div_mod (Zpos m) (2 ^ (e1 - e)) ltac:(lia)).
    pose proof (Z.mod_pos_bound (Zpos m) (2 ^ (e1 - e)) P). nia.
Qed.

Lemma round_to_pos : -1074 <= e -> 0 < m2.
Proof.
  intros He. destruct (Z.leb_spec e1 e) as [L|L].
  - unfold round_to. destruct (Z.leb_spec e1 e); [|lia].
    assert (0 < 2 ^ (e - e1)) by (apply Z.pow_pos_nonneg; lia). nia.
  - pose proof (round_to_normal ltac:(lia)) as [H _].
    assert (0 < 2 ^ 52) by reflexivity. lia.
Qed.

Lemma round_to_error :
  (Qv (Zpos m) e - 2 ^ (e1 - 1) <= Qv m2 e1 <= Qv (Zpos m) e + 2 ^ (e1 - 1))%Q.
Proof.
  unfold round_to.
  destruct (Z.leb_spec e1 e) as [L|L].
  - rewrite Qv_align_up by trivial.
    pose proof (pow2_pos (e1 - 1)). split; lra.
  - pose proof (rne_bounds (Zpos m) (e1 - e) ltac:(lia)) as [_ [_ Rerr]].
    set (r := rne (Zpos m) (e1 - e)) in *.
    assert (E1 : (Qv r e1 == Qv (r * 2 ^ (e1 - e)) e)%Q).
    { rewrite Qv_shift by lia. replace (e + (e1 - e)) with e1 by lia. reflexivity. }
    assert (E2 : (2 ^ (e1 - 1) == Qv (2 ^ (e1 - e - 1)) e)%Q).
    { rewrite Qv_pow2 by lia. replace (e1 - e - 1 + e) with (e1 - 1) by lia. reflexivity. }
    rewrite E1, E2.
    assert (P : 2 ^ (e1 - e) = 2 * 2 ^ (e1 - e - 1)).
    { replace (e1 - e) with (Z.succ (e1 - e - 1)) at 1 by lia. rewrite Z.pow_succ_r by lia. reflexivity. }
    split.
    + unfold Qminus. rewrite Qv_opp, Qv_plus. apply Qv_le. lia.
    + rewrite Qv_plus. apply Qv_le. lia.
Qed.

Lemma round_to_sandwich (K : Z) (eK : Z) : e1 <= eK ->
  ((Qv (Zpos m) e <= Qv K eK)%Q -> (Qv m2 e1 <= Qv K eK)%Q) /\
  ((Qv K eK <= Qv (Zpos m) e)%Q -> (Qv K eK <= Qv m2 e1)%Q).
Proof.
  intros HK.
  assert (EK : (Qv K eK == Qv (K * 2 ^ (eK - e1)) e1)%Q).
  { rewrite Qv_shift by lia. replace (e1 + (eK - e1)) with eK by lia. reflexivity. }
  rewrite EK. set (K' := K * 2 ^ (eK - e1)). clearbody K'.
  unfold round_to.
  destruct (Z.leb_spec e1 e) as [L|L].
  - rewrite Qv_align_up by trivial. tauto.
  - pose proof (rne_bounds (Zpos m) (e1 - e) ltac:(lia)) as [[Rl Ru] [Rex _]].
    set (r := rne (Zpos m) (e1 - e)) in *.
    assert (E1 : forall z, (Qv z e1 == Qv (z * 2 ^ (e1 - e)) e)%Q).
    { intros z. rewrite Qv_shift by lia. replace (e + (e1 - e)) with e1 by lia. reflexivity. }
    assert (P : 0 < 2 ^ (e1 - e)) by (apply Z.pow_pos_nonneg; lia).
    pose proof (Z.div_mod (Zpos m) (2 ^ (e1 - e)) ltac:(lia)) as D.
    pose proof (Z.mod_pos_bound (Zpos m) (2 ^ (e1 - e)) P) as B.
    split; intros H.
    + rewrite (E1 K') in H. apply Qv_le in H. apply Qv_le.
      destruct (Z.eq_dec (Zpos m mod 2 ^ (e1 - e)) 0) as [Z0|NZ].
      * rewrite (Rex Z0). nia.
      * assert (Zpos m / 2 ^ (e1 - e) < K') by nia. lia.
    + rewrite (E1 K') in H. apply Qv_le in H. apply Qv_le.
      assert (K' <= Zpos m / 2 ^ (e1 - e)) by nia. lia.
Qed.

End Round.

End Rationals.

(** ** Correctly rounded results *)

Section Rounded.
Local Open Scope Z_scope.

Lemma Rounds_ext V V' r : (V == V')%Q -> Rounds V r -> Rounds V' r.
Proof.
  intros E (H1 & H2 & H3). split; [trivial|split].
  - intros F w Hv Hf. destruct (H2 F w Hv Hf) as [A B]. rewrite <- E. tauto.
  - intros k Hk Hb. rewrite <- E in Hb. destruct (H3 k Hk Hb) as [A B].
    rewrite <- E. tauto.
Qed.

Lemma Rounds_exact r : valid_binary r = true -> SFfin r = true -> Rounds (SF2Q r) r.
Proof.
  intros Hv Hf. split; [destruct r; try discriminate; reflexivity|split].
  - intros _ w _ _. tauto.
  - intros k _ _. split; [trivial|]. pose proof (pow2_pos (k - 54)). split; lra.
Qed.

Lemma SFpack_opp m2 e1 : 0 <= m2 -> SFpack true m2 e1 = SFopp (SFpack false m2 e1).
Proof.
  intros H. unfold SFpack. destruct m2; try lia; try reflexivity.
  destruct (_ <? _); destruct (_ <=? _); reflexivity.
Qed.

Lemma SF2Q_opp x : (SF2Q (SFopp x) == - SF2Q x)%Q.
Proof.
  destruct x as [s|s| |s m e]; cbn; try reflexivity.
  rewrite Qv_opp. destruct s; cbn; reflexivity.
Qed.

Lemma SFfin_opp x : SFfin (SFopp x) = SFfin x.
Proof. destruct x; reflexivity. Qed.

Lemma SFisnan_opp x : SFisnan (SFopp x) = SFisnan x.
Proof. destruct x; reflexivity. Qed.

Lemma valid_opp x : valid_binary (SFopp x) = valid_binary x.
Proof. destruct x; reflexivity. Qed.

Lemma SFopp_involutive x : SFopp (SFopp x) = x.
Proof. destruct x as [s|s| |s m e]; cbn; try rewrite negb_involutive; reflexivity. Qed.

Lemma SFpack_nonnan s m2 e1 : 0 <= m2 -> SFisnan (SFpack s m2 e1) = false.
Proof.
  intros H. unfold SFpack. destruct m2; try lia; try reflexivity.
  destruct (_ <? _); destruct (_ <=? _); reflexivity.
Qed.

Lemma SFpack_fin s m2 e1 : 0 <= m2 -> e1 + 1 <= 971 -> SFfin (SFpack s m2 e1) = true.
Proof.
  intros H He. unfold SFpack. destruct m2; try lia; try reflexivity.
  destruct (_ <? _).
  - destruct (Z.leb_spec e1 971); [reflexivity|lia].
  - destruct (Z.leb_spec (e1 + 1) 971); [reflexivity|lia].
Qed.

Lemma SFpack_val m2 e1 : 0 <= m2 <= 2 ^ 53 ->
  SFfin (SFpack false m2 e1) = true -> (SF2Q (SFpack false m2 e1) == Qv m2 e1)%Q.
Proof.
  intros H. unfold SFpack. destruct m2 as [|p|p]; try lia.
  - intros _. cbn. now rewrite Qv_0.
  - destruct (Z.ltb_spec (Zpos p) (2 ^ 53)) as [L|L].
    + destruct (e1 <=? 971); [|discriminate]. intros _. reflexivity.
    + destruct (e1 + 1 <=? 971); [|discriminate]. intros _. cbn [SF2Q cond_Zopp].
      assert (E : Zpos p = 2 ^ 53) by lia. rewrite E.
      change (2 ^ 53) with (4503599627370496 * 2 ^ 1).
      rewrite Qv_shift by lia. reflexivity.
Qed.

(** Rounding a positive mantissa. *)
Lemma binary_round_Rounds_pos m e :
  Rounds (Qv (Zpos m) e) (binary_round prec emax false m e).
Proof.
  rewrite binary_round_spec.
  set (e1 := fexp64 (Zpos (digits2_pos m) + e)).
  assert (e1_def : e1 = fexp64 (Zpos (digits2_pos m) + e)) by reflexivity.
  clearbody e1.
  pose proof (round_to_range m e e1 e1_def) as Rg.
  pose proof (round_to_sandwich m e e1) as Sand.
  pose proof (round_to_normal m e e1 e1_def) as Nor.
  pose proof (round_to_error m e e1) as [El Eu].
  set (m2 := round_to (Zpos m) e e1) in *. clearbody m2.
  split; [apply SFpack_nonnan; lia|split].
  - intros F w Hv Hf. rewrite (SFpack_val m2 e1 Rg F).
    assert (P : (0 < Qv (Zpos m) e)%Q).
    { assert (X : (Qv 0 e < Qv (Zpos m) e)%Q) by (apply Qv_lt; lia). now rewrite Qv_0 in X. }
    assert (P2 : (0 <= Qv m2 e1)%Q).
    { assert (X : (Qv 0 e1 <= Qv m2 e1)%Q) by (apply Qv_le; lia). now rewrite Qv_0 in X. }
    destruct w as [sw|sw| |sw mw ew]; try discriminate.
    + (* zero *)
      cbn [SF2Q]. split; intros; lra.
    + destruct (valid_finite_bounds _ _ _ Hv) as (Be & Bm & Bn & _).
      destruct sw; cbn [SF2Q cond_Zopp].
      * (* negative *)
        assert (N : (Qv (- Zpos mw) ew < 0)%Q).
        { assert (X : (Qv (- Zpos mw) ew < Qv 0 ew)%Q) by (apply Qv_lt; lia). now rewrite Qv_0 in X. }
        split; intros; lra.
      * destruct (Z_le_gt_dec e1 ew) as [L|G].
        -- apply (Sand (Zpos mw) ew L).
        -- destruct (Nor ltac:(lia)) as [N1 N2].
           assert (W : (Qv (Zpos mw) ew < Qv (2 ^ 52) e1)%Q).
           { apply Qlt_le_trans with (Qv (2 ^ 53) ew); [apply Qv_lt; lia|].
             rewrite !Qv_pow2 by lia. apply pow2_le. lia. }
           assert (M2 : (Qv (2 ^ 52) e1 <= Qv m2 e1)%Q) by (apply Qv_le; lia).
           split; intros; lra.
  - intros k Hk [Vl Vu].
    (* the exponent is small *)
    pose proof (digits2_bounds m) as [Dl Du].
    assert (Hd : Zpos (digits2_pos m) - 1 + e < k).
    { destruct (Z_lt_ge_dec (Zpos (digits2_pos m) - 1 + e) k) as [|G]; [trivial|exfalso].
      assert (A1 : (Qv (2 ^ (Zpos (digits2_pos m) - 1)) e <= Qv (Zpos m) e)%Q) by (apply Qv_le; lia).
      rewrite Qv_pow2 in A1 by lia.
      pose proof (pow2_le k (Zpos (digits2_pos m) - 1 + e) ltac:(lia)). lra. }
    assert (He1 : e1 <= Z.max (k - 53) (-1074)) by (rewrite e1_def, fexp64_eq; lia).
    assert (F : SFfin (SFpack false m2 e1) = true) by (apply SFpack_fin; lia).
    split; [trivial|]. rewrite (SFpack_val m2 e1 Rg F).
    pose proof (pow2_le (e1 - 1) (k - 54) ltac:(lia)). split; lra.
Qed.

Lemma Rounds_opp V r : Rounds V r -> Rounds (- V) (SFopp r).
Proof.
  intros (H1 & H2 & H3). split; [now rewrite SFisnan_opp|split].
  - rewrite SFfin_opp. intros F w Hv Hf.
    destruct (H2 F (SFopp w)) as [A B]; [now rewrite valid_opp|now rewrite SFfin_opp|].
    rewrite SF2Q_opp in *. split; intros; lra.
  - intros k Hk Hb. destruct (H3 k Hk) as [F [A B]]; [split; lra|].
    rewrite SFfin_opp, SF2Q_opp. split; [trivial|split; lra].
Qed.

Lemma binary_round_Rounds s m e :
  Rounds (Qv (cond_Zopp s (Zpos m)) e) (binary_round prec emax s m e).
Proof.
  destruct s; [|apply binary_round_Rounds_pos].
  cbn [cond_Zopp]. rewrite binary_round_spec, SFpack_opp.
  - rewrite <- binary_round_spec.
    apply Rounds_ext with (- Qv (Zpos m) e)%Q; [now rewrite Qv_opp|].
    apply Rounds_opp, binary_round_Rounds_pos.
  - apply (round_to_range m e _ eq_refl).
Qed.

Lemma binary_normalize_Rounds M e sz :
  Rounds (Qv M e) (binary_normalize prec emax M e sz).
Proof.
  destruct M as [|p|p]; cbn [binary_normalize].
  - apply Rounds_ext with (SF2Q (S754_zero sz)); [cbn; now rewrite Qv_0|].
    now apply Rounds_exact.
  - apply (binary_round_Rounds false).
  - apply (binary_round_Rounds true).
Qed.

(** When nothing is lost below the smallest exponent, the sign is kept. *)
Lemma binary_round_sign s m e : -1074 <= e ->
  match binary_round prec emax s m e with
  | S754_finite s' _ _ | S754_infinity s' => s' = s
  | _ => False
  end.
Proof.
  intros He. rewrite binary_round_spec.
  pose proof (round_to_pos m e _ eq_refl He) as P.
  pose proof (round_to_range m e _ eq_refl) as Rg.
  unfold SFpack. destruct (round_to _ _ _); try lia.
  destruct (_ <? _); destruct (_ <=? _); reflexivity.
Qed.

End Rounded.

(** ** Addition, subtraction, multiplication and comparison *)

Section Operations.
Local Open Scope Z_scope.

Lemma shl_align_val mx ex ez : ez <= ex ->
  Zpos (fst (shl_align mx ex ez)) = Zpos mx * 2 ^ (ex - ez).
Proof.
  intros H. unfold shl_align. destruct (ez - ex) eqn:E; try lia; cbn [fst].
  - replace (ex - ez) with 0 by lia. lia.
  - rewrite pos_iter_xO. f_equal. f_equal. lia.
Qed.

Lemma Qv_cond_Zopp s m e : (Qv (cond_Zopp s m) e == if s then - Qv m e else Qv m e)%Q.
Proof. destruct s; cbn [cond_Zopp]; [now rewrite Qv_opp|reflexivity]. Qed.

Lemma aligned_val s mx ex ez : ez <= ex ->
  (Qv (cond_Zopp s (Zpos (fst (shl_align mx ex ez)))) ez == SF2Q (S754_finite s mx ex))%Q.
Proof.
  intros H. rewrite shl_align_val by trivial. cbn [SF2Q].
  assert (E : (Qv (Zpos mx * 2 ^ (ex - ez)) ez == Qv (Zpos mx) ex)%Q).
  { rewrite Qv_shift by lia. replace (ez + (ex - ez)) with ex by lia. reflexivity. }
  destruct s; cbn [cond_Zopp]; rewrite <- ?Qv_opp, E; reflexivity.
Qed.

Lemma SF2Q_zero s : (SF2Q (S754_zero s) == 0)%Q.
Proof. reflexivity. Qed.

Lemma SFadd_Rounds x y :
  valid_binary x = true -> valid_binary y = true ->
  SFfin x = true -> SFfin y = true ->
  Rounds (SF2Q x + SF2Q y) (SF64add x y).
Proof.
  intros Vx Vy Fx Fy.
  destruct x as [sx|sx| |sx mx ex]; try discriminate;
  destruct y as [sy|sy| |sy my ey]; try discriminate.
  - apply Rounds_ext with (SF2Q (S754_zero (if Bool.eqb sx sy then sx else false))).
    + cbn. reflexivity.
    + replace (SF64add (S754_zero sx) (S754_zero sy))
        with (S754_zero (if Bool.eqb sx sy then sx else false))
        by (destruct sx, sy; reflexivity).
      now apply Rounds_exact.
  - apply Rounds_ext with (SF2Q (S754_finite sy my ey)); [cbn [SF2Q]; ring|].
    now apply Rounds_exact.
  - apply Rounds_ext with (SF2Q (S754_finite sx mx ex)); [cbn [SF2Q]; ring|].
    now apply Rounds_exact.
  - unfold SF64add, SFadd.
    eapply Rounds_ext; [|apply binary_normalize_Rounds].
    rewrite <- Qv_plus, !aligned_val by lia. reflexivity.
Qed.

Lemma SFsub_Rounds x y :
  valid_binary x = true -> valid_binary y = true ->
  SFfin x = true -> SFfin y = true ->
  Rounds (SF2Q x - SF2Q y) (SF64sub x y).
Proof.
  intros Vx Vy Fx Fy.
  destruct x as [sx|sx| |sx mx ex]; try discriminate;
  destruct y as [sy|sy| |sy my ey]; try discriminate.
  - apply Rounds_ext with (SF2Q (S754_zero (if Bool.eqb sx (negb sy) then sx else false))).
    + cbn. reflexivity.
    + replace (SF64sub (S754_zero sx) (S754_zero sy))
        with (S754_zero (if Bool.eqb sx (negb sy) then sx else false))
        by (destruct sx, sy; reflexivity).
      now apply Rounds_exact.
  - apply Rounds_ext with (SF2Q (S754_finite (negb sy) my ey)).
    + cbn [SF2Q]. destruct sy; cbn [negb cond_Zopp]; rewrite <- ?Qv_opp; ring.
    + now apply Rounds_exact.
  - apply Rounds_ext with (SF2Q (S754_finite sx mx ex)); [cbn [SF2Q]; ring|].
    now apply Rounds_exact.
  - unfold SF64sub, SFsub.
    eapply Rounds_ext; [|apply binary_normalize_Rounds].
    unfold Z.sub at 1. rewrite <- Qv_plus, <- Qv_opp, !aligned_val by lia. reflexivity.
Qed.

(** The product of two canonical mantissas needs no alignment. *)
Lemma mul_aligned sx mx ex sy my ey :
  valid_binary (S754_finite sx mx ex) = true ->
  valid_binary (S754_finite sy my ey) = true ->
  ex + ey <= fexp64 (Zpos (digits2_pos (mx * my)) + (ex + ey)).
Proof.
  intros Vx Vy.
  destruct (valid_finite_bounds _ _ _ Vx) as (Bex & Bmx & Bnx & Cx).
  destruct (valid_finite_bounds _ _ _ Vy) as (Bey & Bmy & Bny & Cy).
  pose proof (digits2_bounds mx) as [Dlx Dux].
  pose proof (digits2_bounds my) as [Dly Duy].
  assert (D : Zpos (digits2_pos mx) + Zpos (digits2_pos my) - 2 < Zpos (digits2_pos (mx * my))).
  { apply digits2_ge_of_le. rewrite Pos2Z.inj_mul.
    replace (Zpos (digits2_pos mx) + Zpos (digits2_pos my) - 2)
      with ((Zpos (digits2_pos mx) - 1) + (Zpos (digits2_pos my) - 1)) by lia.
    rewrite Z.pow_add_r by lia. apply Z.mul_le_mono_nonneg; try lia; apply Z.pow_nonneg; lia. }
  rewrite fexp64_eq in *.
  assert (Nx : -1074 < ex -> Zpos (digits2_pos mx) = 53) by lia.
  assert (Ny : -1074 < ey -> Zpos (digits2_pos my) = 53) by lia.
  lia.
Qed.

Lemma SFmul_Rounds x y :
  valid_binary x = true -> valid_binary y = true ->
  SFfin x = true -> SFfin y = true ->
  Rounds (SF2Q x * SF2Q y) (SF64mul x y).
Proof.
  intros Vx Vy Fx Fy.
  destruct x as [sx|sx| |sx mx ex]; try discriminate;
  destruct y as [sy|sy| |sy my ey]; try discriminate;
  try (apply Rounds_ext with (SF2Q (S754_zero (xorb sx sy)));
       [cbn [SF2Q]; ring | now apply Rounds_exact]).
  unfold SF64mul, SFmul.
  rewrite bra_is_binary_round by (eapply mul_aligned; eassumption).
  eapply Rounds_ext; [|apply binary_round_Rounds].
  cbn [SF2Q]. rewrite Qv_mult, Pos2Z.inj_mul.
  destruct sx, sy; cbn [xorb cond_Zopp]; apply Qv_eq; lia.
Qed.

(** ** Comparison *)

Lemma valid_lt_exp m1 e1 m2 e2 s1 s2 :
  valid_binary (S754_finite s1 m1 e1) = true ->
  valid_binary (S754_finite s2 m2 e2) = true ->
  e1 < e2 -> (Qv (Zpos m1) e1 < Qv (Zpos m2) e2)%Q.
Proof.
  intros V1 V2 H.
  destruct (valid_finite_bounds _ _ _ V1) as (Be1 & Bm1 & _).
  destruct (valid_finite_bounds _ _ _ V2) as (Be2 & Bm2 & Bn2 & _).
  apply Qlt_le_trans with (Qv (2 ^ 53) e1); [apply Qv_lt; lia|].
  apply Qle_trans with (Qv (2 ^ 52) e2); [|apply Qv_le; lia].
  rewrite !Qv_pow2 by lia. apply pow2_le. lia.
Qed.

Lemma Qv_pos_gt0 m e : (0 < Qv (Zpos m) e)%Q.
Proof.
  assert (X : (Qv 0 e < Qv (Zpos m) e)%Q) by (apply Qv_lt; lia). now rewrite Qv_0 in X.
Qed.

Lemma Qcompare_Lt a b : (a < b)%Q -> (a ?= b)%Q = Lt.
Proof. apply Qlt_alt. Qed.
Lemma Qcompare_Gt a b : (b < a)%Q -> (a ?= b)%Q = Gt.
Proof. apply Qgt_alt. Qed.
Lemma Qcompare_Eq a b : (a == b)%Q -> (a ?= b)%Q = Eq.
Proof. apply Qeq_alt. Qed.

Lemma Qv_compare m1 m2 e : (Qv m1 e ?= Qv m2 e)%Q = (m1 ?= m2).
Proof.
  destruct (Z.compare_spec m1 m2) as [E|L|G].
  - apply Qcompare_Eq. now apply Qv_eq.
  - apply Qcompare_Lt. now apply Qv_lt.
  - apply Qcompare_Gt. now apply Qv_lt.
Qed.

Lemma SFcompare_val x y :
  valid_binary x = true -> valid_binary y = true ->
  SFfin x = true -> SFfin y = true ->
  SFcompare x y = Some (SF2Q x ?= SF2Q y)%Q.
Proof.
  intros Vx Vy Fx Fy.
  destruct x as [sx|sx| |sx mx ex]; try discriminate;
  destruct y as [sy|sy| |sy my ey]; try discriminate; cbn [SFcompare SF2Q].
  - reflexivity.
  - f_equal. symmetry. pose proof (Qv_pos_gt0 my ey).
    destruct sy; cbn [cond_Zopp].
    + apply Qcompare_Gt. rewrite <- Qv_opp. lra.
    + apply Qcompare_Lt. lra.
  - f_equal. symmetry. pose proof (Qv_pos_gt0 mx ex).
    destruct sx; cbn [cond_Zopp].
    + apply Qcompare_Lt. rewrite <- Qv_opp. lra.
    + apply Qcompare_Gt. lra.
  - f_equal. symmetry.
    pose proof (Qv_pos_gt0 mx ex). pose proof (Qv_pos_gt0 my ey).
    destruct sx, sy; cbn [cond_Zopp]; rewrite <- ?Qv_opp.
    + (* both negative *)
      destruct (Z.compare_spec ex ey) as [E|L|G].
      * subst ey. rewrite !Qv_opp, Qv_compare, Pos.compare_cont_spec. cbn [Pos.switch_Eq].
        rewrite Z.compare_opp. change (Zpos my ?= Zpos mx) with (my ?= mx)%positive.
        rewrite (Pos.compare_antisym mx my). now destruct (mx ?= my)%positive.
      * apply Qcompare_Gt. pose proof (valid_lt_exp _ _ _ _ _ _ Vx Vy L). lra.
      * apply Qcompare_Lt. pose proof (valid_lt_exp _ _ _ _ _ _ Vy Vx G). lra.
    + apply Qcompare_Lt. lra.
    + apply Qcompare_Gt. lra.
    + destruct (Z.compare_spec ex ey) as [E|L|G].
      * subst ey. rewrite Qv_compare, Pos.compare_cont_spec.
        change (Zpos mx ?= Zpos my) with (mx ?= my)%positive.
        now destruct (mx ?= my)%positive.
      * apply Qcompare_Lt. apply (valid_lt_exp _ _ _ _ _ _ Vx Vy L).
      * apply Qcompare_Gt. apply (valid_lt_exp _ _ _ _ _ _ Vy Vx G).
Qed.

End Operations.

(** ** The primitive operations *)

Section Primitive.
Local Open Scope Z_scope.

Lemma finite_notnan x : finite x = true -> notnan x = true.
Proof. unfold finite, notnan. now destruct (Prim2SF x). Qed.

Section Ops.
Local Open Scope float_scope.
Local Open Scope Q_scope.

Lemma add_Rounds x y : finite x = true -> finite y = true ->
  Rounds (val x + val y) (Prim2SF (x + y)).
Proof.
  intros. rewrite add_spec. apply SFadd_Rounds; trivial; apply Prim2SF_valid.
Qed.

Lemma sub_Rounds x y : finite x = true -> finite y = true ->
  Rounds (val x - val y) (Prim2SF (x - y)).
Proof.
  intros. rewrite sub_spec. apply SFsub_Rounds; trivial; apply Prim2SF_valid.
Qed.

Lemma mul_Rounds x y : finite x = true -> finite y = true ->
  Rounds (val x * val y) (Prim2SF (x * y)).
Proof.
  intros. rewrite mul_spec. apply SFmul_Rounds; trivial; apply Prim2SF_valid.
Qed.

Lemma Rounds_le V z w : Rounds V (Prim2SF z) -> finite z = true -> finite w = true ->
  V <= val w -> val z <= val w.
Proof.
  intros (_ & H & _) Fz Fw. now apply (H Fz (Prim2SF w) (Prim2SF_valid w) Fw).
Qed.

Lemma Rounds_ge V z w : Rounds V (Prim2SF z) -> finite z = true -> finite w = true ->
  val w <= V -> val w <= val z.
Proof.
  intros (_ & H & _) Fz Fw. now apply (H Fz (Prim2SF w) (Prim2SF_valid w) Fw).
Qed.

Lemma Rounds_small V z : Rounds V (Prim2SF z) -> -8 < V < 8 ->
  finite z = true /\ V - eps <= val z <= V + eps.
Proof.
  intros (_ & _ & H) B. apply (H 3%Z); [lia|exact B].
Qed.

Lemma Rounds_medium V z : Rounds V (Prim2SF z) -> -1024 < V < 1024 ->
  finite z = true.
Proof.
  intros (_ & _ & H) B. apply (H 10%Z); [lia|exact B].
Qed.

Lemma Rounds_below2 V z : Rounds V (Prim2SF z) -> -2 < V < 2 ->
  finite z = true /\ V - (1 # 9007199254740992) <= val z <= V + (1 # 9007199254740992).
Proof.
  intros (_ & _ & H) B. apply (H 1%Z); [lia|exact B].
Qed.

Lemma Rounds_below1 V z : Rounds V (Prim2SF z) -> -1 < V < 1 ->
  finite z = true /\ V - (1 # 18014398509481984) <= val z <= V + (1 # 18014398509481984).
Proof.
  intros (_ & _ & H) B. apply (H 0%Z); [lia|exact B].
Qed.

Lemma Rounds_notnan V z : Rounds V (Prim2SF z) -> notnan z = true.
Proof. intros (H & _). unfold notnan. now rewrite H. Qed.

(** *** Comparisons of finite numbers *)

Lemma compare_val x y : finite x = true -> finite y = true ->
  SFcompare (Prim2SF x) (Prim2SF y) = Some (val x ?= val y).
Proof. intros. apply SFcompare_val; trivial; apply Prim2SF_valid. Qed.

Lemma ltb_val x y : finite x = true -> finite y = true ->
  (x <? y)%float = true <-> val x < val y.
Proof.
  intros Fx Fy. rewrite FloatAxioms.ltb_spec. unfold SFltb. rewrite compare_val by trivial.
  destruct (Qcompare_spec (val x) (val y)); split; intros; try congruence; try discriminate; lra.
Qed.

Lemma leb_val x y : finite x = true -> finite y = true ->
  (x <=? y)%float = true <-> val x <= val y.
Proof.
  intros Fx Fy. rewrite FloatAxioms.leb_spec. unfold SFleb. rewrite compare_val by trivial.
  destruct (Qcompare_spec (val x) (val y)); split; intros; try congruence; try discriminate; lra.
Qed.

Lemma eqb_val x y : finite x = true -> finite y = true ->
  (x =? y)%float = true <-> val x == val y.
Proof.
  intros Fx Fy. rewrite FloatAxioms.eqb_spec. unfold SFeqb. rewrite compare_val by trivial.
  destruct (Qcompare_spec (val x) (val y)); split; intros; try congruence; try discriminate; lra.
Qed.

Lemma ltb_false_val x y : finite x = true -> finite y = true ->
  (x <? y)%float = false <-> val y <= val x.
Proof.
  intros Fx Fy. pose proof (ltb_val x y Fx Fy) as [A B].
  destruct (x <? y)%float; split; intros; try discriminate; try reflexivity.
  - specialize (A eq_refl). lra.
  - apply Qnot_lt_le. intros C. specialize (B C). discriminate.
Qed.

Lemma leb_false_val x y : finite x = true -> finite y = true ->
  (x <=? y)%float = false <-> val y < val x.
Proof.
  intros Fx Fy. pose proof (leb_val x y Fx Fy) as [A B].
  destruct (x <=? y)%float; split; intros; try discriminate; try reflexivity.
  - specialize (A eq_refl). lra.
  - apply Qnot_le_lt. intros C. specialize (B C). discriminate.
Qed.

(** *** Sign changes *)

Lemma finite_abs x : finite (abs x) = finite x.
Proof. unfold finite. rewrite abs_spec. now destruct (Prim2SF x). Qed.

Lemma finite_opp x : finite (- x)%float = finite x.
Proof. unfold finite. rewrite opp_spec. apply SFfin_opp. Qed.

Lemma val_opp x : val (- x)%float == - val x.
Proof. unfold val. rewrite opp_spec. apply SF2Q_opp. Qed.

Lemma val_abs x : val (abs x) == Qabs (val x).
Proof.
  unfold val. rewrite abs_spec. destruct (Prim2SF x) as [s|s| |s m e]; try reflexivity.
  cbn [SFabs SF2Q]. pose proof (Qv_pos_gt0 m e).
  destruct s; cbn [cond_Zopp].
  - rewrite <- Qv_opp, Qabs_opp. symmetry. apply Qabs_pos. lra.
  - symmetry. apply Qabs_pos. lra.
Qed.

Lemma val_abs_cases x :
  0 <= val (abs x) /\ (val (abs x) == val x \/ val (abs x) == - val x) .
Proof.
  rewrite val_abs. split; [apply Qabs_nonneg|].
  apply Qabs_case; intros; [left|right]; reflexivity.
Qed.

End Ops.

End Primitive.

(** ** Exact values *)

Section Constants.
Local Open Scope Z_scope.

(** [x + x] is exact. *)
Lemma round_to_exact m e e1 K eK :
  e1 <= eK -> (Qv (Zpos m) e == Qv K eK)%Q ->
  (Qv (round_to (Zpos m) e e1) e1 == Qv (Zpos m) e)%Q.
Proof.
  intros H E. destruct (round_to_sandwich m e e1 K eK H) as [A B].
  assert (A' := A ltac:(rewrite E; apply Qle_refl)).
  assert (B' := B ltac:(rewrite E; apply Qle_refl)).
  rewrite E. apply Qle_antisym; trivial.
Qed.

Lemma SFadd_self_exact x :
  valid_binary x = true -> SFfin x = true -> SFfin (SF64add x x) = true ->
  (SF2Q (SF64add x x) == SF2Q x + SF2Q x)%Q.
Proof.
  intros Vx Fx. destruct x as [s|s| |s m e]; try discriminate.
  - intros _. destruct s; reflexivity.
  - destruct (valid_finite_bounds _ _ _ Vx) as (Be & Bm & Bn & Ce).
    unfold SF64add, SFadd. rewrite Z.min_id.
    assert (Al : fst (shl_align m e e) = m).
    { unfold shl_align. now rewrite Z.sub_diag. }
    rewrite Al.
    assert (E2 : cond_Zopp s (Zpos m) + cond_Zopp s (Zpos m) = cond_Zopp s (Zpos (m~0))).
    { destruct s; cbn [cond_Zopp]; lia. }
    rewrite E2.
    assert (BN : binary_normalize prec emax (cond_Zopp s (Zpos m~0)) e false
                 = binary_round prec emax s (m~0) e) by (destruct s; reflexivity).
    rewrite BN, binary_round_spec.
    set (e1 := fexp64 (Zpos (digits2_pos m~0) + e)).
    assert (He1 : e1 <= e + 1).
    { subst e1. cbn [digits2_pos]. rewrite Pos2Z.inj_succ. rewrite fexp64_eq in *. lia. }
    pose proof (round_to_range (m~0) e e1 eq_refl) as Rg.
    assert (Ex : (Qv (round_to (Zpos m~0) e e1) e1 == Qv (Zpos m~0) e)%Q).
    { apply round_to_exact with (K := Zpos m) (eK := e + 1); [trivial|].
      rewrite <- Qv_shift by lia. apply Qv_eq. change (2 ^ 1) with 2. lia. }
    assert (V2 : (Qv (Zpos m~0) e == Qv (Zpos m) e + Qv (Zpos m) e)%Q).
    { rewrite Qv_plus. apply Qv_eq. lia. }
    destruct s.
    + rewrite SFpack_opp by lia. rewrite SFfin_opp. intros F.
      rewrite SF2Q_opp, SFpack_val by trivial. cbn [SF2Q cond_Zopp].
      rewrite <- !Qv_opp, Ex, V2. ring.
    + intros F. rewrite SFpack_val by trivial. cbn [SF2Q cond_Zopp].
      rewrite Ex, V2. reflexivity.
Qed.

Local Open Scope float_scope.
Local Open Scope Q_scope.

Lemma val_add_self x : finite x = true -> finite (x + x) = true ->
  val (x + x) == val x + val x.
Proof.
  unfold finite, val. rewrite add_spec. apply SFadd_self_exact, Prim2SF_valid.
Qed.

Lemma val_0 : val 0 == 0. Proof. reflexivity. Qed.
Lemma val_1 : val 1 == 1. Proof. vm_compute. reflexivity. Qed.
Lemma val_2 : val 2 == 2. Proof. vm_compute. reflexivity. Qed.
Lemma val_half : val 0.5 == 1 # 2. Proof. vm_compute. reflexivity. Qed.
Lemma val_m1 : val (-1) == -1. Proof. vm_compute. reflexivity. Qed.

(** The midpoint of two numbers of [0,1] lies between them. *)
Lemma midpoint_between a b :
  finite a = true -> finite b = true ->
  0 <= val a -> val a <= val b -> val b <= 1 ->
  finite (0.5 * (a + b)) = true /\ val a <= val (0.5 * (a + b)) <= val b.
Proof.
  intros Fa Fb A0 AB B1.
  pose proof (add_Rounds a b Fa Fb) as Rs.
  destruct (Rounds_small _ _ Rs) as [Fs _]; [unfold eps; split; lra|].
  destruct (Rounds_small _ _ (add_Rounds a a Fa Fa)) as [Faa _]; [split; lra|].
  destruct (Rounds_small _ _ (add_Rounds b b Fb Fb)) as [Fbb _]; [split; lra|].
  pose proof (val_add_self a Fa Faa) as Eaa.
  pose proof (val_add_self b Fb Fbb) as Ebb.
  assert (Sl : val (a + a) <= val (a + b)) by (apply (Rounds_ge _ _ _ Rs); trivial; lra).
  assert (Su : val (a + b) <= val (b + b)) by (apply (Rounds_le _ _ _ Rs); trivial; lra).
  assert (Fh : finite 0.5 = true) by reflexivity.
  pose proof (mul_Rounds 0.5 (a + b) Fh Fs) as Rt.
  pose proof val_half as Vh.
  destruct (Rounds_small _ _ Rt) as [Ft _]; [rewrite Vh; split; lra|].
  split; [trivial|split].
  - apply (Rounds_ge _ _ _ Rt); trivial. rewrite Vh. lra.
  - apply (Rounds_le _ _ _ Rt); trivial. rewrite Vh. lra.
Qed.

End Constants.

(** ** Division, conversion and order *)

Section Division.
Local Open Scope Z_scope.

(** ** Overflow keeps the sign *)

Lemma SFsub_overflow_sign x y s :
  valid_binary x = true -> valid_binary y = true ->
  SFfin x = true -> SFfin y = true ->
  SF64sub x y = S754_infinity s ->
  if s then (SF2Q x < SF2Q y)%Q else (SF2Q y < SF2Q x)%Q.
Proof.
  intros Vx Vy Fx Fy.
  destruct x as [sx|sx| |sx mx ex]; try discriminate;
  destruct y as [sy|sy| |sy my ey]; try discriminate.
  - intros H0; destruct sx, sy; discriminate H0.
  - destruct (valid_finite_bounds _ _ _ Vx) as (Bex & _).
    destruct (valid_finite_bounds _ _ _ Vy) as (Bey & _).
    unfold SF64sub, SFsub.
    set (M := cond_Zopp sx (Zpos (fst (shl_align mx ex (Z.min ex ey))))
              - cond_Zopp sy (Zpos (fst (shl_align my ey (Z.min ex ey))))).
    assert (EV : (Qv M (Z.min ex ey) == SF2Q (S754_finite sx mx ex) - SF2Q (S754_finite sy my ey))%Q).
    { subst M. unfold Z.sub at 1. rewrite <- Qv_plus, <- Qv_opp, !aligned_val by lia. reflexivity. }
    clearbody M. intros H.
    destruct M as [|p|p]; cbn [binary_normalize] in H; try discriminate.
    + pose proof (binary_round_sign false p (Z.min ex ey) ltac:(lia)) as S.
      rewrite H in S. subst s. pose proof (Qv_pos_gt0 p (Z.min ex ey)). lra.
    + pose proof (binary_round_sign true p (Z.min ex ey) ltac:(lia)) as S.
      rewrite H in S. subst s. pose proof (Qv_pos_gt0 p (Z.min ex ey)).
      change (Z.neg p) with (- Zpos p) in EV. rewrite <- Qv_opp in EV. lra.
Qed.

(** ** Division *)

Lemma shr_1_nonneg mrs : 0 <= shr_m mrs -> 0 <= shr_m (shr_1 mrs).
Proof.
  destruct mrs as [m r s]. cbn [shr_m]. intros H.
  rewrite shr_1_spec by trivial. cbn [shr_m]. apply Z.div_pos; lia.
Qed.

Lemma shr_nonneg mrs e n : 0 <= shr_m mrs -> 0 <= shr_m (fst (shr mrs e n)).
Proof.
  intros H. unfold shr. destruct n; cbn [fst]; trivial.
  rewrite iter_pos_nat. induction (Pos.to_nat p) as [|j IH]; [trivial|].
  rewrite Nat.iter_succ. now apply shr_1_nonneg.
Qed.

Lemma shr_record_of_loc_m m l : shr_m (shr_record_of_loc m l) = m.
Proof. destruct l as [|[ | | ]]; reflexivity. Qed.

Lemma round_nearest_even_nonneg m l : 0 <= m -> 0 <= round_nearest_even m l.
Proof.
  intros H. destruct l as [|[ | | ]]; cbn [round_nearest_even]; try lia.
  destruct (Z.even m); lia.
Qed.

Lemma binary_round_aux_notnan s m e l : 0 <= m ->
  SFisnan (binary_round_aux prec emax s m e l) = false.
Proof.
  intros H. unfold binary_round_aux, shr_fexp.
  destruct (shr (shr_record_of_loc m l) e _) as [mrs' e'] eqn:E1.
  assert (H1 : 0 <= shr_m mrs').
  { change mrs' with (fst (mrs', e')). rewrite <- E1. apply shr_nonneg.
    now rewrite shr_record_of_loc_m. }
  set (m2 := round_nearest_even (shr_m mrs') (loc_of_shr_record mrs')).
  assert (H2 : 0 <= m2) by now apply round_nearest_even_nonneg.
  destruct (shr (shr_record_of_loc m2 loc_Exact) e' _) as [mrs'' e''] eqn:E2.
  assert (H3 : 0 <= shr_m mrs'').
  { change mrs'' with (fst (mrs'', e'')). rewrite <- E2. apply shr_nonneg.
    now rewrite shr_record_of_loc_m. }
  destruct (shr_m mrs''); try lia; try reflexivity.
  now destruct (_ <=? _).
Qed.

Lemma SFdiv_notnan x y :
  SFfin x = true -> SFfin y = true -> (~ SF2Q y == 0)%Q ->
  SFisnan (SF64div x y) = false.
Proof.
  intros Fx Fy Ny.
  destruct x as [sx|sx| |sx mx ex]; try discriminate;
  destruct y as [sy|sy| |sy my ey]; try discriminate; try reflexivity.
  - exfalso. apply Ny. reflexivity.
  - unfold SF64div, SFdiv.
    destruct (SFdiv_core_binary prec emax (Zpos mx) ex (Zpos my) ey) as [[mz ez] lz] eqn:E.
    apply binary_round_aux_notnan.
    unfold SFdiv_core_binary in E.
    set (m' := match _ with Z0 => Zpos mx | Zpos _ => _ | Zneg _ => 0 end) in E.
    assert (Hm' : 0 <= m').
    { subst m'. destruct (_ - _ - _); try lia. apply Z.shiftl_nonneg. lia. }
    assert (Hq : fst (Z.div_eucl m' (Zpos my)) = m' / Zpos my) by reflexivity.
    destruct (Z.div_eucl m' (Zpos my)) as [q r]. injection E as <- _ _.
    cbn [fst] in Hq. rewrite Hq. apply Z.div_pos; lia.
Qed.

(** [x / x] is one. *)
Lemma SFdiv_self s m e :
  SF64div (S754_finite s m e) (S754_finite s m e) = S754_finite false 4503599627370496 (-52).
Proof.
  unfold SF64div, SFdiv, SFdiv_core_binary.
  rewrite !Z.sub_diag. change (fexp prec emax 0) with (-53).
  change (Z.min (-53) 0) with (-53). change (0 - -53) with 53.
  assert (E : Z.div_eucl (Z.shiftl (Zpos m) 53) (Zpos m) = (2 ^ 53, 0)).
  { rewrite Z.shiftl_mul_pow2, Z.mul_comm by lia.
    assert (Hq : fst (Z.div_eucl (2 ^ 53 * Zpos m) (Zpos m)) = 2 ^ 53 * Zpos m / Zpos m) by reflexivity.
    assert (Hr : snd (Z.div_eucl (2 ^ 53 * Zpos m) (Zpos m)) = (2 ^ 53 * Zpos m) mod Zpos m) by reflexivity.
    rewrite Z.div_mul in Hq by lia. rewrite Z.mod_mul in Hr by lia.
    destruct (Z.div_eucl (2 ^ 53 * Zpos m) (Zpos m)) as [q r]. cbn [fst snd] in *. congruence. }
  cbv beta iota.
  change (IntDef.Z.div_eucl (IntDef.Z.shiftl (Zpos m) 53) (Zpos m))
    with (Z.div_eucl (Z.shiftl (Zpos m) 53) (Zpos m)).
  rewrite E. rewrite xorb_nilpotent.
  assert (L : new_location (Zpos m) 0 = loc_Exact).
  { unfold new_location, new_location_even, new_location_odd. now destruct (Z.even (Zpos m)). }
  rewrite L. vm_compute. reflexivity.
Qed.

Local Open Scope float_scope.

Lemma div_self x s m e : Prim2SF x = S754_finite s m e -> x / x = 1.
Proof.
  intros H. apply Prim2SF_inj. rewrite div_spec, H, SFdiv_self. reflexivity.
Qed.

Lemma zero_div x m e : Prim2SF x = S754_finite false m e -> 0 / x = 0.
Proof.
  intros H. apply Prim2SF_inj. rewrite div_spec, H. reflexivity.
Qed.

Lemma div_notnan x y : finite x = true -> finite y = true -> (~ val y == 0)%Q ->
  notnan (x / y) = true.
Proof.
  intros Fx Fy Ny. unfold notnan. rewrite div_spec, SFdiv_notnan; trivial.
Qed.

(** ** Conversion from int *)

Lemma double_of_int_pos z : (0 < z < 2 ^ 53)%Z ->
  exists m e, Prim2SF (double_of_int z) = S754_finite false m e
              /\ (Qv (Zpos m) e == inject_Z z)%Q.
Proof.
  intros Hz. unfold double_of_int.
  destruct (Z.ltb_spec z 0) as [L|L]; [lia|].
  rewrite of_uint63_spec, Uint63.of_Z_spec.
  rewrite Z.mod_small by (change Uint63.wB with (2 ^ 63)%Z; split; [lia|];
    apply Z.lt_trans with (2 ^ 53)%Z; [lia|reflexivity]).
  destruct z as [|p|p]; try lia. cbn [binary_normalize].
  rewrite binary_round_spec.
  set (e1 := fexp64 (Zpos (digits2_pos p) + 0)).
  assert (D : (Zpos (digits2_pos p) <= 53)%Z) by (apply digits2_le_of_lt; lia).
  assert (He1 : (-1074 <= e1 <= 0)%Z) by (subst e1; rewrite fexp64_eq; lia).
  unfold round_to. destruct (Z.leb_spec e1 0) as [_|]; [|lia].
  pose proof (round_to_range p 0 e1 eq_refl) as Rg. unfold round_to in Rg.
  destruct (Z.leb_spec e1 0) as [_|]; [|lia].
  assert (P : (0 < Zpos p * 2 ^ (0 - e1))%Z).
  { assert (0 < 2 ^ (0 - e1))%Z by (apply Z.pow_pos_nonneg; lia). nia. }
  assert (F : SFfin (SFpack false (Zpos p * 2 ^ (0 - e1)) e1) = true)
    by (apply SFpack_fin; lia).
  pose proof (SFpack_val _ _ Rg F) as V.
  destruct (SFpack false (Zpos p * 2 ^ (0 - e1)) e1) as [s0|s0| |s0 m0 e0] eqn:E; try discriminate.
  - exfalso. unfold SFpack in E. destruct (Zpos p * 2 ^ (0 - e1))%Z; try lia; try discriminate.
    destruct (_ <? _)%Z; destruct (_ <=? _)%Z; discriminate.
  - assert (s0 = false).
    { unfold SFpack in E. destruct (Zpos p * 2 ^ (0 - e1))%Z; try discriminate.
      destruct (_ <? _)%Z; destruct (_ <=? _)%Z; congruence. }
    subst s0. exists m0, e0. split; [reflexivity|].
    cbn [SF2Q cond_Zopp] in V. rewrite V, Qv_shift by lia.
    replace (e1 + (0 - e1))%Z with 0%Z by lia. unfold Qv. change (2 ^ 0)%Q with 1%Q. ring.
Qed.

(** ** Numbers next to one *)

Lemma above_one_spacing w : finite w = true -> (1 < val w)%Q ->
  (1 + (1 # 4503599627370496) <= val w)%Q.
Proof.
  unfold finite, val. pose proof (Prim2SF_valid w) as V.
  destruct (Prim2SF w) as [s|s| |s m e]; try discriminate; intros _ H.
  destruct (valid_finite_bounds _ _ _ V) as (Be & Bm & _).
  { cbn [SF2Q] in *. destruct s; cbn [cond_Zopp] in *.
    + exfalso. pose proof (Qv_pos_gt0 m e). rewrite <- Qv_opp in H. lra.
    + assert (E1 : (1 == Qv (2 ^ 52) (-52))%Q) by (vm_compute; reflexivity).
      assert (E2 : (1 + (1 # 4503599627370496) == Qv (2 ^ 52 + 1) (-52))%Q) by (vm_compute; reflexivity).
      rewrite E2. rewrite E1 in H.
      destruct (Z_le_gt_dec (-52) e) as [L|G].
      * assert (Em : (Qv (Zpos m) e == Qv (Zpos m * 2 ^ (e + 52)) (-52))%Q).
        { rewrite Qv_shift by lia. replace (-52 + (e + 52))%Z with e by lia. reflexivity. }
        rewrite Em in *. apply Qv_lt in H. apply Qv_le. lia.
      * exfalso.
        assert (X : (Qv (Zpos m) e < Qv (2 ^ 53) e)%Q) by (apply Qv_lt; lia).
        rewrite Qv_pow2 in X by lia. rewrite Qv_pow2 in H by lia.
        pose proof (pow2_le (53 + e) (52 + -52) ltac:(lia)). lra. }
Qed.

(** ** Comparisons that involve infinities *)

Lemma between_finite l x h :
  finite l = true -> finite h = true ->
  (l <=? x) = true -> (x <=? h) = true -> finite x = true.
Proof.
  unfold finite. rewrite !FloatAxioms.leb_spec. unfold SFleb.
  destruct (Prim2SF x) as [s|s| |s m e]; try reflexivity.
  - destruct (Prim2SF l) as [s1|s1| |s1 m1 e1]; try discriminate;
    destruct (Prim2SF h) as [s2|s2| |s2 m2 e2]; try discriminate;
    destruct s; cbn; try discriminate; intros; try discriminate.
  - destruct (Prim2SF l) as [s1|s1| |s1 m1 e1]; cbn; discriminate.
Qed.

Lemma ltb_leb x y : (x <? y) = true -> (x <=? y) = true.
Proof.
  rewrite FloatAxioms.ltb_spec, FloatAxioms.leb_spec. unfold SFltb, SFleb.
  now destruct (SFcompare _ _) as [[ | | ]|].
Qed.

Lemma ltb_not_eqb x y : (x <? y) = true -> (x =? y) = false.
Proof.
  rewrite FloatAxioms.ltb_spec, FloatAxioms.eqb_spec. unfold SFltb, SFeqb.
  now destruct (SFcompare _ _) as [[ | | ]|].
Qed.

(** The test of lines 199: both differences at least [t] put [u] strictly
    inside the bracket. *)
Lemma sub_ltb_le x y t :
  finite x = true -> finite y = true -> finite t = true ->
  (val x <= val y)%Q -> (0 < val t)%Q -> (x - y <? t) = true.
Proof.
  intros Fx Fy Ft Hxy Ht.
  pose proof (sub_Rounds x y Fx Fy) as R.
  destruct (finite (x - y)) eqn:Fr.
  - apply ltb_val; trivial.
    assert (val (x - y) <= val 0)%Q by (apply (Rounds_le _ _ _ R); trivial; rewrite val_0; lra).
    rewrite val_0 in *. lra.
  - pose proof (Rounds_notnan _ _ R) as Nn.
    unfold finite, notnan in *. rewrite FloatAxioms.ltb_spec.
    pose proof (SFsub_overflow_sign (Prim2SF x) (Prim2SF y)) as S.
    rewrite <- sub_spec in S.
    destruct (Prim2SF (x - y)) as [s|s| |s m e]; try discriminate.
    specialize (S s (Prim2SF_valid x) (Prim2SF_valid y) Fx Fy eq_refl).
    destruct s.
    + unfold SFltb. destruct (Prim2SF t); try discriminate; reflexivity.
    + exfalso. unfold val in Hxy. lra.
Qed.

Lemma bracket_guard u a b t :
  notnan u = true -> finite a = true -> finite b = true -> finite t = true ->
  (0 < val t)%Q ->
  (u - a <? t) = false -> (b - u <? t) = false ->
  finite u = true /\ (val a < val u)%Q /\ (val u < val b)%Q.
Proof.
  intros Nu Fa Fb Ft Ht H1 H2.
  assert (Fu : finite u = true).
  { unfold finite, notnan in *.
    rewrite FloatAxioms.ltb_spec, sub_spec in H1, H2.
    destruct (Prim2SF u) as [s|s| |s m e]; try reflexivity; try discriminate.
    destruct s.
    - destruct (Prim2SF a); try discriminate; destruct (Prim2SF t); discriminate.
    - destruct (Prim2SF b); try discriminate; destruct (Prim2SF t); discriminate. }
  split; [trivial|split].
  - apply Qnot_le_lt. intros C. rewrite sub_ltb_le in H1; trivial; discriminate.
  - apply Qnot_le_lt. intros C. rewrite sub_ltb_le in H2; trivial; discriminate.
Qed.

Lemma add_notnan x d : finite x = true -> notnan d = true -> notnan (x + d) = true.
Proof.
  intros Fx Nd. destruct (finite d) eqn:Fd.
  - apply (Rounds_notnan _ _ (add_Rounds x d Fx Fd)).
  - unfold finite, notnan in *. rewrite add_spec.
    destruct (Prim2SF d) as [s|s| |s m e]; try discriminate.
    destruct (Prim2SF x); try discriminate; reflexivity.
Qed.

Lemma add_finite_r x d : finite x = true -> finite (x + d) = true -> finite d = true.
Proof.
  unfold finite. rewrite add_spec.
  destruct (Prim2SF d) as [s|s| |s m e]; try reflexivity;
  destruct (Prim2SF x); try discriminate.
Qed.

Lemma eqb_m1 x : (x =? -1) = true -> x = (-1)%float.
Proof.
  rewrite FloatAxioms.eqb_spec. intros H. apply Prim2SF_inj.
  change (Prim2SF (-1)) with (S754_finite true 4503599627370496 (-52)) in *.
  unfold SFeqb, SFcompare in H.
  destruct (Prim2SF x) as [s|s| |s m e]; try discriminate.
  - destruct s; discriminate.
  - destruct s; try discriminate.
    destruct (Z.compare_spec e (-52)); try discriminate. subst e.
    rewrite Pos.compare_cont_spec in H. cbn [Pos.switch_Eq CompOpp] in H.
    destruct (Pos.compare_spec m 4503599627370496); try discriminate. now subst m.
Qed.

End Division.

(** * The routines *)

(** ** The searches and [interval] *)

Section Searches.
Local Open Scope float_scope.
Local Open Scope Q_scope.

Lemma midpoint_between' a b :
  finite a = true -> finite b = true ->
  0 <= val a -> val a <= val b -> val b <= 1 ->
  finite (0.5 * (b + a)) = true /\ val a <= val (0.5 * (b + a)) <= val b.
Proof.
  intros Fa Fb A0 AB B1.
  pose proof (add_Rounds b a Fb Fa) as Rs.
  destruct (Rounds_small _ _ Rs) as [Fs _]; [unfold eps; split; lra|].
  destruct (Rounds_small _ _ (add_Rounds a a Fa Fa)) as [Faa _]; [split; lra|].
  destruct (Rounds_small _ _ (add_Rounds b b Fb Fb)) as [Fbb _]; [split; lra|].
  pose proof (val_add_self a Fa Faa) as Eaa.
  pose proof (val_add_self b Fb Fbb) as Ebb.
  assert (Sl : val (a + a) <= val (b + a)) by (apply (Rounds_ge _ _ _ Rs); trivial; lra).
  assert (Su : val (b + a) <= val (b + b)) by (apply (Rounds_le _ _ _ Rs); trivial; lra).
  assert (Fh : finite 0.5 = true) by reflexivity.
  pose proof (mul_Rounds 0.5 (b + a) Fh Fs) as Rt.
  pose proof val_half as Vh.
  destruct (Rounds_small _ _ Rt) as [Ft _]; [rewrite Vh; split; lra|].
  split; [trivial|split].
  - apply (Rounds_ge _ _ _ Rt); trivial. rewrite Vh. lra.
  - apply (Rounds_le _ _ _ Rt); trivial. rewrite Vh. lra.
Qed.

Section Prog.
Variable beta_ab : float -> float -> Z -> Z -> float.

Lemma search_upper_loop_within n : forall low k N c tl th test (L H : Q),
  0 <= L -> H <= 1 ->
  within L H tl -> within L H th -> val tl <= val th -> within L H test ->
  within L H (search_upper_loop beta_ab n low k N c tl th test).
Proof.
  induction n as [|n IH]; intros low k N c tl th test L H HL HH Wl Wh Hlh Wt.
  - exact Wt.
  - cbn [search_upper_loop].
    destruct Wl as [Fl Bl], Wh as [Fh Bh].
    destruct (midpoint_between tl th Fl Fh) as [Fm Bm]; try lra.
    set (t := (0.5 * (tl + th))%float) in *.
    assert (Wm : within L H t) by (split; [trivial|lra]).
    destruct (fabs _ <=? _)%float; [exact Wm|].
    destruct (gtb _ c); apply IH; trivial; try (split; [trivial|lra]); lra.
Qed.

Lemma search_lower_loop_within n : forall high k N c tl th test (L H : Q),
  0 <= L -> H <= 1 ->
  within L H tl -> within L H th -> val tl <= val th -> within L H test ->
  within L H (search_lower_loop beta_ab n high k N c tl th test).
Proof.
  induction n as [|n IH]; intros high k N c tl th test L H HL HH Wl Wh Hlh Wt.
  - exact Wt.
  - cbn [search_lower_loop].
    destruct Wl as [Fl Bl], Wh as [Fh Bh].
    destruct (midpoint_between' tl th Fl Fh) as [Fm Bm]; try lra.
    set (t := (0.5 * (th + tl))%float) in *.
    assert (Wm : within L H t) by (split; [trivial|lra]).
    destruct (fabs _ <=? _)%float; [exact Wm|].
    destruct (gtb _ c); apply IH; trivial; try (split; [trivial|lra]); lra.
Qed.

Lemma search_upper_run low k N c w :
  search_upper beta_ab low k N c w
  = (search_upper_value beta_ab low k N c, logged [CallSearchUpper low k N c] w).
Proof.
  unfold search_upper_value, search_upper, bind, enter, ret, logged.
  destruct (_ =? c)%float; [reflexivity|]. destruct (_ <? c)%float; [reflexivity|].
  cbn [fst]. reflexivity.
Qed.

Lemma search_lower_run high k N c w :
  search_lower beta_ab high k N c w
  = (search_lower_value beta_ab high k N c, logged [CallSearchLower high k N c] w).
Proof.
  unfold search_lower_value, search_lower, bind, enter, ret, logged.
  destruct (_ =? c)%float; [reflexivity|]. destruct (_ <? c)%float; [reflexivity|].
  cbn [fst]. reflexivity.
Qed.

Lemma interval_run low w :
  interval beta_ab low w
  = (interval_value beta_ab (GLOBAL_k w) (GLOBAL_N w) (CONFLEVEL w) low,
     logged [CallInterval low;
             CallSearchUpper low (GLOBAL_k w) (GLOBAL_N w) (CONFLEVEL w)] w).
Proof.
  unfold interval_value, interval, bind, enter, get_context.
  cbn [GLOBAL_k GLOBAL_N CONFLEVEL].
  rewrite !search_upper_run. cbn [logged GLOBAL_k GLOBAL_N CONFLEVEL stdout calls].
  unfold logged. cbn [GLOBAL_k GLOBAL_N CONFLEVEL stdout calls].
  rewrite <- app_assoc. cbn [app].
  destruct (_ =? _)%float; reflexivity.
Qed.

Lemma interval_value_eq gk gN conf low :
  interval_value beta_ab gk gN conf low
  = (let high := search_upper_value beta_ab low gk gN conf in
     if high =? -1 then 2 else high - low)%float.
Proof.
  unfold interval_value, interval, bind, enter, get_context.
  cbn [GLOBAL_k GLOBAL_N CONFLEVEL]. rewrite search_upper_run.
  cbv zeta. destruct (_ =? _); reflexivity.
Qed.

Lemma search_upper_value_eq low k N c :
  search_upper_value beta_ab low k N c
  = (let integral := beta_ab low 1 k N in
     if integral =? c then 1
     else if integral <? c then -1
     else search_upper_loop beta_ab 50 low k N c low 1 1)%float.
Proof.
  unfold search_upper_value, search_upper, bind, enter, ret. cbv zeta.
  destruct (_ =? c)%float; [reflexivity|]. destruct (_ <? c)%float; [reflexivity|].
  cbn [fst]. reflexivity.
Qed.

Lemma search_lower_value_eq high k N c :
  search_lower_value beta_ab high k N c
  = (let integral := beta_ab 0 high k N in
     if integral =? c then 0
     else if integral <? c then -1
     else search_lower_loop beta_ab 50 high k N c 0 high 0)%float.
Proof.
  unfold search_lower_value, search_lower, bind, enter, ret. cbv zeta.
  destruct (_ =? c)%float; [reflexivity|]. destruct (_ <? c)%float; [reflexivity|].
  cbn [fst]. reflexivity.
Qed.

Lemma within_1 L : L <= 1 -> within L 1 1%float.
Proof. intros. split; [reflexivity|]. rewrite val_1. lra. Qed.

Lemma within_0 H : 0 <= H -> within 0 H 0%float.
Proof. intros. split; [reflexivity|]. rewrite val_0. lra. Qed.

(** The upper edge is the sentinel or lies between the anchor and one. *)
Lemma search_upper_value_cases low k N c :
  within 0 1 low ->
  search_upper_value beta_ab low k N c = (-1)%float \/
  within (val low) 1 (search_upper_value beta_ab low k N c).
Proof.
  intros [Fl Bl]. rewrite search_upper_value_eq. cbv zeta.
  destruct (_ =? c)%float; [right; apply within_1; lra|].
  destruct (_ <? c)%float; [left; reflexivity|]. right.
  apply search_upper_loop_within; try lra.
  - split; [trivial|lra].
  - apply within_1; lra.
  - rewrite val_1. lra.
  - apply within_1; lra.
Qed.

Lemma search_lower_value_cases high k N c :
  within 0 1 high ->
  search_lower_value beta_ab high k N c = (-1)%float \/
  within 0 (val high) (search_lower_value beta_ab high k N c).
Proof.
  intros [Fh Bh]. rewrite search_lower_value_eq. cbv zeta.
  destruct (_ =? c)%float; [right; apply within_0; lra|].
  destruct (_ <? c)%float; [left; reflexivity|]. right.
  apply search_lower_loop_within; try lra.
  - apply within_0; lra.
  - split; [trivial|lra].
  - rewrite val_0. lra.
  - apply within_0; lra.
Qed.

Lemma eqb_m1_false x : finite x = true -> 0 <= val x -> (x =? -1)%float = false.
Proof.
  intros Fx Hx. apply not_true_iff_false. intros E.
  apply eqb_val in E; trivial. rewrite val_m1 in E. lra.
Qed.

(** The objective is bounded on [[0,1]]. *)
Lemma interval_value_bounded gk gN conf low :
  within 0 1 low -> within (-1) 2 (interval_value beta_ab gk gN conf low).
Proof.
  intros Wl. rewrite interval_value_eq. cbv zeta.
  destruct (search_upper_value_cases low gk gN conf Wl) as [E|[Fh Bh]].
  - rewrite E. change (-1 =? -1)%float with true. split; [reflexivity|]. rewrite val_2. lra.
  - destruct Wl as [Fl Bl].
    rewrite eqb_m1_false by (trivial; lra).
    pose proof (sub_Rounds _ _ Fh Fl) as R.
    destruct (Rounds_small _ _ R) as [Fr Er]; [split; lra|].
    split; [trivial|]. unfold eps in Er. lra.
Qed.

(** The three ways [search_upper] ends. *)
Lemma search_upper_value_spec low k N c :
  within 0 1 low ->
  let i := beta_ab low 1 k N in
  let v := search_upper_value beta_ab low k N c in
  ((i =? c)%float = true /\ v = 1%float) \/
  ((i =? c)%float = false /\ (i <? c)%float = true /\ v = (-1)%float) \/
  ((i =? c)%float = false /\ (i <? c)%float = false /\ within (val low) 1 v).
Proof.
  intros [Fl Bl]. cbv zeta. rewrite search_upper_value_eq. cbv zeta.
  destruct (_ =? c)%float; [left; split; reflexivity|].
  destruct (_ <? c)%float; [right; left; repeat split; reflexivity|]. right. right.
  split; [reflexivity|split; [reflexivity|]].
  apply search_upper_loop_within; try lra.
  - split; [trivial|lra].
  - apply within_1; lra.
  - rewrite val_1. lra.
  - apply within_1; lra.
Qed.

Lemma search_lower_value_spec high k N c :
  within 0 1 high ->
  let i := beta_ab 0 high k N in
  let v := search_lower_value beta_ab high k N c in
  ((i =? c)%float = true /\ v = 0%float) \/
  ((i =? c)%float = false /\ (i <? c)%float = true /\ v = (-1)%float) \/
  ((i =? c)%float = false /\ (i <? c)%float = false /\ within 0 (val high) v).
Proof.
  intros [Fh Bh]. cbv zeta. rewrite search_lower_value_eq. cbv zeta.
  destruct (_ =? c)%float; [left; split; reflexivity|].
  destruct (_ <? c)%float; [right; left; repeat split; reflexivity|]. right. right.
  split; [reflexivity|split; [reflexivity|]].
  apply search_lower_loop_within; try lra.
  - apply within_0; lra.
  - split; [trivial|lra].
  - rewrite val_0. lra.
  - apply within_0; lra.
Qed.

End Prog.

End Searches.

(** ** One pass of [brent] *)

Section BrentStep.
Local Open Scope float_scope.

Lemma val_kZEPS : (val kZEPS == 7737125245533627 # 77371252455336267181195264)%Q.
Proof. vm_compute. reflexivity. Qed.

Lemma val_kCGOLD : (val kCGOLD == 1720221935268199 # 4503599627370496)%Q.
Proof. vm_compute. reflexivity. Qed.

Lemma within_weaken L H L' H' x :
  (L' <= L)%Q -> (H <= H')%Q -> within L H x -> within L' H' x.
Proof. intros ? ? [F B]. split; [trivial|lra]. Qed.

Lemma mul_Rounds_c c q y :
  finite c = true -> (val c == q)%Q -> finite y = true ->
  Rounds (q * val y) (Prim2SF (c * y)).
Proof.
  intros Fc E Fy. apply Rounds_ext with (val c * val y)%Q; [now rewrite E|].
  now apply mul_Rounds.
Qed.

Lemma finite_fabs x : finite (fabs x) = finite x.
Proof. apply finite_abs. Qed.

Lemma val_fabs_pos x : (0 <= val x)%Q -> (val (fabs x) == val x)%Q.
Proof. intros. unfold fabs. rewrite val_abs. now apply Qabs_pos. Qed.

Lemma Rounds_within V z (c : float) :
  Rounds V (Prim2SF z) -> finite c = true -> (val c < 1024)%Q ->
  (- val c <= V <= val c)%Q -> within (- val c) (val c) z.
Proof.
  intros R Fc Hc HV.
  assert (Fz : finite z = true) by (apply (Rounds_medium _ _ R); split; lra).
  split; [trivial|split].
  - rewrite <- val_opp. apply (Rounds_ge _ _ _ R); trivial.
    + now rewrite finite_opp.
    + rewrite val_opp. lra.
  - apply (Rounds_le _ _ _ R); trivial. lra.
Qed.

Lemma val_4 : (val 4 == 4)%Q. Proof. vm_compute. reflexivity. Qed.
Lemma val_8 : (val 8 == 8)%Q. Proof. vm_compute. reflexivity. Qed.
Lemma val_16 : (val 16 == 16)%Q. Proof. vm_compute. reflexivity. Qed.

Lemma sub_within (B1 B2 : Q) (c : float) (C : Q) x y :
  within (- B1) B1 x -> within (- B2) B2 y ->
  finite c = true -> (val c == C)%Q -> (C < 1024)%Q -> (B1 + B2 <= C)%Q ->
  within (- C) C (x - y).
Proof.
  intros [Fx Bx] [Fy By] Fc Vc Hc Hb.
  apply (within_weaken (- val c) (val c)); try lra.
  apply (Rounds_within _ _ c (sub_Rounds x y Fx Fy)); trivial; lra.
Qed.

Lemma mul_within (B1 B2 : Q) (c : float) (C : Q) x y :
  within (- B1) B1 x -> within (- B2) B2 y ->
  finite c = true -> (val c == C)%Q -> (C < 1024)%Q -> (B1 * B2 <= C)%Q ->
  within (- C) C (x * y).
Proof.
  intros [Fx Bx] [Fy By] Fc Vc Hc Hb.
  apply (within_weaken (- val c) (val c)); try lra.
  apply (Rounds_within _ _ c (mul_Rounds x y Fx Fy)); trivial; try lra.
  rewrite Vc. nra.
Qed.

Lemma within_01_sym L H x : (0 <= L)%Q -> (H <= 1)%Q -> within L H x -> within (- (1)) 1 x.
Proof. intros ? ? [F B]. split; [trivial|lra]. Qed.

Section Step.
Local Open Scope Q_scope.
Variables (tol : float) (s : brent_state) (L H : Q).
Hypothesis tol_fin : finite tol = true.
Hypothesis tol_range : 0 <= val tol <= 1.
Hypothesis L_nonneg : 0 <= L.
Hypothesis H_le1 : H <= 1.
Hypothesis Inv : brent_inv L H s.

Local Abbreviation a := (br_a s).
Local Abbreviation b := (br_b s).
Local Abbreviation x := (br_x s).
Local Abbreviation xm := (0.5 * (br_a s + br_b s))%float.
Local Abbreviation tol1 := (tol * fabs (br_x s) + kZEPS)%float.
Local Abbreviation tol2 := (2 * (tol * fabs (br_x s) + kZEPS))%float.

Lemma step_tol1 : finite tol1 = true /\ (1 # 20000000000) <= val tol1 <= 2.
Proof.
  destruct Inv as (_ & _ & [Fx Bx] & _).
  assert (Fax : finite (fabs x) = true) by (rewrite finite_fabs; exact Fx).
  pose proof (val_abs_cases x) as [A0 A1]. fold (fabs x) in A0, A1.
  assert (A2 : val (fabs x) <= 1) by (destruct A1 as [E|E]; rewrite E; lra).
  pose proof (mul_Rounds tol (fabs x) tol_fin Fax) as Rm.
  assert (P0 : 0 <= val tol * val (fabs x)) by (apply Qmult_le_0_compat; lra).
  assert (P1 : val tol * val (fabs x) <= 1).
  { apply Qle_trans with (1 * val (fabs x)); [|lra].
    apply Qmult_le_compat_r; lra. }
  destruct (Rounds_small _ _ Rm) as [Fm Em]; [split; lra|].
  assert (M0 : val 0 <= val (tol * fabs x)%float)
    by (apply (Rounds_ge _ _ _ Rm); trivial; rewrite val_0; lra).
  assert (M1 : val (tol * fabs x)%float <= val 1)
    by (apply (Rounds_le _ _ _ Rm); trivial; rewrite val_1; lra).
  rewrite val_0 in M0. rewrite val_1 in M1.
  assert (Fz : finite kZEPS = true) by reflexivity.
  pose proof val_kZEPS as Vz.
  pose proof (add_Rounds (tol * fabs x) kZEPS Fm Fz) as Ra.
  destruct (Rounds_small _ _ Ra) as [Fa Ea]; [rewrite Vz; split; lra|].
  split; [trivial|]. unfold eps in Ea. rewrite Vz in Ea. lra.
Qed.

Lemma step_tol2 :
  finite tol2 = true /\ 2 * val tol1 - eps <= val tol2 <= 2 * val tol1 + eps.
Proof.
  destruct step_tol1 as [F1 B1].
  pose proof (mul_Rounds_c 2 2 tol1 eq_refl val_2 F1) as R.
  destruct (Rounds_small _ _ R) as [F E]; [split; lra|]. tauto.
Qed.

Lemma step_xm :
  finite xm = true /\ val a <= val xm <= val b /\
  (1 # 2) * (val a + val b) - 2 * eps <= val xm <= (1 # 2) * (val a + val b) + 2 * eps.
Proof.
  destruct Inv as ([Fa Ba] & [Fb Bb] & _ & Hax & _).
  destruct (midpoint_between a b Fa Fb) as [Fm Bm]; try lra.
  split; [trivial|split; [trivial|]].
  pose proof (add_Rounds a b Fa Fb) as Rs.
  destruct (Rounds_small _ _ Rs) as [Fs Es]; [split; lra|].
  pose proof (mul_Rounds_c 0.5 (1 # 2) (a + b) eq_refl val_half Fs) as Rt.
  destruct (Rounds_small _ _ Rt) as [_ Et]; [unfold eps in Es; split; lra|].
  unfold eps in *. lra.
Qed.

Hypothesis not_converged : brent_converged tol s = false.

Lemma step_wide :
  val tol2 - 6 * eps < val x - val a \/ val tol2 - 6 * eps < val b - val x.
Proof.
  destruct Inv as ([Fa Ba] & [Fb Bb] & [Fx Bx] & Hax & _).
  destruct step_xm as (Fm & Bm & Em).
  destruct step_tol2 as [F2 E2]. destruct step_tol1 as [F1 B1].
  unfold brent_converged in not_converged. cbv zeta in not_converged.
  pose proof (sub_Rounds x xm Fx Fm) as Rd.
  destruct (Rounds_small _ _ Rd) as [Fd Ed]; [split; lra|].
  pose proof (val_abs_cases (x - xm)) as [Ab0 Ab1].
  assert (Fad : finite (fabs (x - xm)) = true) by (rewrite finite_fabs; exact Fd).
  pose proof (sub_Rounds b a Fb Fa) as Rba.
  destruct (Rounds_small _ _ Rba) as [Fba Eba]; [split; lra|].
  pose proof (mul_Rounds_c 0.5 (1 # 2) (b - a) eq_refl val_half Fba) as Rh.
  destruct (Rounds_small _ _ Rh) as [Fhb Ehb]; [unfold eps in Eba; split; lra|].
  pose proof (sub_Rounds tol2 (0.5 * (b - a)) F2 Fhb) as Rr.
  destruct (Rounds_small _ _ Rr) as [Fr Er]; [unfold eps in *; split; lra|].
  apply leb_false_val in not_converged; trivial.
  fold (fabs (x - xm)) in Ab0, Ab1.
  unfold eps in *.
  destruct Ab1 as [E|E]; rewrite E in not_converged; [left|right]; lra.
Qed.

(** The last assignment to [u] (line 204) keeps it in the bracket when
    there is room on the side the step points to. *)
Lemma step_final_u d' :
  finite d' = true ->
  (geb d' 0 = true -> val x + val d' <= val b /\ val x + val tol1 <= val b) ->
  (geb d' 0 = false -> val a <= val x + val d' /\ val a <= val x - val tol1) ->
  within (val a) (val b)
    (if geb (fabs d') tol1 then x + d' else x + MYSIGN tol1 d')%float.
Proof.
  intros Fd Hp Hn.
  destruct Inv as ([Fa Ba] & [Fb Bb] & [Fx Bx] & Hax & _).
  destruct step_tol1 as [F1 B1].
  assert (F0 : finite 0 = true) by reflexivity.
  assert (S : (geb d' 0 = true /\ 0 <= val d') \/ (geb d' 0 = false /\ val d' < 0)).
  { unfold geb. destruct (0 <=? d')%float eqn:E.
    - left. split; [trivial|]. apply leb_val in E; [|exact F0|exact Fd]. now rewrite val_0 in E.
    - right. split; [trivial|]. apply leb_false_val in E; [|exact F0|exact Fd]. now rewrite val_0 in E. }
  assert (Ft : finite (fabs tol1) = true) by (rewrite finite_fabs; exact F1).
  assert (Vt : val (fabs tol1) == val tol1) by (apply val_fabs_pos; lra).
  destruct (geb (fabs d') tol1).
  - pose proof (add_Rounds x d' Fx Fd) as R.
    destruct S as [[Sg S0]|[Sg S0]].
    + destruct (Hp Sg) as [P1 P2].
      destruct (Rounds_small _ _ R) as [Fu _]; [split; lra|].
      split; [trivial|split].
      * apply (Rounds_ge _ _ _ R); trivial. lra.
      * apply (Rounds_le _ _ _ R); trivial.
    + destruct (Hn Sg) as [P1 P2].
      destruct (Rounds_small _ _ R) as [Fu _]; [split; lra|].
      split; [trivial|split].
      * apply (Rounds_ge _ _ _ R); trivial.
      * apply (Rounds_le _ _ _ R); trivial. lra.
  - unfold MYSIGN. destruct S as [[Sg S0]|[Sg S0]]; rewrite Sg.
    + destruct (Hp Sg) as [P1 P2].
      pose proof (add_Rounds x (fabs tol1) Fx Ft) as R.
      destruct (Rounds_small _ _ R) as [Fu _]; [rewrite Vt; split; lra|].
      split; [trivial|split].
      * apply (Rounds_ge _ _ _ R); trivial. rewrite Vt. lra.
      * apply (Rounds_le _ _ _ R); trivial. rewrite Vt. lra.
    + destruct (Hn Sg) as [P1 P2].
      assert (Fn : finite (- fabs tol1) = true) by now rewrite finite_opp.
      pose proof (add_Rounds x (- fabs tol1) Fx Fn) as R.
      assert (Vn : val (- fabs tol1) == - val tol1) by now rewrite val_opp, Vt.
      destruct (Rounds_small _ _ R) as [Fu _]; [rewrite Vn; split; lra|].
      split; [trivial|split].
      * apply (Rounds_ge _ _ _ R); trivial. rewrite Vn. lra.
      * apply (Rounds_le _ _ _ R); trivial. rewrite Vn. lra.
Qed.

(** The golden-section step (lines 195 and 202). *)
Lemma step_golden :
  let e' := (if geb x xm then a - x else b - x)%float in
  let d' := (kCGOLD * e')%float in
  within (-2) 2 d' /\ within (-2) 2 e' /\
  within (val a) (val b)
    (if geb (fabs d') tol1 then x + d' else x + MYSIGN tol1 d')%float.
Proof.
  cbv zeta.
  destruct Inv as ([Fa Ba] & [Fb Bb] & [Fx Bx] & Hax & _).
  destruct step_xm as (Fm & Bm & Em).
  destruct step_tol2 as [F2 E2]. destruct step_tol1 as [F1 B1].
  pose proof step_wide as W.
  assert (F0 : finite 0 = true) by reflexivity.
  assert (Fc : finite kCGOLD = true) by reflexivity.
  unfold eps in *.
  destruct (geb x xm) eqn:Side; unfold geb in Side.
  - (* towards a *)
    apply leb_val in Side; trivial.
    pose proof (sub_Rounds a x Fa Fx) as Re.
    destruct (Rounds_small _ _ Re) as [Fe Ee]; [split; lra|]. unfold eps in Ee.
    pose proof (mul_Rounds_c kCGOLD _ (a - x) Fc val_kCGOLD Fe) as Rd.
    destruct (Rounds_small _ _ Rd) as [Fd Ed]; [split; lra|]. unfold eps in Ed.
    split; [split; [trivial|lra]|]. split; [split; [trivial|lra]|].
    assert (Dneg : val (kCGOLD * (a - x))%float < 0) by lra.
    apply step_final_u; trivial.
    + intros G. exfalso. unfold geb in G. apply leb_val in G; trivial.
      rewrite val_0 in G. lra.
    + intros _. split; lra.
  - (* towards b *)
    apply leb_false_val in Side; trivial.
    pose proof (sub_Rounds b x Fb Fx) as Re.
    destruct (Rounds_small _ _ Re) as [Fe Ee]; [split; lra|]. unfold eps in Ee.
    pose proof (mul_Rounds_c kCGOLD _ (b - x) Fc val_kCGOLD Fe) as Rd.
    destruct (Rounds_small _ _ Rd) as [Fd Ed]; [split; lra|]. unfold eps in Ed.
    split; [split; [trivial|lra]|]. split; [split; [trivial|lra]|].
    assert (Dpos : 0 < val (kCGOLD * (b - x))%float) by lra.
    apply step_final_u; trivial.
    + intros _. split; lra.
    + intros G. exfalso. unfold geb in G. apply leb_false_val in G; trivial.
      rewrite val_0 in G. lra.
Qed.

(** The minimum step towards the middle (line 199). *)
Lemma step_replaced :
  let d' := MYSIGN tol1 (xm - x) in
  within (-2) 2 d' /\
  within (val a) (val b)
    (if geb (fabs d') tol1 then x + d' else x + MYSIGN tol1 d')%float.
Proof.
  cbv zeta.
  destruct Inv as ([Fa Ba] & [Fb Bb] & [Fx Bx] & Hax & _).
  destruct step_xm as (Fm & Bm & Em).
  destruct step_tol2 as [F2 E2]. destruct step_tol1 as [F1 B1].
  pose proof step_wide as W.
  assert (F0 : finite 0 = true) by reflexivity.
  assert (Ft : finite (fabs tol1) = true) by (rewrite finite_fabs; exact F1).
  assert (Vt : val (fabs tol1) == val tol1) by (apply val_fabs_pos; lra).
  pose proof (sub_Rounds xm x Fm Fx) as Rs.
  destruct (Rounds_small _ _ Rs) as [Fs Es]; [split; lra|].
  unfold eps in *.
  assert (EM : MYSIGN tol1 (xm - x) = if geb (xm - x) 0 then fabs tol1 else (- fabs tol1)%float)
    by reflexivity.
  rewrite EM. clear EM.
  destruct (geb (xm - x) 0) eqn:Side; unfold geb in Side.
  - apply leb_val in Side; trivial. rewrite val_0 in Side.
    split; [split; [trivial|rewrite Vt; lra]|].
    apply step_final_u; trivial.
    + intros _. rewrite Vt. split; lra.
    + intros G. exfalso. unfold geb in G. apply leb_false_val in G; trivial.
      rewrite val_0, Vt in G. lra.
  - apply leb_false_val in Side; trivial. rewrite val_0 in Side.
    assert (Fn : finite (- fabs tol1) = true) by now rewrite finite_opp.
    assert (Vn : val (- fabs tol1) == - val tol1) by now rewrite val_opp, Vt.
    split; [split; [trivial|rewrite Vn; lra]|].
    apply step_final_u; trivial.
    + intros G. exfalso. unfold geb in G. apply leb_val in G; trivial.
      rewrite val_0, Vn in G. lra.
    + intros _. rewrite Vn. split; lra.
Qed.

(** The parabolic step that passed the test of line 199. *)
Lemma step_kept d0 :
  notnan d0 = true ->
  ((x + d0 - a <? tol2) || (b - (x + d0) <? tol2))%float = false ->
  within (-2) 2 d0 /\
  within (val a) (val b)
    (if geb (fabs d0) tol1 then x + d0 else x + MYSIGN tol1 d0)%float.
Proof.
  intros Nd G. apply orb_false_iff in G as [G1 G2].
  destruct Inv as ([Fa Ba] & [Fb Bb] & [Fx Bx] & Hax & _).
  destruct step_tol2 as [F2 E2]. destruct step_tol1 as [F1 B1].
  assert (T2pos : 0 < val tol2) by (unfold eps in E2; lra).
  pose proof (add_notnan x d0 Fx Nd) as Nu.
  destruct (bracket_guard _ _ _ _ Nu Fa Fb F2 T2pos G1 G2) as (Fu & Ua & Ub).
  pose proof (add_finite_r x d0 Fx Fu) as Fd.
  pose proof (add_Rounds x d0 Fx Fd) as R.
  assert (F2' : finite 2 = true) by reflexivity.
  assert (Fm1 : finite (-1) = true) by reflexivity.
  assert (D2 : val d0 < 2).
  { apply Qnot_le_lt. intros C.
    assert (val 2 <= val (x + d0)%float) by (apply (Rounds_ge _ _ _ R); trivial; rewrite val_2; lra).
    rewrite val_2 in *. lra. }
  assert (D2' : -2 < val d0).
  { apply Qnot_le_lt. intros C.
    assert (val (x + d0)%float <= val (-1)) by (apply (Rounds_le _ _ _ R); trivial; rewrite val_m1; lra).
    rewrite val_m1 in *. lra. }
  destruct (Rounds_small _ _ R) as [_ Eu]; [split; lra|].
  pose proof (sub_Rounds (x + d0) a Fu Fa) as R1.
  destruct (Rounds_small _ _ R1) as [Fr1 E1]; [split; lra|].
  pose proof (sub_Rounds b (x + d0) Fb Fu) as R2.
  destruct (Rounds_small _ _ R2) as [Fr2 E2']; [split; lra|].
  apply ltb_false_val in G1; trivial. apply ltb_false_val in G2; trivial.
  unfold eps in *.
  split; [split; [trivial|lra]|].
  apply step_final_u; trivial.
  - intros S. unfold geb in S. apply leb_val in S; [|reflexivity|exact Fd].
    rewrite val_0 in S. split; lra.
  - intros S. unfold geb in S. apply leb_false_val in S; [|reflexivity|exact Fd].
    rewrite val_0 in S. split; lra.
Qed.

(** The quantities of the parabolic fit (lines 187-195) are finite, and
    the candidate step [p/q] is a number whenever the first test of line
    195 fails. *)
Lemma step_parabola :
  let w := br_w s in let v := br_v s in
  let fv := br_fv s in let fw := br_fw s in let fx := br_fx s in
  let r := ((x - w) * (fx - fv))%float in
  let q := ((x - v) * (fx - fw))%float in
  let p := ((x - v) * q - (x - w) * r)%float in
  let q := (2 * (q - r))%float in
  let p := (if gtb q 0 then - p else p)%float in
  let q := fabs q in
  geb (fabs p) (fabs (0.5 * q * br_e s)) = false ->
  notnan (p / q) = true.
Proof.
  intros w v fv fw fx r q p q' p' q'' C.
  destruct Inv as (Wa & Wb & Wx & Hax & Ww & Wv & Wd & We & Wfv & Wfw & Wfx).
  assert (X1 : within (- (1)) 1 x) by (eapply within_01_sym; eauto).
  assert (W1 : within (- (1)) 1 w) by (eapply within_01_sym; eauto).
  assert (V1 : within (- (1)) 1 v) by (eapply within_01_sym; eauto).
  assert (V32 : (val 32 == 32)%Q) by (vm_compute; reflexivity).
  assert (Dxw : within (- (2)) 2 (x - w))
    by (apply (sub_within 1 1 2 2); trivial; try reflexivity; try apply val_2; lra).
  assert (Dxv : within (- (2)) 2 (x - v))
    by (apply (sub_within 1 1 2 2); trivial; try reflexivity; try apply val_2; lra).
  assert (Dfv : within (- (4)) 4 (fx - fv))
    by (apply (sub_within 2 2 4 4); trivial; try reflexivity; try apply val_4; lra).
  assert (Dfw : within (- (4)) 4 (fx - fw))
    by (apply (sub_within 2 2 4 4); trivial; try reflexivity; try apply val_4; lra).
  assert (Wr : within (- (8)) 8 r)
    by (apply (mul_within 2 4 8 8); trivial; try reflexivity; try apply val_8; lra).
  assert (Wq : within (- (8)) 8 q)
    by (apply (mul_within 2 4 8 8); trivial; try reflexivity; try apply val_8; lra).
  assert (Wvq : within (- (16)) 16 ((x - v) * q))
    by (apply (mul_within 2 8 16 16); trivial; try reflexivity; try apply val_16; lra).
  assert (Wwr : within (- (16)) 16 ((x - w) * r))
    by (apply (mul_within 2 8 16 16); trivial; try reflexivity; try apply val_16; lra).
  assert (Wp : within (- (32)) 32 p)
    by (apply (sub_within 16 16 32 32); trivial; try reflexivity; lra).
  assert (Wqr : within (- (16)) 16 (q - r))
    by (apply (sub_within 8 8 16 16); trivial; try reflexivity; try apply val_16; lra).
  assert (W2 : within (- (2)) 2 2) by (split; [reflexivity|rewrite val_2; lra]).
  assert (Wq' : within (- (32)) 32 q')
    by (apply (mul_within 2 16 32 32); trivial; try reflexivity; lra).
  assert (Fp' : finite p' = true).
  { subst p'. destruct (gtb q' 0); [rewrite finite_opp|]; apply Wp. }
  assert (Fq'' : finite q'' = true) by (subst q''; rewrite finite_fabs; apply Wq').
  apply div_notnan; trivial.
  intros Z.
  (* a vanishing [q] makes the right-hand side of the test vanish *)
  pose proof (mul_Rounds_c 0.5 _ q'' eq_refl val_half Fq'') as Rh.
  assert (Fh : finite (0.5 * q'') = true) by (apply (Rounds_medium _ _ Rh); rewrite Z; split; lra).
  assert (F0 : finite 0 = true) by reflexivity.
  assert (Zh : val (0.5 * q'') == 0).
  { assert (U1 : val (0.5 * q'') <= val 0)
      by (apply (Rounds_le _ _ _ Rh); trivial; rewrite Z, val_0; lra).
    assert (U2 : val 0 <= val (0.5 * q''))
      by (apply (Rounds_ge _ _ _ Rh); trivial; rewrite Z, val_0; lra).
    rewrite val_0 in U1, U2. lra. }
  destruct We as [Fe Be].
  pose proof (mul_Rounds (0.5 * q'') (br_e s) Fh Fe) as Re.
  assert (Fhe : finite (0.5 * q'' * br_e s) = true)
    by (apply (Rounds_medium _ _ Re); rewrite Zh; split; lra).
  assert (Zhe : val (0.5 * q'' * br_e s) == 0).
  { assert (U1 : val (0.5 * q'' * br_e s) <= val 0)
      by (apply (Rounds_le _ _ _ Re); trivial; rewrite Zh, val_0; lra).
    assert (U2 : val 0 <= val (0.5 * q'' * br_e s))
      by (apply (Rounds_ge _ _ _ Re); trivial; rewrite Zh, val_0; lra).
    rewrite val_0 in U1, U2. lra. }
  unfold geb in C. apply leb_false_val in C; try (rewrite finite_fabs; trivial).
  pose proof (val_abs_cases p') as [P0 _]. fold (fabs p') in P0.
  pose proof (val_abs_cases (0.5 * q'' * br_e s)) as [_ [E|E]];
    fold (fabs (0.5 * q'' * br_e s)) in E; rewrite E, Zhe in C; lra.
Qed.

(** The trial point of a pass that did not stop lies in the bracket. *)
Lemma brent_trial_inv :
  let '(d', e', u) := brent_trial tol s in
  within (-2) 2 d' /\ within (-2) 2 e' /\ within (val a) (val b) u.
Proof.
  destruct Inv as (Wa & Wb & Wx & Hax & Ww & Wv & Wd & We & Wfv & Wfw & Wfx).
  unfold brent_trial. cbv zeta.
  destruct (gtb (fabs (br_e s)) tol1).
  - match goal with |- context [if ?c then (_, _) else _] => destruct c eqn:C end.
    + apply step_golden.
    + apply orb_false_iff in C as [C _]. apply orb_false_iff in C as [C _].
      pose proof (step_parabola C) as Nd. cbv zeta in Nd.
      match goal with |- context [if ?c then MYSIGN _ _ else _] => destruct c eqn:G end.
      * destruct step_replaced as [R1 R2]. tauto.
      * destruct (step_kept _ Nd G) as [K1 K2]. tauto.
  - apply step_golden.
Qed.

End Step.

End BrentStep.

(** ** The loop of [brent] *)

Section BrentLoop.
Local Open Scope float_scope.

Lemma in_bracket_within lo hi x :
  finite lo = true -> finite hi = true ->
  in_bracket lo hi x = true -> within (val lo) (val hi) x.
Proof.
  intros Fl Fh B. apply andb_prop in B as [B1 B2].
  assert (Fx : finite x = true) by (apply (between_finite lo x hi); trivial).
  apply leb_val in B1; trivial. apply leb_val in B2; trivial.
  split; [trivial|split; trivial].
Qed.

Lemma within_in_bracket lo hi x :
  finite lo = true -> finite hi = true ->
  within (val lo) (val hi) x -> in_bracket lo hi x = true.
Proof.
  intros Fl Fh [Fx [B1 B2]]. unfold in_bracket.
  apply andb_true_intro. split; apply leb_val; trivial.
Qed.

Section Loop.
Local Open Scope Q_scope.
Variable beta_ab : float -> float -> Z -> Z -> float.
Variables (tol : float) (L H : Q).
Hypothesis tol_fin : finite tol = true.
Hypothesis tol_range : 0 <= val tol <= 1.
Hypothesis L_nonneg : 0 <= L.
Hypothesis H_le1 : H <= 1.

Lemma brent_update_inv s d' e' u fu :
  brent_inv L H s ->
  within (-2) 2 d' -> within (-2) 2 e' ->
  within (val (br_a s)) (val (br_b s)) u ->
  within (-2) 2 fu ->
  brent_inv L H (brent_update s d' e' u fu).
Proof.
  unfold brent_inv, within.
  intros ([Fa Ba] & [Fb Bb] & [Fx Bx] & Hax & [Fw Bw] & [Fv Bv] & [Fd Bd] & [Fe Be]
          & [Ffv Bfv] & [Ffw Bfw] & [Ffx Bfx]) [Fd' Bd'] [Fe' Be'] [Fu Bu] [Ffu Bfu].
  unfold brent_update. cbv zeta.
  destruct (fu <=? br_fx s)%float.
  - unfold geb. destruct (br_x s <=? u)%float eqn:Cmp.
    + apply leb_val in Cmp; trivial.
      cbn [br_a br_b br_d br_e br_v br_w br_x br_fv br_fw br_fx].
      repeat split; trivial; try lra.
    + apply leb_false_val in Cmp; trivial.
      cbn [br_a br_b br_d br_e br_v br_w br_x br_fv br_fw br_fx].
      repeat split; trivial; try lra.
  - assert (Bk : (finite (if (u <? br_x s)%float then u else br_a s) = true /\
                  L <= val (if (u <? br_x s)%float then u else br_a s) <= H) /\
                 (finite (if (u <? br_x s)%float then br_b s else u) = true /\
                  L <= val (if (u <? br_x s)%float then br_b s else u) <= H) /\
                 val (if (u <? br_x s)%float then u else br_a s) <= val (br_x s)
                 /\ val (br_x s) <= val (if (u <? br_x s)%float then br_b s else u)).
    { destruct (u <? br_x s)%float eqn:Cmp.
      - apply ltb_val in Cmp; trivial. repeat split; trivial; try lra.
      - apply ltb_false_val in Cmp; trivial. repeat split; trivial; try lra. }
    destruct Bk as ([Fka Ka] & [Fkb Kb] & Kax & Kxb).
    destruct ((fu <=? br_fw s) || (br_w s =? br_x s))%float;
      [|destruct ((fu <=? br_fv s) || (br_v s =? br_x s) || (br_v s =? br_w s))%float];
      cbn [br_a br_b br_d br_e br_v br_w br_x br_fv br_fw br_fx];
      repeat split; trivial; try lra.
Qed.

(** A run of the loop from a state that satisfies the invariant: the
    returned abscissa and every abscissa handed to [interval] lie in
    [[L, H]]; the context is only read. *)
Lemma brent_loop_inv n : forall s w,
  brent_inv L H s ->
  exists cs,
    calls (snd (brent_loop beta_ab n tol s w)) = calls w ++ cs /\
    Forall (call_within L H) cs /\
    within L H (snd (fst (brent_loop beta_ab n tol s w))) /\
    GLOBAL_k (snd (brent_loop beta_ab n tol s w)) = GLOBAL_k w /\
    GLOBAL_N (snd (brent_loop beta_ab n tol s w)) = GLOBAL_N w /\
    CONFLEVEL (snd (brent_loop beta_ab n tol s w)) = CONFLEVEL w.
Proof.
  induction n as [|n IH]; intros s w Inv.
  - exists []. cbn [brent_loop]. unfold printf, bind, ret.
    cbn [fst snd calls GLOBAL_k GLOBAL_N CONFLEVEL]. rewrite app_nil_r.
    destruct Inv as (_ & _ & Wx & _). repeat split; trivial; apply Wx.
  - cbn [brent_loop].
    destruct (brent_converged tol s) eqn:Conv.
    + exists []. unfold ret. cbn [fst snd]. rewrite app_nil_r.
      destruct Inv as (_ & _ & Wx & _). repeat split; trivial; apply Wx.
    + pose proof (brent_trial_inv tol s L H tol_fin tol_range L_nonneg H_le1 Inv Conv) as T.
      destruct (brent_trial tol s) as [[d' e'] u].
      destruct T as (Wd' & We' & Wu).
      assert (WuLH : within L H u).
      { destruct Inv as ([_ Ba] & [_ Bb] & _). destruct Wu as [Fu Bu]. split; [trivial|lra]. }
      unfold bind. rewrite interval_run.
      set (fu := interval_value beta_ab (GLOBAL_k w) (GLOBAL_N w) (CONFLEVEL w) u).
      assert (Wfu : within (-2) 2 fu).
      { apply within_weaken with (-1) 2; try lra. apply interval_value_bounded.
        apply within_weaken with L H; trivial. }
      set (w1 := logged _ w).
      destruct (IH (brent_update s d' e' u fu) w1) as (cs & E1 & E2 & E3 & E4 & E5 & E6).
      { now apply brent_update_inv. }
      exists ([CallInterval u; CallSearchUpper u (GLOBAL_k w) (GLOBAL_N w) (CONFLEVEL w)] ++ cs).
      split; [rewrite E1; subst w1; cbn [logged calls]; now rewrite <- app_assoc|].
      split; [|tauto].
      apply Forall_app. split; [|trivial].
      constructor; [exact WuLH|constructor; [exact WuLH|constructor]].
Qed.

End Loop.

End BrentLoop.

(** ** Independence of the logs *)

Section Framing.
Local Open Scope float_scope.

(** ** Comparisons of arbitrary numbers *)

Lemma SFcompare_refl x : SFcompare x x = None \/ SFcompare x x = Some Eq.
Proof.
  destruct x as [s|s| |s m e]; cbn; auto.
  - destruct s; auto.
  - destruct s; rewrite Z.compare_refl, Pos.compare_cont_refl; auto.
Qed.

Lemma ltb_irrefl x : (x <? x) = false.
Proof.
  rewrite FloatAxioms.ltb_spec. unfold SFltb.
  destruct (SFcompare_refl (Prim2SF x)) as [E|E]; now rewrite E.
Qed.

Lemma ltb_leb_trans x y z : (x <? y) = true -> (y <=? z) = true -> (x <? z) = true.
Proof.
  destruct (finite x && finite y && finite z)%bool eqn:F.
  - apply andb_prop in F as [F Fz]. apply andb_prop in F as [Fx Fy].
    intros H1 H2. apply ltb_val in H1; trivial. apply leb_val in H2; trivial.
    apply ltb_val; trivial. lra.
  - revert F. unfold finite.
    rewrite !FloatAxioms.ltb_spec, FloatAxioms.leb_spec. unfold SFltb, SFleb.
    destruct (Prim2SF x) as [sx|sx| |sx mx ex]; destruct (Prim2SF y) as [sy|sy| |sy my ey];
    destruct (Prim2SF z) as [sz|sz| |sz mz ez]; cbn [SFfin andb]; try discriminate;
    intros _; cbn [SFcompare];
    repeat match goal with s : bool |- _ => destruct s end;
    try discriminate; try reflexivity.
Qed.

Lemma world_eta w :
  mkWorld (GLOBAL_k w) (GLOBAL_N w) (CONFLEVEL w) (stdout w) (calls w) = w.
Proof. now destruct w. Qed.

Lemma framed_ret {A} (a : A) : framed (ret a).
Proof.
  intros w. unfold ret, extend, bare. cbn. now rewrite !app_nil_r, world_eta.
Qed.

Lemma framed_enter c : framed (enter c).
Proof. intros w. unfold enter, extend, bare. cbn. now rewrite app_nil_r. Qed.

Lemma framed_printf s : framed (printf s).
Proof. intros w. unfold printf, extend, bare. cbn. now rewrite app_nil_r. Qed.

Lemma framed_set_context k N c : framed (set_context k N c).
Proof. intros w. unfold set_context, extend, bare. cbn. now rewrite !app_nil_r. Qed.

Lemma framed_bind {A B} (m : M A) (f : A -> M B) :
  framed m -> (forall a, framed (f a)) -> framed (bind m f).
Proof.
  intros Hm Hf w. unfold bind. rewrite (Hm w).
  destruct (m (bare w)) as [a w1] eqn:E1. cbn [fst snd].
  rewrite (Hf a (extend w w1)), (Hf a w1).
  assert (Eb : bare (extend w w1) = bare w1) by reflexivity.
  rewrite Eb. destruct (f a (bare w1)) as [b w2]. cbn [fst snd].
  f_equal. unfold extend. cbn. now rewrite !app_assoc.
Qed.

Lemma keeps_ret {A} (a : A) : keeps_context (ret a).
Proof. intros w. now cbn. Qed.

Lemma keeps_enter c : keeps_context (enter c).
Proof. intros w. now cbn. Qed.

Lemma keeps_printf s : keeps_context (printf s).
Proof. intros w. now cbn. Qed.

Lemma keeps_bind {A B} (m : M A) (f : A -> M B) :
  keeps_context m -> (forall a, keeps_context (f a)) -> keeps_context (bind m f).
Proof.
  intros Hm Hf w. unfold bind. destruct (Hm w) as (E1 & E2 & E3).
  destruct (m w) as [a w1]. cbn [snd] in *.
  destruct (Hf a w1) as (G1 & G2 & G3). rewrite G1, G2, G3. auto.
Qed.

Section Frames.
Variable beta_ab : float -> float -> Z -> Z -> float.

Lemma framed_search_upper low k N c : framed (search_upper beta_ab low k N c).
Proof.
  unfold search_upper. apply framed_bind; [apply framed_enter|]. intros _.
  cbv zeta. destruct (_ =? c); [apply framed_ret|].
  destruct (_ <? c); apply framed_ret.
Qed.

Lemma framed_search_lower high k N c : framed (search_lower beta_ab high k N c).
Proof.
  unfold search_lower. apply framed_bind; [apply framed_enter|]. intros _.
  cbv zeta. destruct (_ =? c); [apply framed_ret|].
  destruct (_ <? c); apply framed_ret.
Qed.

Lemma keeps_search_upper low k N c : keeps_context (search_upper beta_ab low k N c).
Proof.
  unfold search_upper. apply keeps_bind; [apply keeps_enter|]. intros _.
  cbv zeta. destruct (_ =? c); [apply keeps_ret|].
  destruct (_ <? c); apply keeps_ret.
Qed.

Lemma keeps_interval low : keeps_context (interval beta_ab low).
Proof. intros w. rewrite interval_run. now cbn. Qed.

Lemma framed_interval low : framed (interval beta_ab low).
Proof.
  intros w. rewrite !interval_run. unfold extend, bare, logged. cbn.
  now rewrite app_nil_r.
Qed.

Lemma framed_brent_loop n tol : forall s, framed (brent_loop beta_ab n tol s).
Proof.
  induction n as [|n IH]; intros s; cbn [brent_loop].
  - apply framed_bind; [apply framed_printf|]. intros _. apply framed_ret.
  - destruct (brent_converged tol s); [apply framed_ret|].
    destruct (brent_trial tol s) as [[d e] u].
    apply framed_bind; [apply framed_interval|]. intros fu. apply IH.
Qed.

Lemma keeps_brent_loop n tol : forall s, keeps_context (brent_loop beta_ab n tol s).
Proof.
  induction n as [|n IH]; intros s; cbn [brent_loop].
  - apply keeps_bind; [apply keeps_printf|]. intros _. apply keeps_ret.
  - destruct (brent_converged tol s); [apply keeps_ret|].
    destruct (brent_trial tol s) as [[d e] u].
    apply keeps_bind; [apply keeps_interval|]. intros fu. apply IH.
Qed.

Lemma framed_brent ax bx cx tol : framed (brent beta_ab ax bx cx tol).
Proof.
  unfold brent. apply framed_bind; [apply framed_enter|]. intros _. cbv zeta.
  apply framed_bind; [apply framed_interval|]. intros fx. apply framed_brent_loop.
Qed.

Lemma keeps_brent ax bx cx tol : keeps_context (brent beta_ab ax bx cx tol).
Proof.
  unfold brent. apply keeps_bind; [apply keeps_enter|]. intros _. cbv zeta.
  apply keeps_bind; [apply keeps_interval|]. intros fx. apply keeps_brent_loop.
Qed.

Lemma framed_efficiency_ci k N c : framed (efficiency_ci beta_ab k N c).
Proof.
  unfold efficiency_ci. destruct (0 =? N)%Z; [apply framed_ret|]. cbv zeta.
  destruct (k =? 0)%Z.
  { apply framed_bind; [apply framed_search_upper|]. intros h. apply framed_ret. }
  destruct (k =? N)%Z.
  { apply framed_bind; [apply framed_search_lower|]. intros l. apply framed_ret. }
  apply framed_bind; [apply framed_set_context|]. intros _.
  apply framed_bind; [apply framed_brent|]. intros r.
  apply framed_bind; [apply framed_interval|]. intros len. apply framed_ret.
Qed.

End Frames.

End Framing.

(** * Properties of [efficiency_ci] *)

Section Results.
Local Open Scope float_scope.

Lemma in_bracket_01 x : in_bracket 0 1 x = true -> within 0 1 x.
Proof.
  intros B. apply (within_weaken (val 0) (val 1)).
  - rewrite val_0. apply Qle_refl.
  - rewrite val_1. apply Qle_refl.
  - now apply in_bracket_within.
Qed.

Lemma within_01_in_bracket x : within 0 1 x -> in_bracket 0 1 x = true.
Proof.
  intros W. apply within_in_bracket; try reflexivity.
  apply (within_weaken 0 1); trivial.
  - rewrite val_0. apply Qle_refl.
  - rewrite val_1. apply Qle_refl.
Qed.

Lemma val_neq x y : ~ (val x == val y)%Q -> x <> y.
Proof. intros H E. apply H. now rewrite E. Qed.

Lemma nonneg_not_m1 x : (0 <= val x)%Q -> x <> (-1)%float.
Proof. intros H. apply val_neq. rewrite val_m1. lra. Qed.

Section EfficiencyCI.
Variable beta_ab : float -> float -> Z -> Z -> float.

(** *** The cases [k = 0] and [k = N] *)

Lemma mode_zero (N : Z) : (0 < N < 2 ^ 31)%Z -> double_of_int 0 / double_of_int N = 0.
Proof.
  intros HN. destruct (double_of_int_pos N) as (m & e & EN & _).
  { split; [lia|]. apply Z.lt_trans with (2 ^ 31)%Z; [lia|reflexivity]. }
  change (double_of_int 0) with 0. exact (zero_div _ _ _ EN).
Qed.

Lemma mode_one (N : Z) : (0 < N < 2 ^ 31)%Z -> double_of_int N / double_of_int N = 1.
Proof.
  intros HN. destruct (double_of_int_pos N) as (m & e & EN & _).
  { split; [lia|]. apply Z.lt_trans with (2 ^ 31)%Z; [lia|reflexivity]. }
  exact (div_self _ _ _ _ EN).
Qed.

Lemma efficiency_ci_k0 (N : Z) (c : float) (w : world) :
  N <> 0%Z ->
  efficiency_ci beta_ab 0 N c w
  = ((double_of_int 0 / double_of_int N, 0, search_upper_value beta_ab 0 0 N c),
     logged [CallSearchUpper 0 0 N c] w).
Proof.
  intros HN. unfold efficiency_ci.
  destruct (Z.eqb_spec 0 N) as [|_]; [congruence|]. cbv zeta.
  change (0 =? 0)%Z with true. cbv iota.
  unfold bind. rewrite search_upper_run. reflexivity.
Qed.

Lemma efficiency_ci_kN (N : Z) (c : float) (w : world) :
  N <> 0%Z ->
  efficiency_ci beta_ab N N c w
  = ((double_of_int N / double_of_int N, search_lower_value beta_ab 1 N N c, 1),
     logged [CallSearchLower 1 N N c] w).
Proof.
  intros HN. unfold efficiency_ci.
  destruct (Z.eqb_spec 0 N) as [|_]; [congruence|]. cbv zeta.
  destruct (Z.eqb_spec N 0) as [|_]; [congruence|].
  rewrite Z.eqb_refl.
  unfold bind. rewrite search_lower_run. reflexivity.
Qed.

(** C6: with [k = 0] (and [N > 0]) the call returns mode 0, low 0 and the
    upper edge that [search_upper(0, 0, N, c)] finds; with [k = N] it
    returns mode 1, high 1 and the lower edge that
    [search_lower(1, N, N, c)] finds.  In both cases the only routine
    entered is that search: the minimiser is not run, the context is not
    written, nothing is printed. *)
Theorem efficiency_ci_boundary_cases (N : Z) (c : float) (w : world) :
  (0 < N < 2 ^ 31)%Z ->
  efficiency_ci beta_ab 0 N c w
  = ((0, 0, fst (search_upper beta_ab 0 0 N c w)),
     logged [CallSearchUpper 0 0 N c] w)
  /\
  efficiency_ci beta_ab N N c w
  = ((1, fst (search_lower beta_ab 1 N N c w), 1),
     logged [CallSearchLower 1 N N c] w).
Proof.
  intros HN. split.
  - rewrite efficiency_ci_k0 by lia. rewrite (mode_zero N HN).
    now rewrite search_upper_run.
  - rewrite efficiency_ci_kN by lia. rewrite (mode_one N HN).
    now rewrite search_lower_run.
Qed.

(** *** The general case *)

Lemma general_case_run (k N : Z) (c : float) (w : world) :
  (0 < k < N)%Z ->
  let r := brent beta_ab 0 0.5 1 1.0e-9 (snd (set_context k N c w)) in
  let r' := interval beta_ab (snd (fst r)) (snd r) in
  efficiency_ci beta_ab k N c w
  = ((double_of_int k / double_of_int N, snd (fst r), snd (fst r) + fst r'), snd r').
Proof.
  intros Hk. cbv zeta. set (w1 := snd (set_context k N c w)). unfold efficiency_ci.
  destruct (Z.eqb_spec 0 N) as [|_]; [lia|]. cbv zeta.
  destruct (Z.eqb_spec k 0) as [|_]; [lia|].
  destruct (Z.eqb_spec k N) as [|_]; [lia|].
  unfold bind. change (set_context k N c w) with (tt, w1). cbv beta iota.
  destruct (brent beta_ab 0 0.5 1 1.0e-9 w1) as [[fx xmin] w2]. cbn [fst snd].
  destruct (interval beta_ab xmin w2) as [len w3]. reflexivity.
Qed.

Lemma general_case_context (k N : Z) (c : float) (w : world) :
  let r := brent beta_ab 0 0.5 1 1.0e-9 (snd (set_context k N c w)) in
  (GLOBAL_k (snd r), GLOBAL_N (snd r), CONFLEVEL (snd r)) = (k, N, c).
Proof.
  cbv zeta. set (w1 := snd (set_context k N c w)).
  destruct (keeps_brent beta_ab 0 0.5 1 1.0e-9 w1) as (E1 & E2 & E3).
  now rewrite E1, E2, E3.
Qed.

Lemma general_case_length (k N : Z) (c : float) (w : world) (low : float) :
  let r := brent beta_ab 0 0.5 1 1.0e-9 (snd (set_context k N c w)) in
  fst (interval beta_ab low (snd r)) = interval_value beta_ab k N c low.
Proof.
  cbv zeta. rewrite interval_run. cbn [fst].
  pose proof (general_case_context k N c w) as G. cbv zeta in G.
  set (r := brent beta_ab 0 0.5 1 1.0e-9 (snd (set_context k N c w))) in *.
  injection G as -> -> ->. reflexivity.
Qed.

(** C2: in the general case [0 < k < N] the call sets mode to [k/N],
    writes [(k, N, conflevel)] to the context, takes [low] from
    [brent(0.0, 0.5, 1.0, 1e-9)] run on the objective [interval] under that
    context, and returns [high = low + interval(low)]. *)
Theorem efficiency_ci_general_case (k N : Z) (c : float) (w : world) :
  (0 < k < N)%Z ->
  let w1 := snd (set_context k N c w) in
  let r := brent beta_ab 0 0.5 1 1.0e-9 w1 in
  let low := snd (fst r) in
  let r' := interval beta_ab low (snd r) in
  efficiency_ci beta_ab k N c w
  = ((double_of_int k / double_of_int N, low, low + fst r'), snd r')
  /\ (GLOBAL_k w1, GLOBAL_N w1, CONFLEVEL w1) = (k, N, c)
  /\ (GLOBAL_k (snd r), GLOBAL_N (snd r), CONFLEVEL (snd r)) = (k, N, c)
  /\ fst r' = interval_value beta_ab k N c low.
Proof.
  intros Hk. cbv zeta.
  split; [exact (general_case_run k N c w Hk)|]. split; [reflexivity|].
  split; [exact (general_case_context k N c w)|].
  exact (general_case_length k N c w _).
Qed.

(** C3: for an anchor in [[0,1]], [search_upper] returns 1.0 when the
    integral up to 1 compares equal to [c] and [search_lower] returns 0.0
    when the integral down from 0 does; each returns the sentinel -1.0
    exactly when that integral compares less than [c]. *)
Theorem search_sentinel_exactly (anchor : float) (k N : Z) (c : float) (w : world) :
  in_bracket 0 1 anchor = true ->
  ((beta_ab anchor 1 k N =? c) = true ->
     fst (search_upper beta_ab anchor k N c w) = 1) /\
  (fst (search_upper beta_ab anchor k N c w) = (-1)%float
     <-> (beta_ab anchor 1 k N <? c) = true) /\
  ((beta_ab 0 anchor k N =? c) = true ->
     fst (search_lower beta_ab anchor k N c w) = 0) /\
  (fst (search_lower beta_ab anchor k N c w) = (-1)%float
     <-> (beta_ab 0 anchor k N <? c) = true).
Proof.
  intros B. apply in_bracket_01 in B.
  rewrite search_upper_run, search_lower_run. cbn [fst].
  pose proof (search_upper_value_spec beta_ab anchor k N c B) as CU.
  pose proof (search_lower_value_spec beta_ab anchor k N c B) as CL.
  cbv zeta in CU, CL.
  assert (N1 : (1 : float) <> (-1)%float) by (apply nonneg_not_m1; rewrite val_1; lra).
  assert (N0 : (0 : float) <> (-1)%float) by (apply nonneg_not_m1; rewrite val_0; lra).
  destruct B as [_ B].
  split; [|split; [|split]].
  - intros E. destruct CU as [[_ V]|[[E1 _]|[E1 _]]]; [exact V|congruence|congruence].
  - destruct CU as [[E1 V]|[(E1 & E2 & V)|(E1 & E2 & [F Bd])]]; rewrite ?V.
    + split; [intros X; now elim N1|intros L].
      apply ltb_not_eqb in L. congruence.
    + split; trivial.
    + split; [intros X; exfalso; revert X; apply nonneg_not_m1; lra|congruence].
  - intros E. destruct CL as [[_ V]|[[E1 _]|[E1 _]]]; [exact V|congruence|congruence].
  - destruct CL as [[E1 V]|[(E1 & E2 & V)|(E1 & E2 & [F Bd])]]; rewrite ?V.
    + split; [intros X; now elim N0|intros L].
      apply ltb_not_eqb in L. congruence.
    + split; trivial.
    + split; [intros X; exfalso; revert X; apply nonneg_not_m1; lra|congruence].
Qed.

(** C4, as the code has it: under the context found in the state, for
    every [low], [interval] returns 2.0 when [search_upper] returns the
    sentinel -1.0 and otherwise the result of [search_upper] minus [low];
    for [low] in [[0,1]] it returns 2.0 only when [search_upper] returns
    the sentinel. *)
Theorem interval_sentinel_length (low : float) (w : world) :
  let high := fst (search_upper beta_ab low (GLOBAL_k w) (GLOBAL_N w) (CONFLEVEL w) w) in
  let len := fst (interval beta_ab low w) in
  (high = (-1)%float -> len = 2) /\
  (high <> (-1)%float -> len = high - low) /\
  (in_bracket 0 1 low = true -> len = 2 -> high = (-1)%float).
Proof.
  intros high len.
  subst high len. rewrite search_upper_run, interval_run. cbn [fst].
  rewrite interval_value_eq. cbv zeta.
  set (high := search_upper_value beta_ab low (GLOBAL_k w) (GLOBAL_N w) (CONFLEVEL w)).
  split; [intros E; rewrite E; reflexivity|].
  split.
  - intros Hn. destruct (high =? -1) eqn:E; [|reflexivity].
    apply eqb_m1 in E. now elim Hn.
  - intros B E2. apply in_bracket_01 in B.
    destruct (search_upper_value_cases beta_ab low (GLOBAL_k w) (GLOBAL_N w) (CONFLEVEL w) B)
      as [E|[Fh Bh]]; [exact E|].
    fold high in Fh, Bh. exfalso.
    destruct B as [Fl Bl].
    rewrite eqb_m1_false in E2 by (trivial; lra).
    pose proof (sub_Rounds high low Fh Fl) as R.
    assert (F1 : finite 1 = true) by reflexivity.
    destruct (Rounds_small _ _ R) as [Fr _]; [split; lra|].
    assert (U : (val (high - low) <= val 1)%Q)
      by (apply (Rounds_le _ _ _ R); trivial; rewrite val_1; lra).
    rewrite E2, val_2, val_1 in U. lra.
Qed.

(** *** The minimiser stays in its bracket *)

Lemma brent_run_within (ax bx cx tol : float) (w : world) :
  let a := if ax <? cx then ax else cx in
  let b := if gtb ax cx then ax else cx in
  within 0 1 a -> within 0 1 b -> within (val a) (val b) bx -> within 0 1 tol ->
  exists cs,
    calls (snd (brent beta_ab ax bx cx tol w)) = calls w ++ CallBrent ax bx cx tol :: cs /\
    Forall (call_within (val a) (val b)) cs /\
    within (val a) (val b) (snd (fst (brent beta_ab ax bx cx tol w))).
Proof.
  intros a b Wa Wb Wx [Ft Bt].
  unfold brent, bind. cbn [enter]. fold a. fold b. rewrite interval_run. cbn [fst snd].
  set (w1 := logged _ _).
  set (fx := interval_value _ _ _ _ bx).
  destruct Wa as [Fa Ba], Wb as [Fb Bb]. destruct Wx as [Fx Bx].
  assert (Wx01 : within 0 1 bx) by (split; [trivial|lra]).
  assert (Wfx : within (-2) 2 fx).
  { apply within_weaken with (-1)%Q 2%Q; try lra. now apply interval_value_bounded. }
  assert (W0 : within (-2) 2 0) by (split; [reflexivity|rewrite val_0; lra]).
  destruct (brent_loop_inv beta_ab tol (val a) (val b) Ft Bt ltac:(lra) ltac:(lra) kITMAX
              (mkBrent a b 0 0 bx bx bx fx fx fx) w1) as (cs & E1 & E2 & E3 & _).
  { unfold brent_inv. cbn [br_a br_b br_d br_e br_v br_w br_x br_fv br_fw br_fx].
    destruct Wfx as [Ffx Bfx]. pose proof val_0 as V0.
    repeat split; trivial; lra. }
  exists ([CallInterval bx;
           CallSearchUpper bx (GLOBAL_k w) (GLOBAL_N w) (CONFLEVEL w)] ++ cs).
  split; [|split; [|exact E3]].
  - rewrite E1. subst w1. unfold logged. cbn [calls GLOBAL_k GLOBAL_N CONFLEVEL].
    rewrite <- !app_assoc. reflexivity.
  - apply Forall_app. split; [|exact E2].
    assert (Wb' : within (val a) (val b) bx) by (split; [trivial|lra]).
    constructor; [exact Wb'|constructor; [exact Wb'|constructor]].
Qed.

Lemma evaluated_in cs u : In (CallInterval u) cs <-> In u (evaluated cs).
Proof.
  unfold evaluated. rewrite in_flat_map. split.
  - intros H. exists (CallInterval u). split; [trivial|now left].
  - intros (c & Hc & Hu). destruct c; cbn in Hu; try tauto.
    destruct Hu as [->|[]]. exact Hc.
Qed.

Lemma Forall_call_within L H cs u :
  Forall (call_within L H) cs -> In (CallInterval u) cs -> within L H u.
Proof.
  intros F I. rewrite Forall_forall in F. exact (F _ I).
Qed.

(** *** What the general case returns *)

Lemma high_of_low (k N : Z) (c : float) (low : float) :
  within 0 1 low ->
  let len := interval_value beta_ab k N c low in
  finite (low + len) = true /\ (val low <= val (low + len))%Q /\
  (search_upper_value beta_ab low k N c <> (-1)%float -> (val (low + len) <= 1)%Q).
Proof.
  intros [Fl Bl]. cbv zeta. rewrite interval_value_eq. cbv zeta.
  assert (F0 : finite 0 = true) by reflexivity.
  assert (F1 : finite 1 = true) by reflexivity.
  destruct (search_upper_value_cases beta_ab low k N c (conj Fl Bl)) as [E|[Fh Bh]].
  - rewrite E. change (-1 =? -1) with true. cbv iota.
    assert (F2 : finite 2 = true) by reflexivity.
    pose proof (add_Rounds low 2 Fl F2) as R. pose proof val_2 as V2.
    destruct (Rounds_small _ _ R) as [Fr _]; [split; lra|].
    split; [trivial|split].
    + apply (Rounds_ge _ _ _ R); trivial. lra.
    + intros X. now elim X.
  - set (su := search_upper_value beta_ab low k N c) in *.
    rewrite eqb_m1_false by (trivial; lra).
    pose proof (sub_Rounds su low Fh Fl) as R1.
    destruct (Rounds_small _ _ R1) as [Fd _]; [split; lra|].
    assert (D0 : (val 0 <= val (su - low))%Q)
      by (apply (Rounds_ge _ _ _ R1); trivial; rewrite val_0; lra).
    assert (D1 : (val (su - low) <= val 1)%Q)
      by (apply (Rounds_le _ _ _ R1); trivial; rewrite val_1; lra).
    rewrite val_0 in D0. rewrite val_1 in D1.
    pose proof (add_Rounds low (su - low) Fl Fd) as R2.
    destruct (Rounds_small _ _ R2) as [Fr _]; [split; lra|].
    split; [trivial|split].
    + apply (Rounds_ge _ _ _ R2); trivial. lra.
    + intros _. apply Qnot_lt_le. intros C.
      pose proof (above_one_spacing _ Fr C) as Sp.
      destruct (Qlt_le_dec (val su - val low) 1) as [Lt|Ge].
      * destruct (Rounds_below1 _ _ R1) as [_ [_ U1]]; [split; lra|].
        destruct (Rounds_below2 _ _ R2) as [_ [_ U2]]; [split; lra|].
        lra.
      * assert (X1 : (val 1 <= val (su - low))%Q)
          by (apply (Rounds_ge _ _ _ R1); trivial; rewrite val_1; lra).
        rewrite val_1 in X1.
        assert (X2 : (val (low + (su - low)) <= val 1)%Q)
          by (apply (Rounds_le _ _ _ R2); trivial; rewrite val_1; lra).
        rewrite val_1 in X2. lra.
Qed.

Lemma general_case_calls (k N : Z) (c : float) (w : world) :
  (0 < k < N)%Z ->
  exists cs,
    calls (snd (efficiency_ci beta_ab k N c w)) = calls w ++ cs /\
    (forall u, In (CallInterval u) cs -> within 0 1 u) /\
    within 0 1 (snd (fst (fst (efficiency_ci beta_ab k N c w)))).
Proof.
  intros Hk.
  pose proof (general_case_run k N c w Hk) as E. cbv zeta in E.
  rewrite E. clear E. cbn [fst snd].
  set (w1 := snd (set_context k N c w)).
  destruct (brent_run_within 0 0.5 1 1.0e-9 w1) as (cs & E1 & E2 & E3).
  { split; [reflexivity|]. vm_compute. split; discriminate. }
  { split; [reflexivity|]. vm_compute. split; discriminate. }
  { split; [reflexivity|]. vm_compute. split; discriminate. }
  { split; [reflexivity|]. vm_compute. split; discriminate. }
  change (if 0 <? 1 then 0 else 1) with 0 in *.
  change (if gtb 0 1 then 0 else 1) with 1 in *.
  assert (V0 : (val 0 == 0)%Q) by apply val_0.
  assert (V1 : (val 1 == 1)%Q) by apply val_1.
  set (low := snd (fst (brent beta_ab 0 0.5 1 1.0e-9 w1))) in *.
  assert (Wlow : within 0 1 low).
  { apply (within_weaken (val 0) (val 1)); trivial; lra. }
  rewrite interval_run. cbn [fst snd]. unfold logged. cbn [calls].
  rewrite E1. subst w1. cbn [set_context snd calls].
  eexists. split; [rewrite <- app_assoc; reflexivity|]. split; [|exact Wlow].
  intros u Hu. cbn [app] in Hu. destruct Hu as [Hu|Hu]; [discriminate|].
  apply in_app_or in Hu. destruct Hu as [Hu|Hu].
  - apply (within_weaken (val 0) (val 1)); try lra.
    eapply Forall_call_within; eauto.
  - destruct Hu as [Hu|[Hu|[]]]; [|discriminate]. injection Hu as <-. exact Wlow.
Qed.

Lemma conflevel_inside (c : float) :
  (0 <? c) = true -> (c <? 1) = true ->
  (1 =? c) = false /\ (1 <? c) = false.
Proof.
  intros H0 H1.
  assert (Fc : finite c = true)
    by (apply (between_finite 0 c 1); try reflexivity; now apply ltb_leb).
  assert (F1 : finite 1 = true) by reflexivity.
  apply (ltb_val c 1 Fc F1) in H1. rewrite val_1 in H1.
  split.
  - apply not_true_iff_false. intros E. apply (eqb_val 1 c F1 Fc) in E.
    rewrite val_1 in E. lra.
  - apply (ltb_false_val 1 c F1 Fc). rewrite val_1. lra.
Qed.

(** With everything below 1 at the anchor 0, the upper edge is found. *)
Lemma upper_edge_found (N : Z) (c : float) :
  (0 <? c) = true -> (c <? 1) = true -> beta_ab 0 1 0 N = 1 ->
  within 0 1 (search_upper_value beta_ab 0 0 N c).
Proof.
  intros H0 H1 Hb. destruct (conflevel_inside c H0 H1) as [E1 E2].
  destruct (search_upper_value_spec beta_ab 0 0 N c) as [[X _]|[(_ & X & _)|(_ & _ & W)]].
  - apply within_0. lra.
  - rewrite Hb in X. congruence.
  - rewrite Hb in X. congruence.
  - apply (within_weaken (val 0) 1); trivial; try lra. rewrite val_0. lra.
Qed.

Lemma lower_edge_found (N : Z) (c : float) :
  (0 <? c) = true -> (c <? 1) = true -> beta_ab 0 1 N N = 1 ->
  within 0 1 (search_lower_value beta_ab 1 N N c).
Proof.
  intros H0 H1 Hb. destruct (conflevel_inside c H0 H1) as [E1 E2].
  destruct (search_lower_value_spec beta_ab 1 N N c) as [[X _]|[(_ & X & _)|(_ & _ & W)]].
  - apply within_1. lra.
  - rewrite Hb in X. congruence.
  - rewrite Hb in X. congruence.
  - apply (within_weaken 0 (val 1)); trivial; try lra. rewrite val_1. lra.
Qed.

(** C5: for valid input and a normalised primitive, neither [low] nor
    [high] is the sentinel -1.0. *)
Theorem efficiency_ci_no_sentinel (k N : Z) (c : float) (w : world) :
  (0 <= k <= N)%Z -> (0 <? c) = true -> (c <? 1) = true ->
  beta_ab 0 1 k N = 1 ->
  let r := fst (efficiency_ci beta_ab k N c w) in
  snd (fst r) <> (-1)%float /\ snd r <> (-1)%float.
Proof.
  intros Hk H0 H1 Hb. cbv zeta.
  assert (N1 : (1 : float) <> (-1)%float) by (apply nonneg_not_m1; rewrite val_1; lra).
  assert (N0 : (0 : float) <> (-1)%float) by (apply nonneg_not_m1; rewrite val_0; lra).
  destruct (Z.eq_dec N 0) as [->|HN]; [cbn; split; assumption|].
  destruct (Z.eq_dec k 0) as [->|Hk0].
  { rewrite efficiency_ci_k0 by trivial. cbn [fst snd]. split; [exact N0|].
    destruct (upper_edge_found N c H0 H1 Hb) as [_ B].
    apply nonneg_not_m1. lra. }
  destruct (Z.eq_dec k N) as [->|HkN].
  { rewrite efficiency_ci_kN by trivial. cbn [fst snd]. split; [|exact N1].
    destruct (lower_edge_found N c H0 H1 Hb) as [_ B].
    apply nonneg_not_m1. lra. }
  assert (Hg : (0 < k < N)%Z) by lia.
  destruct (general_case_calls k N c w Hg) as (cs & _ & _ & Wlow).
  pose proof (general_case_run k N c w Hg) as E.
  pose proof (general_case_length k N c w
                (snd (fst (brent beta_ab 0 0.5 1 1.0e-9 (snd (set_context k N c w)))))) as Ei.
  cbv zeta in E, Ei.
  rewrite E in *. cbn [fst snd] in *. rewrite Ei.
  destruct (high_of_low k N c _ Wlow) as (Fh & Hl & _).
  destruct Wlow as [Fl Bl].
  split; apply nonneg_not_m1; lra.
Qed.

(** X19: for valid input with [N > 0] and a normalised primitive,
    [0 <= low <= 1] and [low <= high]; in the cases [k = 0] and [k = N],
    [low <= mode <= high <= 1]; in the minimising case
    [high = low + interval(low)], which is at most 1 whenever
    [search_upper] finds an upper edge at the returned [low]. *)
Theorem efficiency_ci_interval_bounds (k N : Z) (c : float) (w : world) :
  (0 < N < 2 ^ 31)%Z -> (0 <= k <= N)%Z ->
  (0 <? c) = true -> (c <? 1) = true ->
  beta_ab 0 1 k N = 1 ->
  let r := fst (efficiency_ci beta_ab k N c w) in
  let mode := fst (fst r) in
  let low := snd (fst r) in
  let high := snd r in
  in_bracket 0 1 low = true /\ (low <=? high) = true /\
  ((k = 0 \/ k = N)%Z ->
     (low <=? mode) = true /\ (mode <=? high) = true /\ (high <=? 1) = true) /\
  ((0 < k < N)%Z ->
     high = low + fst (interval beta_ab low (snd (set_context k N c w))) /\
     (fst (search_upper beta_ab low k N c w) <> (-1)%float -> (high <=? 1) = true)).
Proof.
  intros HN Hk H0 H1 Hb. cbv zeta.
  destruct (Z.eq_dec k 0) as [->|Hk0].
  { rewrite efficiency_ci_k0 by lia. rewrite (mode_zero N HN). cbn [fst snd].
    destruct (upper_edge_found N c H0 H1 Hb) as [Fh Bh].
    assert (L : (0 <=? search_upper_value beta_ab 0 0 N c) = true)
      by (apply (leb_val 0 _ eq_refl Fh); rewrite val_0; lra).
    assert (U : (search_upper_value beta_ab 0 0 N c <=? 1) = true)
      by (apply (leb_val _ 1 Fh eq_refl); rewrite val_1; lra).
    split; [reflexivity|]. split; [exact L|]. split; [|lia].
    intros _. split; [reflexivity|]. split; assumption. }
  destruct (Z.eq_dec k N) as [->|HkN].
  { rewrite efficiency_ci_kN by lia. rewrite (mode_one N HN). cbn [fst snd].
    pose proof (lower_edge_found N c H0 H1 Hb) as W.
    assert (L : (search_lower_value beta_ab 1 N N c <=? 1) = true)
      by (destruct W as [Fw Bw]; apply (leb_val _ 1 Fw eq_refl); rewrite val_1; lra).
    split; [now apply within_01_in_bracket|]. split; [exact L|]. split; [|lia].
    intros _. split; [exact L|]. split; reflexivity. }
  assert (Hg : (0 < k < N)%Z) by lia.
  destruct (general_case_calls k N c w Hg) as (cs & _ & _ & Wlow).
  pose proof (general_case_run k N c w Hg) as E.
  pose proof (general_case_length k N c w
                (snd (fst (brent beta_ab 0 0.5 1 1.0e-9 (snd (set_context k N c w)))))) as Ei.
  cbv zeta in E, Ei.
  rewrite E in *. cbn [fst snd] in *.
  set (low := snd (fst (brent beta_ab 0 0.5 1 1.0e-9 (snd (set_context k N c w))))) in *.
  assert (Ei' : fst (interval beta_ab low (snd (set_context k N c w)))
                = interval_value beta_ab k N c low) by (rewrite interval_run; reflexivity).
  rewrite Ei. rewrite Ei'. rewrite search_upper_run. cbn [fst].
  destruct (high_of_low k N c _ Wlow) as (Fh & Hl & Hu).
  split; [now apply within_01_in_bracket|].
  destruct Wlow as [Fl Bl].
  split; [apply (leb_val _ _ Fl Fh); exact Hl|]. split; [lia|].
  intros _. split; [reflexivity|].
  intros Hs. apply (leb_val _ 1 Fh eq_refl). rewrite val_1. now apply Hu.
Qed.

(** C10, as the code has it: when the bracket lies in [[0,1]], [bx] lies in
    the bracket and the tolerance lies in [[0,1]], every abscissa at which
    [brent] evaluates [interval] and the returned [*xmin] lie in the
    closed bracket; in the general case of [efficiency_ci], [interval] is
    only entered with arguments of [[0,1]] and the returned [low] is in
    [[0,1]]. *)
Theorem brent_stays_in_bracket (ax bx cx tol : float) (w : world) :
  let a := if ax <? cx then ax else cx in
  let b := if gtb ax cx then ax else cx in
  in_bracket 0 1 a = true -> in_bracket 0 1 b = true ->
  in_bracket a b bx = true -> in_bracket 0 1 tol = true ->
  (exists cs,
     calls (snd (brent beta_ab ax bx cx tol w)) = calls w ++ cs /\
     forall u, In (CallInterval u) cs -> in_bracket a b u = true) /\
  in_bracket a b (snd (fst (brent beta_ab ax bx cx tol w))) = true /\
  (forall k N c w', (0 < k < N)%Z ->
     (exists cs,
        calls (snd (efficiency_ci beta_ab k N c w')) = calls w' ++ cs /\
        forall u, In (CallInterval u) cs -> in_bracket 0 1 u = true) /\
     in_bracket 0 1 (snd (fst (fst (efficiency_ci beta_ab k N c w')))) = true).
Proof.
  intros a b Ba Bb Bx Bt.
  apply in_bracket_01 in Ba, Bb, Bt.
  assert (Fa : finite a = true) by apply Ba.
  assert (Fb : finite b = true) by apply Bb.
  apply in_bracket_within in Bx; trivial.
  destruct (brent_run_within ax bx cx tol w Ba Bb Bx Bt) as (cs & E1 & E2 & E3).
  fold a in E2, E3. fold b in E2, E3.
  split; [|split].
  - exists (CallBrent ax bx cx tol :: cs). split; [exact E1|].
    intros u [Hu|Hu]; [discriminate|].
    apply within_in_bracket; trivial. eapply Forall_call_within; eauto.
  - now apply within_in_bracket.
  - intros k N c w' Hk.
    destruct (general_case_calls k N c w' Hk) as (cs' & G1 & G2 & G3).
    split; [|now apply within_01_in_bracket].
    exists cs'. split; [exact G1|]. intros u Hu. apply within_01_in_bracket. now apply G2.
Qed.

(** *** Running out of iterations *)

Lemma brent_loop_passes n : forall tol s w,
  never_converged beta_ab n tol s w = true ->
  brent_loop beta_ab n tol s w
  = (let (s', w') := brent_passes beta_ab n tol s w in
     ((br_fx s', br_x s'), snd (printf too_many w'))).
Proof.
  induction n as [|n IH]; intros tol s w H.
  - reflexivity.
  - cbn [never_converged] in H. apply andb_prop in H as [H1 H2].
    apply negb_true_iff in H1.
    cbn [brent_loop brent_passes]. rewrite H1.
    unfold brent_pass in *. destruct (brent_trial tol s) as [[d e] u].
    unfold bind in *. destruct (interval beta_ab u w) as [fu w1].
    unfold ret in *. now apply IH.
Qed.

Lemma brent_update_best s d e u fu :
  (br_x (brent_update s d e u fu), br_fx (brent_update s d e u fu))
  = if fu <=? br_fx s then (u, fu) else (br_x s, br_fx s).
Proof.
  unfold brent_update. cbv zeta. destruct (fu <=? br_fx s); [reflexivity|].
  destruct ((fu <=? br_fw s) || (br_w s =? br_x s)); [reflexivity|].
  destruct ((fu <=? br_fv s) || (br_v s =? br_x s) || (br_v s =? br_w s)); reflexivity.
Qed.

Lemma evaluated_app cs1 cs2 : evaluated (cs1 ++ cs2) = evaluated cs1 ++ evaluated cs2.
Proof. unfold evaluated. apply flat_map_app. Qed.

Lemma brent_pass_best tol s w cs :
  best_so_far beta_ab (GLOBAL_k w) (GLOBAL_N w) (CONFLEVEL w) s cs ->
  let r := brent_pass beta_ab tol s w in
  exists cs1,
    snd r = logged cs1 w /\
    best_so_far beta_ab (GLOBAL_k w) (GLOBAL_N w) (CONFLEVEL w) (fst r) (cs ++ cs1).
Proof.
  intros (Bf & Bx & Bm). cbv zeta. unfold brent_pass.
  destruct (brent_trial tol s) as [[d e] u]. unfold bind. rewrite interval_run. unfold ret.
  cbn [fst snd]. eexists. split; [reflexivity|].
  set (fu := interval_value beta_ab _ _ _ u) in *.
  pose proof (brent_update_best s d e u fu) as U.
  unfold best_so_far. rewrite evaluated_app. cbn [evaluated flat_map app].
  destruct (fu <=? br_fx s) eqn:C; injection U as Ux Uf; rewrite Ux, Uf.
  - split; [reflexivity|]. split; [apply in_or_app; right; now left|].
    intros u' Hu. apply in_app_or in Hu as [Hu|[<-|[]]].
    + destruct (_ <? fu) eqn:Lt; [|reflexivity].
      pose proof (Bm u' Hu) as Q. rewrite (ltb_leb_trans _ _ _ Lt C) in Q. discriminate.
    + apply ltb_irrefl.
  - split; [exact Bf|]. split; [apply in_or_app; now left|].
    intros u' Hu. apply in_app_or in Hu as [Hu|[<-|[]]].
    + now apply Bm.
    + fold fu. destruct (fu <? br_fx s) eqn:Lt; [|reflexivity].
      apply ltb_leb in Lt. congruence.
Qed.

Lemma logged_logged cs1 cs2 w : logged cs2 (logged cs1 w) = logged (cs1 ++ cs2) w.
Proof. unfold logged. cbn. now rewrite app_assoc. Qed.

Lemma brent_passes_best n : forall tol s w cs,
  best_so_far beta_ab (GLOBAL_k w) (GLOBAL_N w) (CONFLEVEL w) s cs ->
  let r := brent_passes beta_ab n tol s w in
  exists cs1,
    snd r = logged cs1 w /\
    best_so_far beta_ab (GLOBAL_k w) (GLOBAL_N w) (CONFLEVEL w) (fst r) (cs ++ cs1).
Proof.
  induction n as [|n IH]; intros tol s w cs B; cbv zeta.
  - exists []. cbn. split; [unfold logged; rewrite app_nil_r; now destruct w|].
    now rewrite app_nil_r.
  - cbn [brent_passes]. unfold bind.
    destruct (brent_pass_best tol s w cs B) as (cs1 & E1 & B1). cbv zeta in E1, B1.
    destruct (brent_pass beta_ab tol s w) as [s1 w1]. cbn [fst snd] in E1, B1. subst w1.
    destruct (IH tol s1 (logged cs1 w) (cs ++ cs1) B1) as (cs2 & E2 & B2).
    cbv zeta in E2, B2. exists (cs1 ++ cs2). rewrite E2, logged_logged.
    split; [reflexivity|]. rewrite app_assoc. exact B2.
Qed.

(** C8: when the convergence test fails at the head of each of the 100
    passes, [brent] prints its message once and returns all the same: it
    stores the current [x] in [*xmin] and returns [fx], which is the
    objective at that [x]; [x] is one of the abscissas evaluated and the
    objective is at none of them strictly smaller. *)
Theorem brent_too_many_iterations (ax bx cx tol : float) (w : world) :
  let w1 := snd (enter (CallBrent ax bx cx tol) w) in
  let s0 := fst (brent_start beta_ab ax bx cx w1) in
  let w2 := snd (brent_start beta_ab ax bx cx w1) in
  never_converged beta_ab kITMAX tol s0 w2 = true ->
  let r := brent beta_ab ax bx cx tol w in
  let fx := fst (fst r) in
  let xmin := snd (fst r) in
  let objective := interval_value beta_ab (GLOBAL_k w) (GLOBAL_N w) (CONFLEVEL w) in
  let s := fst (brent_passes beta_ab kITMAX tol s0 w2) in
  stdout (snd r) = stdout w ++ [too_many] /\
  xmin = br_x s /\ fx = br_fx s /\
  fx = objective xmin /\
  exists cs,
    calls (snd r) = calls w ++ cs /\
    In xmin (evaluated cs) /\
    forall u, In u (evaluated cs) -> (objective u <? fx) = false.
Proof.
  intros w1 s0 w2 H r fx xmin objective s.
  assert (R : r = (let (s', w') := brent_passes beta_ab kITMAX tol s0 w2 in
                   ((br_fx s', br_x s'), snd (printf too_many w')))).
  { rewrite <- (brent_loop_passes _ _ _ _ H). subst r s0 w2 w1.
    unfold brent, brent_start, bind, enter, ret. cbv zeta.
    destruct (interval beta_ab bx _) as [f0 w']. reflexivity. }
  assert (B0 : best_so_far beta_ab (GLOBAL_k w2) (GLOBAL_N w2) (CONFLEVEL w2) s0
                 [CallInterval bx; CallSearchUpper bx (GLOBAL_k w) (GLOBAL_N w) (CONFLEVEL w)]
               /\ w2 = logged [CallBrent ax bx cx tol; CallInterval bx;
                               CallSearchUpper bx (GLOBAL_k w) (GLOBAL_N w) (CONFLEVEL w)] w).
  { subst s0 w2 w1. unfold brent_start, bind, enter, ret. cbv zeta.
    rewrite interval_run. cbn [fst snd GLOBAL_k GLOBAL_N CONFLEVEL logged].
    split; [|unfold logged; cbn; now rewrite <- app_assoc].
    split; [reflexivity|]. split; [now left|].
    intros u [<-|[]]. apply ltb_irrefl. }
  destruct B0 as [B0 W2].
  destruct (brent_passes_best kITMAX tol s0 w2 _ B0) as (cs1 & E1 & B1). cbv zeta in E1, B1.
  fold s in B1.
  assert (Ctx : (GLOBAL_k w2, GLOBAL_N w2, CONFLEVEL w2) = (GLOBAL_k w, GLOBAL_N w, CONFLEVEL w))
    by (rewrite W2; reflexivity).
  injection Ctx as Ck CN Cc. rewrite Ck, CN, Cc in B1. clear Ck CN Cc B0.
  subst fx xmin. rewrite R.
  destruct (brent_passes beta_ab kITMAX tol s0 w2) as [s' w'] eqn:P.
  cbn [fst snd] in *. subst s. subst w'. rewrite W2.
  destruct B1 as (Bf & Bx & Bm).
  split; [reflexivity|]. split; [reflexivity|]. split; [reflexivity|]. split; [exact Bf|].
  eexists. split; [unfold logged, printf; cbn [snd calls]; rewrite <- app_assoc; reflexivity|].
  change (CallBrent ax bx cx tol :: ?l) with ([CallBrent ax bx cx tol] ++ l).
  rewrite !evaluated_app. cbn [evaluated flat_map app].
  rewrite evaluated_app in Bx, Bm. cbn [evaluated flat_map app] in Bx, Bm.
  split; [exact Bx|exact Bm].
Qed.

(** *** The context *)

Lemma efficiency_ci_steps (k N : Z) (c : float) (w : world) :
  (0 < k < N)%Z ->
  efficiency_ci beta_ab k N c w = (ci_enter k N c ;;; ci_minimise beta_ab k N) w.
Proof.
  intros Hk. unfold efficiency_ci.
  destruct (Z.eqb_spec 0 N); [lia|]. destruct (Z.eqb_spec k 0); [lia|].
  destruct (Z.eqb_spec k N); [lia|]. reflexivity.
Qed.

Lemma searches_with_app k N c cs1 cs2 :
  searches_with k N c cs1 -> searches_with k N c cs2 -> searches_with k N c (cs1 ++ cs2).
Proof.
  intros S1 S2 low k' N' c' I. apply in_app_or in I as [I|I]; [now apply (S1 low)|now apply (S2 low)].
Qed.

Lemma searches_with_interval k N c u :
  searches_with k N c [CallInterval u; CallSearchUpper u k N c].
Proof.
  intros low k' N' c' [I|[I|[]]]; [discriminate|]. now injection I as _ -> -> ->.
Qed.

Lemma brent_loop_searches n : forall tol s w,
  exists cs,
    snd (brent_loop beta_ab n tol s w)
    = mkWorld (GLOBAL_k w) (GLOBAL_N w) (CONFLEVEL w)
              (stdout (snd (brent_loop beta_ab n tol s w))) (calls w ++ cs) /\
    searches_with (GLOBAL_k w) (GLOBAL_N w) (CONFLEVEL w) cs.
Proof.
  induction n as [|n IH]; intros tol s w.
  - exists []. split; [cbn; now rewrite app_nil_r|]. intros ? ? ? ? [].
  - cbn [brent_loop]. destruct (brent_converged tol s).
    { exists []. split; [cbn; rewrite app_nil_r; now destruct w|]. intros ? ? ? ? []. }
    destruct (brent_trial tol s) as [[d e] u]. unfold bind. rewrite interval_run.
    set (w1 := logged _ w).
    destruct (IH tol (brent_update s d e u
                (interval_value beta_ab (GLOBAL_k w) (GLOBAL_N w) (CONFLEVEL w) u)) w1)
      as (cs & E & S).
    eexists. split.
    + rewrite E at 1. subst w1. cbn [logged GLOBAL_k GLOBAL_N CONFLEVEL calls].
      rewrite <- app_assoc. reflexivity.
    + apply searches_with_app; [apply searches_with_interval|exact S].
Qed.

(** C9, as the code has it: the context is one process-wide triple.  A call
    that runs from entry to return reads only what it wrote itself, so its
    results do not depend on the state it is entered in; in the general
    case every [search_upper] it enters is entered with its own
    [(k, N, conflevel)], and the triple stays written when it returns. *)
Theorem efficiency_ci_own_context (k N : Z) (c : float) (w w' : world) :
  fst (efficiency_ci beta_ab k N c w) = fst (efficiency_ci beta_ab k N c w') /\
  ((0 < k < N)%Z ->
     let w1 := snd (efficiency_ci beta_ab k N c w) in
     (GLOBAL_k w1, GLOBAL_N w1, CONFLEVEL w1) = (k, N, c) /\
     exists cs, calls w1 = calls w ++ cs /\ searches_with k N c cs).
Proof.
  split.
  - rewrite (framed_efficiency_ci beta_ab k N c w), (framed_efficiency_ci beta_ab k N c w').
    cbn [fst].
    unfold efficiency_ci. destruct (0 =? N)%Z; [reflexivity|]. cbv zeta.
    destruct (k =? 0)%Z.
    { unfold bind. now rewrite !search_upper_run. }
    destruct (k =? N)%Z.
    { unfold bind. now rewrite !search_lower_run. }
    reflexivity.
  - intros Hk. cbv zeta. rewrite efficiency_ci_steps by trivial.
    unfold ci_enter, ci_minimise, bind, set_context. cbv zeta.
    unfold brent, bind, enter. cbv zeta. rewrite interval_run.
    cbn [GLOBAL_k GLOBAL_N CONFLEVEL stdout calls logged].
    match goal with |- context [brent_loop beta_ab kITMAX ?t ?s ?w0] =>
      destruct (brent_loop_searches kITMAX t s w0) as (cs & E & S);
      destruct (brent_loop beta_ab kITMAX t s w0) as [[fx xmin] w2] end.
    cbn [fst snd GLOBAL_k GLOBAL_N CONFLEVEL stdout calls] in *.
    rewrite interval_run. unfold ret. cbn [snd]. rewrite E.
    cbn [GLOBAL_k GLOBAL_N CONFLEVEL stdout calls logged].
    split; [reflexivity|].
    eexists. split; [rewrite <- !app_assoc; reflexivity|].
    intros low k' N' c' I. cbn [app] in I.
    destruct I as [I|I]; [discriminate|].
    revert low k' N' c' I. change (searches_with k N c
      ([CallInterval 0.5; CallSearchUpper 0.5 k N c] ++ cs ++ [CallInterval xmin; CallSearchUpper xmin k N c])).
    apply searches_with_app; [apply searches_with_interval|].
    apply searches_with_app; [exact S|apply searches_with_interval].
Qed.

End EfficiencyCI.

(** ** The reference primitive on concrete inputs *)

Lemma clamp01_in_bracket (v : float) : in_bracket 0 1 (clamp01 v) = true.
Proof.
  unfold clamp01. destruct (0 <=? v) eqn:A; [|reflexivity].
  destruct (v <=? 1) eqn:B; [|reflexivity].
  unfold in_bracket. now rewrite A, B.
Qed.

Lemma efficiency_ci_interval_bounds_witness :
  (0 < 2 < 2 ^ 31)%Z /\ (0 <= 1 <= 2)%Z /\
  (0 <? 0.6827) = true /\ (0.6827 <? 1) = true /\ beta_ref 0 1 1 2 = 1 /\
  let r := fst (efficiency_ci beta_ref 1 2 0.6827 w0) in
  in_bracket 0 1 (snd (fst r)) = true /\ (snd (fst r) <=? snd r) = true.
Proof.
  split; [lia|]. split; [lia|]. split; [reflexivity|]. split; [reflexivity|].
  split; [vm_compute; reflexivity|]. cbv zeta.
  destruct (efficiency_ci_interval_bounds beta_ref 1 2 0.6827 w0) as (A & B & _);
    [lia|lia|reflexivity|reflexivity|vm_compute; reflexivity|].
  split; [exact A|exact B].
Defined.

(** C1: the chain [0 <= low <= mode <= high <= 1] does not hold at the
    valid input [k = 1], [N = 2000000000], level 0.99, with a primitive
    that is 1 on [(0,1)] and stays in [[0,1]]: every abscissa the minimiser
    tries has the length 2.0 that [interval] gives when no interval starts
    there, so it stops at such a [low] and [high] is [low + 2.0], above 1,
    although [interval] finds an interval of length below 1 at [low = 0]. *)
Theorem efficiency_ci_interval_escapes :
  (forall x y k N, in_bracket 0 1 (beta_ref x y k N) = true) /\
  beta_ref 0 1 1 2000000000 = 1 /\
  (0 <? 0.99) = true /\ (0.99 <? 1) = true /\
  fst (efficiency_ci beta_ref 1 2000000000 0.99 w0)
  = (5.0000000000000003e-10, 1.9702736482332199e-10, 2.0000000001970273) /\
  (2.0000000001970273 <=? 1) = false /\
  (1.9702736482332199e-10 + 2 = 2.0000000001970273)%float /\
  fst (search_upper beta_ref 1.9702736482332199e-10 1 2000000000 0.99 w0) = (-1)%float /\
  forallb (fun u => interval_value beta_ref 1 2000000000 0.99 u =? 2)
    (evaluated (calls (snd (efficiency_ci beta_ref 1 2000000000 0.99 w0)))) = true /\
  fst (interval beta_ref 0 (mkWorld 1 2000000000 0.99 [] [])) = 3.3191751569461303e-09 /\
  (3.3191751569461303e-09 <? 1) = true.
Proof.
  split; [intros; apply clamp01_in_bracket|].
  repeat split; vm_compute; reflexivity.
Qed.

(** At [low = -1.0], outside [[0,1]], [interval] returns 2.0 although
    [search_upper] does not return the sentinel: when the primitive gives
    exactly the level on [(-1,1)], [search_upper] returns 1.0 and the
    length [1.0 - (-1.0)] is 2.0.  The reference primitive does so for
    [k = 0], [N = 5] and level 1. *)
Lemma interval_two_without_sentinel :
  in_bracket 0 1 (-1) = false /\
  beta_ref (-1) 1 0 5 = 1 /\
  fst (search_upper beta_ref (-1) 0 5 1 (mkWorld 0 5 1 [] [])) = 1 /\
  fst (search_upper beta_ref (-1) 0 5 1 (mkWorld 0 5 1 [] [])) <> (-1)%float /\
  fst (interval beta_ref (-1) (mkWorld 0 5 1 [] [])) = 2 /\
  (forall (beta_ab : float -> float -> Z -> Z -> float) (w : world),
      (beta_ab (-1) 1 (GLOBAL_k w) (GLOBAL_N w) =? CONFLEVEL w) = true ->
      fst (search_upper beta_ab (-1) (GLOBAL_k w) (GLOBAL_N w) (CONFLEVEL w) w) = 1 /\
      fst (interval beta_ab (-1) w) = 2).
Proof.
  split; [reflexivity|]. split; [vm_compute; reflexivity|].
  split; [vm_compute; reflexivity|].
  split; [intros E; vm_compute in E; discriminate E|].
  split; [vm_compute; reflexivity|].
  intros beta_ab w E.
  rewrite search_upper_run, interval_run. cbn [fst].
  rewrite interval_value_eq. cbv zeta.
  assert (S : search_upper_value beta_ab (-1) (GLOBAL_k w) (GLOBAL_N w) (CONFLEVEL w) = 1).
  { rewrite search_upper_value_eq. cbv zeta. rewrite E. reflexivity. }
  rewrite S. split; reflexivity.
Qed.

Lemma efficiency_ci_general_case_witness :
  (0 < 1 < 2)%Z /\
  fst (efficiency_ci beta_ref 1 2 0.6827 w0)
  = (double_of_int 1 / double_of_int 2,
     snd (fst (brent beta_ref 0 0.5 1 1.0e-9 (snd (set_context 1 2 0.6827 w0)))),
     snd (fst (brent beta_ref 0 0.5 1 1.0e-9 (snd (set_context 1 2 0.6827 w0))))
     + interval_value beta_ref 1 2 0.6827
         (snd (fst (brent beta_ref 0 0.5 1 1.0e-9 (snd (set_context 1 2 0.6827 w0)))))).
Proof.
  split; [lia|].
  destruct (efficiency_ci_general_case beta_ref 1 2 0.6827 w0) as (E & _ & _ & Ei); [lia|].
  cbv zeta in E, Ei. rewrite E. cbn [fst]. rewrite Ei. reflexivity.
Defined.

Lemma search_sentinel_exactly_witness :
  in_bracket 0 1 0.5 = true /\
  fst (search_upper beta_ref 0.5 1 2 0.6827 w0) = (-1)%float.
Proof.
  split; [reflexivity|].
  destruct (search_sentinel_exactly beta_ref 0.5 1 2 0.6827 w0) as (_ & [_ S] & _);
    [reflexivity|].
  apply S. vm_compute. reflexivity.
Defined.

Lemma interval_sentinel_length_witness :
  in_bracket 0 1 0.5 = true /\
  fst (interval beta_ref 0.5 (mkWorld 1 2 0.6827 [] [])) = 2 /\
  fst (search_upper beta_ref 0.5 1 2 0.6827 (mkWorld 1 2 0.6827 [] [])) = (-1)%float.
Proof.
  split; [reflexivity|].
  assert (L : fst (interval beta_ref 0.5 (mkWorld 1 2 0.6827 [] [])) = 2)
    by (vm_compute; reflexivity).
  split; [exact L|].
  destruct (interval_sentinel_length beta_ref 0.5 (mkWorld 1 2 0.6827 [] [])) as (_ & _ & S).
  apply S; [reflexivity|exact L].
Defined.

Lemma efficiency_ci_no_sentinel_witness :
  (0 <= 1 <= 2)%Z /\ (0 <? 0.6827) = true /\ (0.6827 <? 1) = true /\
  beta_ref 0 1 1 2 = 1 /\
  snd (fst (fst (efficiency_ci beta_ref 1 2 0.6827 w0))) <> (-1)%float /\
  snd (fst (efficiency_ci beta_ref 1 2 0.6827 w0)) <> (-1)%float.
Proof.
  split; [lia|]. split; [reflexivity|]. split; [reflexivity|].
  split; [vm_compute; reflexivity|].
  apply (efficiency_ci_no_sentinel beta_ref 1 2 0.6827 w0);
    [lia|reflexivity|reflexivity|vm_compute; reflexivity].
Defined.

Lemma efficiency_ci_boundary_cases_witness :
  (0 < 5 < 2 ^ 31)%Z /\
  efficiency_ci beta_ref 0 5 0.6827 w0
  = ((0, 0, fst (search_upper beta_ref 0 0 5 0.6827 w0)),
     logged [CallSearchUpper 0 0 5 0.6827] w0) /\
  efficiency_ci beta_ref 5 5 0.6827 w0
  = ((1, fst (search_lower beta_ref 1 5 5 0.6827 w0), 1),
     logged [CallSearchLower 1 5 5 0.6827] w0).
Proof.
  split; [lia|]. apply (efficiency_ci_boundary_cases beta_ref 5 0.6827 w0). lia.
Defined.

Lemma brent_too_many_iterations_witness :
  let w := mkWorld 1 2 0.5 [] [] in
  let w1 := snd (enter (CallBrent 0 0.5 1 (-1)) w) in
  never_converged beta_ref kITMAX (-1)
    (fst (brent_start beta_ref 0 0.5 1 w1)) (snd (brent_start beta_ref 0 0.5 1 w1)) = true /\
  stdout (snd (brent beta_ref 0 0.5 1 (-1) w)) = [too_many] /\
  fst (fst (brent beta_ref 0 0.5 1 (-1) w))
  = interval_value beta_ref 1 2 0.5 (snd (fst (brent beta_ref 0 0.5 1 (-1) w))).
Proof.
  cbv zeta. split; [vm_compute; reflexivity|].
  destruct (brent_too_many_iterations beta_ref 0 0.5 1 (-1) (mkWorld 1 2 0.5 [] []))
    as (A & _ & _ & B & _); [vm_compute; reflexivity|].
  split; [exact A|exact B].
Defined.

(** Two runs through the general case, the second entered between the two
    steps of the first: the first minimises under the second's context. *)
Lemma context_is_shared :
  fst (efficiency_ci beta_ref 1 2 0.5 w0)
  = (0.5, 0.32635182232017984, 0.67364817765404028) /\
  efficiency_ci beta_ref 1 2 0.5 w0 = (ci_enter 1 2 0.5 ;;; ci_minimise beta_ref 1 2) w0 /\
  let r := (ci_enter 1 2 0.5 ;;; ci_enter 1 10 0.9 ;;; ci_minimise beta_ref 1 2) w0 in
  fst r = (0.5, 0.011488255926645069, 0.3160233630583541) /\
  In (CallSearchUpper 0.5 1 10 0.9) (calls (snd r)).
Proof.
  split; [vm_compute; reflexivity|]. split; [reflexivity|]. cbv zeta.
  split; [vm_compute; reflexivity|].
  vm_compute. right. right. left. reflexivity.
Qed.

Lemma brent_stays_in_bracket_witness :
  in_bracket 0 1 0 = true /\ in_bracket 0 1 1 = true /\
  in_bracket 0 1 0.5 = true /\ in_bracket 0 1 1.0e-9 = true /\
  in_bracket 0 1 (snd (fst (brent beta_ref 0 0.5 1 1.0e-9 (mkWorld 1 2 0.6827 [] [])))) = true.
Proof.
  repeat (split; [reflexivity|]).
  destruct (brent_stays_in_bracket beta_ref 0 0.5 1 1.0e-9 (mkWorld 1 2 0.6827 [] []))
    as (_ & B & _); [reflexivity|reflexivity|reflexivity|reflexivity|].
  exact B.
Defined.

(** [bx] lies between [ax] and [cx], and [brent] leaves the bracket: with
    the bracket [[-1.7e308, 1.7e308]] and tolerance 1e-9 the first golden
    step overflows, the second abscissa is minus infinity and the returned
    [*xmin] is not a number; with the bracket [[0,1]] and a tolerance that
    is not a number, or an infinite one at [bx = 0], the trial points are
    not numbers. *)
Lemma brent_escapes_bracket :
  let wide := brent beta_ref (-1.7e308) 1.0e308 1.7e308 1.0e-9 (mkWorld 1 2 0.5 [] []) in
  in_bracket (-1.7e308) 1.7e308 1.0e308 = true /\
  nth 1 (evaluated (calls (snd wide))) 0 = neg_infinity /\
  in_bracket (-1.7e308) 1.7e308 neg_infinity = false /\
  in_bracket (-1.7e308) 1.7e308 (snd (fst wide)) = false /\
  in_bracket 0 1 0.5 = true /\
  forallb (in_bracket 0 1)
    (evaluated (calls (snd (brent beta_ref 0 0.5 1 nan (mkWorld 1 2 0.5 [] []))))) = false /\
  in_bracket 0 1 0 = true /\
  forallb (in_bracket 0 1)
    (evaluated (calls (snd (brent beta_ref 0 0 1 infinity (mkWorld 1 2 0.5 [] []))))) = false.
Proof.
  cbv zeta. repeat split; vm_compute; reflexivity.
Qed.

(** C7: with [N = 0] the call returns exactly (0.5, 0.0, 1.0) for every [k]
    and confidence level, whatever [beta_ab] is, and leaves the state as it
    found it: no routine is entered, nothing is printed, the context is not
    written. *)
Theorem efficiency_ci_no_entries :
  forall beta_ab (k : Z) (c : float) (w : world),
    efficiency_ci beta_ab k 0 c w = ((0.5, 0.0, 1.0), w).
Proof.
  intros. reflexivity.
Qed.

End Results.

(** * Further properties of the routines *)

Section Behaviour.
Local Open Scope float_scope.

Section Further.
Variable beta_ab : float -> float -> Z -> Z -> float.

(** ** Where the searches and [interval] land *)

(** X1: from an anchor in [[0,1]], [search_upper] returns the sentinel -1.0
    or a number between the anchor and 1. *)
Theorem search_upper_range (low : float) (k N : Z) (c : float) (w : world) :
  in_bracket 0 1 low = true ->
  let r := fst (search_upper beta_ab low k N c w) in
  r = (-1)%float \/ in_bracket low 1 r = true.
Proof.
  intros B. cbv zeta. apply in_bracket_01 in B.
  rewrite search_upper_run. cbn [fst].
  destruct (search_upper_value_cases beta_ab low k N c B) as [E|W]; [now left|right].
  destruct B as [Fl _].
  assert (F1 : finite 1 = true) by reflexivity.
  apply (within_in_bracket low 1 _ Fl F1).
  apply (within_weaken (val low) 1); trivial; [apply Qle_refl|].
  rewrite val_1. apply Qle_refl.
Qed.

(** X2: from an anchor in [[0,1]], [search_lower] returns the sentinel -1.0
    or a number between 0 and the anchor. *)
Theorem search_lower_range (high : float) (k N : Z) (c : float) (w : world) :
  in_bracket 0 1 high = true ->
  let r := fst (search_lower beta_ab high k N c w) in
  r = (-1)%float \/ in_bracket 0 high r = true.
Proof.
  intros B. cbv zeta. apply in_bracket_01 in B.
  rewrite search_lower_run. cbn [fst].
  destruct (search_lower_value_cases beta_ab high k N c B) as [E|W]; [now left|right].
  destruct B as [Fh _].
  assert (F0 : finite 0 = true) by reflexivity.
  apply (within_in_bracket 0 high _ F0 Fh).
  apply (within_weaken 0 (val high)); trivial; [|apply Qle_refl].
  rewrite val_0. apply Qle_refl.
Qed.

Lemma interval_value_range (k N : Z) (c : float) (low : float) :
  within 0 1 low ->
  let len := interval_value beta_ab k N c low in
  len = 2 \/ within 0 1 len.
Proof.
  intros [Fl Bl]. cbv zeta. rewrite interval_value_eq. cbv zeta.
  destruct (search_upper_value_cases beta_ab low k N c (conj Fl Bl)) as [E|[Fh Bh]].
  - left. rewrite E. reflexivity.
  - right. set (su := search_upper_value beta_ab low k N c) in *.
    rewrite eqb_m1_false by (trivial; lra).
    pose proof (sub_Rounds su low Fh Fl) as R1.
    destruct (Rounds_small _ _ R1) as [Fd _]; [split; lra|].
    assert (D0 : (val 0 <= val (su - low))%Q)
      by (apply (Rounds_ge _ _ 0 R1 Fd eq_refl); rewrite val_0; lra).
    assert (D1 : (val (su - low) <= val 1)%Q)
      by (apply (Rounds_le _ _ 1 R1 Fd eq_refl); rewrite val_1; lra).
    rewrite val_0 in D0. rewrite val_1 in D1. split; [trivial|lra].
Qed.

(** X3: for a lower edge in [[0,1]], [interval] returns 2.0 or a List.length in
    [[0,1]], and in the second case the interval it measures ends in
    [[low, 1]]. *)
Theorem interval_range (low : float) (w : world) :
  in_bracket 0 1 low = true ->
  let len := fst (interval beta_ab low w) in
  len = 2 \/ (in_bracket 0 1 len = true /\ in_bracket low 1 (low + len) = true).
Proof.
  intros B. cbv zeta. apply in_bracket_01 in B.
  rewrite interval_run. cbn [fst].
  set (k := GLOBAL_k w). set (N := GLOBAL_N w). set (c := CONFLEVEL w).
  destruct (interval_value_range k N c low B) as [E|W]; [now left|right].
  split; [now apply within_01_in_bracket|].
  destruct (high_of_low beta_ab k N c low B) as (Fh & Hl & Hu).
  destruct B as [Fl Bl].
  assert (F1 : finite 1 = true) by reflexivity.
  apply (within_in_bracket low 1 _ Fl F1).
  split; [trivial|]. split; [trivial|]. rewrite val_1. apply Hu.
  intros E. pose proof (interval_value_eq beta_ab k N c low) as IE. cbv zeta in IE.
  rewrite E in IE. change (-1 =? -1) with true in IE. cbv iota in IE.
  destruct W as [_ [_ W1]]. rewrite IE, val_2 in W1. lra.
Qed.

(** ** The branch taken when [N], [k] and [N - k] are not zero *)

(** The branch does not look at the order of [k] and [N]. *)
Lemma general_branch_run (k N : Z) (c : float) (w : world) :
  N <> 0%Z -> k <> 0%Z -> k <> N ->
  let low := snd (fst (brent beta_ab 0 0.5 1 1.0e-9 (snd (set_context k N c w)))) in
  fst (efficiency_ci beta_ab k N c w)
  = (double_of_int k / double_of_int N, low, low + interval_value beta_ab k N c low)
  /\ within 0 1 low.
Proof.
  intros HN Hk0 HkN. cbv zeta. set (w1 := snd (set_context k N c w)). split.
  - unfold efficiency_ci.
    destruct (Z.eqb_spec 0 N) as [|_]; [congruence|]. cbv zeta.
    destruct (Z.eqb_spec k 0) as [|_]; [congruence|].
    destruct (Z.eqb_spec k N) as [|_]; [congruence|].
    unfold bind. change (set_context k N c w) with (tt, w1). cbv beta iota.
    pose proof (general_case_length beta_ab k N c w) as L. cbv zeta in L. fold w1 in L.
    destruct (brent beta_ab 0 0.5 1 1.0e-9 w1) as [[fx xmin] w2]. cbn [fst snd] in *.
    specialize (L xmin). destruct (interval beta_ab xmin w2) as [len w3].
    cbn [fst] in L. subst len. reflexivity.
  - destruct (brent_run_within beta_ab 0 0.5 1 1.0e-9 w1) as (cs & _ & _ & E3).
    { split; [reflexivity|]. vm_compute. split; discriminate. }
    { split; [reflexivity|]. vm_compute. split; discriminate. }
    { split; [reflexivity|]. vm_compute. split; discriminate. }
    { split; [reflexivity|]. vm_compute. split; discriminate. }
    change (if 0 <? 1 then 0 else 1) with 0 in *.
    change (if gtb 0 1 then 0 else 1) with 1 in *.
    apply (within_weaken (val 0) (val 1)); trivial.
    + rewrite val_0. apply Qle_refl.
    + rewrite val_1. apply Qle_refl.
Qed.

(** X4: [efficiency_ci] writes the context only in the branch that
    minimises: after the call the triple is [(k, N, conflevel)] when none
    of [N], [k] and [N - k] is zero, and what it was before otherwise;
    [brent], [interval] and the two searches return with the triple they
    found. *)
Theorem efficiency_ci_context (k N : Z) (c : float) (w : world) :
  let w' := snd (efficiency_ci beta_ab k N c w) in
  (GLOBAL_k w', GLOBAL_N w', CONFLEVEL w')
  = (if (0 =? N)%Z || (k =? 0)%Z || (k =? N)%Z
     then (GLOBAL_k w, GLOBAL_N w, CONFLEVEL w) else (k, N, c)) /\
  (forall ax bx cx tol, keeps_context (brent beta_ab ax bx cx tol)) /\
  (forall low, keeps_context (interval beta_ab low)) /\
  (forall low k' N' c', keeps_context (search_upper beta_ab low k' N' c')) /\
  (forall high k' N' c', keeps_context (search_lower beta_ab high k' N' c')).
Proof.
  cbv zeta. split; [|split; [intros; apply keeps_brent|split; [intros; apply keeps_interval|
    split; [intros; apply keeps_search_upper|
            intros high k' N' c' w1; rewrite search_lower_run; now cbn]]]].
  unfold efficiency_ci.
  destruct (0 =? N)%Z; [reflexivity|]. cbv zeta.
  destruct (k =? 0)%Z.
  { unfold bind. rewrite search_upper_run. reflexivity. }
  destruct (k =? N)%Z.
  { unfold bind. rewrite search_lower_run. reflexivity. }
  cbn [orb]. unfold bind.
  change (set_context k N c w) with (tt, snd (set_context k N c w)). cbv beta iota.
  pose proof (general_case_context beta_ab k N c w) as G. cbv zeta in G.
  destruct (brent beta_ab 0 0.5 1 1.0e-9 (snd (set_context k N c w))) as [[fx xmin] w2].
  cbn [fst snd] in *. rewrite interval_run. cbn [snd logged GLOBAL_k GLOBAL_N CONFLEVEL].
  exact G.
Qed.

(** X5: the sentinel reaches the caller only from the two searches that
    [efficiency_ci] runs directly: with [k = 0], [high] is -1.0 exactly
    when [beta_ab(0,1,0,N)] compares below [conflevel]; with [k = N], [low]
    is -1.0 exactly when [beta_ab(0,1,N,N)] does; in the minimising branch
    neither is -1.0, whatever the primitive returns. *)
Theorem efficiency_ci_sentinel_exactly (k N : Z) (c : float) (w : world) :
  N <> 0%Z ->
  let r := fst (efficiency_ci beta_ab k N c w) in
  let low := snd (fst r) in
  let high := snd r in
  (k = 0%Z ->
     low <> (-1)%float /\ (high = (-1)%float <-> (beta_ab 0 1 0 N <? c) = true)) /\
  (k = N ->
     high <> (-1)%float /\ (low = (-1)%float <-> (beta_ab 0 1 N N <? c) = true)) /\
  (k <> 0%Z -> k <> N -> low <> (-1)%float /\ high <> (-1)%float).
Proof.
  intros HN. cbv zeta.
  assert (N1 : (1 : float) <> (-1)%float) by (apply nonneg_not_m1; rewrite val_1; lra).
  assert (N0 : (0 : float) <> (-1)%float) by (apply nonneg_not_m1; rewrite val_0; lra).
  split; [|split].
  - intros ->. rewrite efficiency_ci_k0 by trivial. cbn [fst snd]. split; [exact N0|].
    pose proof (search_upper_value_spec beta_ab 0 0 N c (within_0 1 ltac:(lra))) as CU.
    cbv zeta in CU.
    destruct CU as [[E1 V]|[(E1 & E2 & V)|(E1 & E2 & [F Bd])]]; rewrite ?V.
    + split; [intros X; now elim N1|intros L].
      apply ltb_not_eqb in L. congruence.
    + split; trivial.
    + split; [intros X; exfalso; revert X; apply nonneg_not_m1|congruence].
      rewrite val_0 in Bd. lra.
  - intros ->. rewrite efficiency_ci_kN by trivial. cbn [fst snd]. split; [exact N1|].
    pose proof (search_lower_value_spec beta_ab 1 N N c (within_1 0 ltac:(lra))) as CL.
    cbv zeta in CL.
    destruct CL as [[E1 V]|[(E1 & E2 & V)|(E1 & E2 & [F Bd])]]; rewrite ?V.
    + split; [intros X; now elim N0|intros L].
      apply ltb_not_eqb in L. congruence.
    + split; trivial.
    + split; [intros X; exfalso; revert X; apply nonneg_not_m1; lra|congruence].
  - intros Hk0 HkN.
    destruct (general_branch_run k N c w HN Hk0 HkN) as [E Wlow]. cbv zeta in E, Wlow.
    rewrite E. cbn [fst snd].
    destruct (high_of_low beta_ab k N c _ Wlow) as (Fh & Hl & _).
    destruct Wlow as [Fl Bl].
    split; apply nonneg_not_m1; lra.
Qed.

(** X6: in the minimising branch the caller can tell that no interval was
    found: [high] is above 1 exactly when [search_upper] returns the
    sentinel at the returned [low], and [high] is then [low + 2.0]. *)
Theorem efficiency_ci_infeasible (k N : Z) (c : float) (w : world) :
  N <> 0%Z -> k <> 0%Z -> k <> N ->
  let r := fst (efficiency_ci beta_ab k N c w) in
  let low := snd (fst r) in
  let high := snd r in
  let edge := fst (search_upper beta_ab low k N c w) in
  ((1 <? high) = true <-> edge = (-1)%float) /\
  (edge = (-1)%float -> high = low + 2).
Proof.
  intros HN Hk0 HkN.
  destruct (general_branch_run k N c w HN Hk0 HkN) as [E Wlow]. cbv zeta in E, Wlow.
  cbv zeta. rewrite E. cbn [fst snd].
  set (low := snd (fst (brent beta_ab 0 0.5 1 1.0e-9 (snd (set_context k N c w))))) in *.
  rewrite search_upper_run. cbn [fst].
  destruct (high_of_low beta_ab k N c low Wlow) as (Fh & Hl & Hu). cbv zeta in Fh, Hl, Hu.
  assert (F1 : finite 1 = true) by reflexivity.
  assert (S2 : search_upper_value beta_ab low k N c = (-1)%float ->
               interval_value beta_ab k N c low = 2).
  { intros X. rewrite interval_value_eq. cbv zeta. rewrite X. reflexivity. }
  split; [split|].
  - intros Gt. apply (ltb_val 1 _ F1 Fh) in Gt. rewrite val_1 in Gt.
    destruct (search_upper_value_cases beta_ab low k N c Wlow) as [X|[Fs Bs]]; [exact X|].
    exfalso. assert (Hn : search_upper_value beta_ab low k N c <> (-1)%float)
      by (apply nonneg_not_m1; destruct Wlow; lra).
    specialize (Hu Hn). lra.
  - intros X. apply (ltb_val 1 _ F1 Fh). rewrite val_1.
    rewrite (S2 X) in *. destruct Wlow as [Fl Bl].
    assert (F2 : finite 2 = true) by reflexivity.
    pose proof (add_Rounds low 2 Fl F2) as R. pose proof val_2 as V2.
    assert (G : (val 2 <= val (low + 2))%Q) by (apply (Rounds_ge _ _ _ R); trivial; lra).
    lra.
  - intros X. now rewrite (S2 X).
Qed.

(** X7: when an upper edge exists at the returned [low], the [high] that
    the minimising branch returns is that edge up to two roundings: it
    differs from what [search_upper] returns by at most [2^-52]. *)
Theorem efficiency_ci_high_near_edge (k N : Z) (c : float) (w : world) :
  N <> 0%Z -> k <> 0%Z -> k <> N ->
  let r := fst (efficiency_ci beta_ab k N c w) in
  let low := snd (fst r) in
  let high := snd r in
  let edge := fst (search_upper beta_ab low k N c w) in
  edge <> (-1)%float ->
  (Qabs (val high - val edge) <= 1 # 4503599627370496)%Q.
Proof.
  intros HN Hk0 HkN.
  destruct (general_branch_run k N c w HN Hk0 HkN) as [E Wlow]. cbv zeta in E, Wlow.
  cbv zeta. rewrite E. cbn [fst snd].
  set (low := snd (fst (brent beta_ab 0 0.5 1 1.0e-9 (snd (set_context k N c w))))) in *.
  rewrite search_upper_run. cbn [fst]. intros Hn.
  rewrite interval_value_eq. cbv zeta.
  destruct (search_upper_value_cases beta_ab low k N c Wlow) as [X|[Fs Bs]]; [now elim Hn|].
  set (su := search_upper_value beta_ab low k N c) in *.
  destruct Wlow as [Fl Bl].
  rewrite eqb_m1_false by (trivial; lra).
  assert (F1 : finite 1 = true) by reflexivity.
  pose proof (sub_Rounds su low Fs Fl) as R1.
  destruct (Rounds_small _ _ R1) as [Fd _]; [split; lra|].
  assert (D0 : (val 0 <= val (su - low))%Q)
    by (apply (Rounds_ge _ _ 0 R1 Fd eq_refl); rewrite val_0; lra).
  assert (D1 : (val (su - low) <= val 1)%Q)
    by (apply (Rounds_le _ _ _ R1); trivial; rewrite val_1; lra).
  rewrite val_0 in D0. rewrite val_1 in D1.
  pose proof (add_Rounds low (su - low) Fl Fd) as R2.
  destruct (Rounds_small _ _ R2) as [Fr _]; [split; lra|].
  assert (U2 : (val (low + (su - low)) <= val 1)%Q).
  { destruct (high_of_low beta_ab k N c low (conj Fl Bl)) as (_ & _ & Hu).
    cbv zeta in Hu. rewrite interval_value_eq in Hu. cbv zeta in Hu. fold su in Hu.
    rewrite eqb_m1_false in Hu by (trivial; lra). rewrite val_1. now apply Hu. }
  rewrite val_1 in U2.
  assert (L2 : (val low <= val (low + (su - low)))%Q)
    by (apply (Rounds_ge _ _ _ R2); trivial; lra).
  apply Qabs_case; intros _.
  - (* high >= edge *)
    destruct (Qlt_le_dec (val su - val low) 1) as [Lt|Ge].
    + destruct (Rounds_below1 _ _ R1) as [_ [_ B1]]; [split; lra|].
      destruct (Qlt_le_dec (val low + val (su - low)) 2) as [Lt2|Ge2].
      * destruct (Rounds_below2 _ _ R2) as [_ [_ B2]]; [split; lra|]. lra.
      * lra.
    + lra.
  - destruct (Qlt_le_dec (val su - val low) 1) as [Lt|Ge].
    + destruct (Rounds_below1 _ _ R1) as [_ [B1 _]]; [split; lra|].
      destruct (Qlt_le_dec (val low + val (su - low)) 2) as [Lt2|Ge2].
      * destruct (Rounds_below2 _ _ R2) as [_ [B2 _]]; [split; lra|]. lra.
      * lra.
    + assert (X1 : (val 1 <= val (su - low))%Q)
        by (apply (Rounds_ge _ _ _ R1); trivial; rewrite val_1; lra).
      rewrite val_1 in X1.
      assert (Z0 : (val low == 0)%Q) by lra.
      assert (X2 : (val 1 <= val (low + (su - low)))%Q)
        by (apply (Rounds_ge _ _ _ R2); trivial; rewrite val_1; lra).
      rewrite val_1 in X2. lra.
Qed.

(** ** What [brent] returns and what it costs *)

Lemma brent_loop_S n tol s w :
  brent_loop beta_ab (S n) tol s w
  = if brent_converged tol s then ((br_fx s, br_x s), w)
    else let (s', w') := brent_pass beta_ab tol s w in brent_loop beta_ab n tol s' w'.
Proof.
  cbn [brent_loop]. destruct (brent_converged tol s); [reflexivity|].
  unfold brent_pass. destruct (brent_trial tol s) as [[d e] u].
  unfold bind. destruct (interval beta_ab u w) as [fu w1]. reflexivity.
Qed.

Lemma brent_loop_best n : forall tol s w cs,
  best_so_far beta_ab (GLOBAL_k w) (GLOBAL_N w) (CONFLEVEL w) s cs ->
  exists cs1 s',
    fst (brent_loop beta_ab n tol s w) = (br_fx s', br_x s') /\
    calls (snd (brent_loop beta_ab n tol s w)) = calls w ++ cs1 /\
    best_so_far beta_ab (GLOBAL_k w) (GLOBAL_N w) (CONFLEVEL w) s' (cs ++ cs1).
Proof.
  induction n as [|n IH]; intros tol s w cs B.
  - exists [], s. cbn. rewrite !app_nil_r. auto.
  - rewrite brent_loop_S. destruct (brent_converged tol s).
    { exists [], s. cbn. rewrite !app_nil_r. auto. }
    destruct (brent_pass_best beta_ab tol s w cs B) as (cs1 & E1 & B1). cbv zeta in E1, B1.
    destruct (brent_pass beta_ab tol s w) as [s1 w1]. cbn [fst snd] in E1, B1. subst w1.
    destruct (IH tol s1 (logged cs1 w) (cs ++ cs1) B1) as (cs2 & s2 & E2 & E3 & B2).
    exists (cs1 ++ cs2), s2. split; [exact E2|]. split.
    + rewrite E3. cbn [logged calls]. now rewrite app_assoc.
    + rewrite app_assoc. exact B2.
Qed.

Lemma brent_unfold (ax bx cx tol : float) (w : world) :
  let fx := interval_value beta_ab (GLOBAL_k w) (GLOBAL_N w) (CONFLEVEL w) bx in
  brent beta_ab ax bx cx tol w
  = brent_loop beta_ab kITMAX tol
      (mkBrent (if ax <? cx then ax else cx) (if gtb ax cx then ax else cx)
               0 0 bx bx bx fx fx fx)
      (logged [CallBrent ax bx cx tol; CallInterval bx;
               CallSearchUpper bx (GLOBAL_k w) (GLOBAL_N w) (CONFLEVEL w)] w).
Proof.
  cbv zeta. unfold brent, bind, enter. cbv zeta. rewrite interval_run.
  unfold logged. cbn [GLOBAL_k GLOBAL_N CONFLEVEL stdout calls].
  rewrite <- app_assoc. reflexivity.
Qed.

Lemma brent_start_unfold (ax bx cx tol : float) (w : world) :
  let fx := interval_value beta_ab (GLOBAL_k w) (GLOBAL_N w) (CONFLEVEL w) bx in
  brent_start beta_ab ax bx cx (snd (enter (CallBrent ax bx cx tol) w))
  = (mkBrent (if ax <? cx then ax else cx) (if gtb ax cx then ax else cx)
             0 0 bx bx bx fx fx fx,
     logged [CallBrent ax bx cx tol; CallInterval bx;
             CallSearchUpper bx (GLOBAL_k w) (GLOBAL_N w) (CONFLEVEL w)] w).
Proof.
  cbv zeta. unfold brent_start, bind, enter, ret. cbv zeta. rewrite interval_run.
  unfold logged. cbn [snd GLOBAL_k GLOBAL_N CONFLEVEL stdout calls].
  rewrite <- app_assoc. reflexivity.
Qed.

(** X8: whether or not it converges, [brent] returns the objective at the
    point it stores in [*xmin]; that point is one of the abscissas it
    evaluated, and the objective is at none of them strictly smaller. *)
Theorem brent_returns_best (ax bx cx tol : float) (w : world) :
  let r := brent beta_ab ax bx cx tol w in
  let fx := fst (fst r) in
  let xmin := snd (fst r) in
  let objective := interval_value beta_ab (GLOBAL_k w) (GLOBAL_N w) (CONFLEVEL w) in
  fx = objective xmin /\
  exists cs,
    calls (snd r) = calls w ++ cs /\
    In xmin (evaluated cs) /\
    forall u, In u (evaluated cs) -> (objective u <? fx) = false.
Proof.
  cbv zeta. rewrite brent_unfold.
  set (k := GLOBAL_k w). set (N := GLOBAL_N w). set (c := CONFLEVEL w).
  set (s0 := mkBrent _ _ _ _ _ _ _ _ _ _).
  set (w2 := logged _ w).
  assert (B0 : best_so_far beta_ab (GLOBAL_k w2) (GLOBAL_N w2) (CONFLEVEL w2) s0
                 [CallInterval bx; CallSearchUpper bx k N c]).
  { split; [reflexivity|]. split; [now left|]. intros u [<-|[]]. apply ltb_irrefl. }
  destruct (brent_loop_best kITMAX tol s0 w2 _ B0) as (cs1 & s' & E1 & E2 & Bf & Bx & Bm).
  change (GLOBAL_k w2) with k in *. change (GLOBAL_N w2) with N in *.
  change (CONFLEVEL w2) with c in *.
  rewrite E1, E2. cbn [fst snd]. split; [exact Bf|].
  exists ([CallBrent ax bx cx tol] ++ [CallInterval bx; CallSearchUpper bx k N c] ++ cs1).
  split; [subst w2; cbn [calls logged]; rewrite <- !app_assoc; reflexivity|].
  rewrite evaluated_app. cbn [evaluated flat_map app].
  split; [exact Bx|exact Bm].
Qed.

Lemma brent_loop_effort n : forall tol s w,
  exists cs1,
    calls (snd (brent_loop beta_ab n tol s w)) = calls w ++ cs1 /\
    (List.length (evaluated cs1) <= n)%nat /\
    (never_converged beta_ab n tol s w = true -> List.length (evaluated cs1) = n) /\
    stdout (snd (brent_loop beta_ab n tol s w))
    = if never_converged beta_ab n tol s w then stdout w ++ [too_many] else stdout w.
Proof.
  induction n as [|n IH]; intros tol s w.
  - exists []. cbn. rewrite app_nil_r. auto.
  - rewrite brent_loop_S. cbn [never_converged].
    destruct (brent_converged tol s).
    { exists []. cbn. rewrite app_nil_r. repeat split; trivial; [lia|discriminate]. }
    cbn [negb andb].
    assert (P : exists u, snd (brent_pass beta_ab tol s w)
                = logged [CallInterval u;
                          CallSearchUpper u (GLOBAL_k w) (GLOBAL_N w) (CONFLEVEL w)] w).
    { unfold brent_pass. destruct (brent_trial tol s) as [[d e] u]. exists u.
      unfold bind. rewrite interval_run. reflexivity. }
    destruct P as (u & P).
    destruct (brent_pass beta_ab tol s w) as [s1 w1]. cbn [snd] in P. subst w1.
    destruct (IH tol s1 (logged [CallInterval u;
                 CallSearchUpper u (GLOBAL_k w) (GLOBAL_N w) (CONFLEVEL w)] w))
      as (cs2 & E1 & E2 & E3 & E4).
    exists ([CallInterval u; CallSearchUpper u (GLOBAL_k w) (GLOBAL_N w) (CONFLEVEL w)] ++ cs2).
    rewrite E1, E4. rewrite evaluated_app. cbn [evaluated flat_map app List.length logged calls stdout].
    split; [now rewrite <- app_assoc|]. split; [lia|]. split; [|reflexivity].
    intros H. rewrite (E3 H). reflexivity.
Qed.

(** X9: [brent] evaluates [interval] at most 101 times, once at [bx] and
    once in each pass; it prints its message, once, exactly when the
    convergence test has failed at the head of all 100 passes, and has then
    made all 101 evaluations; otherwise it prints nothing. *)
Theorem brent_effort (ax bx cx tol : float) (w : world) :
  let w1 := snd (enter (CallBrent ax bx cx tol) w) in
  let s0 := fst (brent_start beta_ab ax bx cx w1) in
  let w2 := snd (brent_start beta_ab ax bx cx w1) in
  let r := brent beta_ab ax bx cx tol w in
  stdout (snd r)
  = (if never_converged beta_ab kITMAX tol s0 w2 then stdout w ++ [too_many] else stdout w) /\
  exists cs,
    calls (snd r) = calls w ++ cs /\
    (List.length (evaluated cs) <= 101)%nat /\
    (never_converged beta_ab kITMAX tol s0 w2 = true -> List.length (evaluated cs) = 101%nat).
Proof.
  cbv zeta. rewrite brent_unfold, brent_start_unfold. cbn [fst snd].
  set (s0 := mkBrent _ _ _ _ _ _ _ _ _ _).
  set (w2 := logged _ w).
  destruct (brent_loop_effort kITMAX tol s0 w2) as (cs1 & E1 & E2 & E3 & E4).
  rewrite E4, E1. subst w2. cbn [stdout calls logged].
  split; [reflexivity|].
  exists ([CallBrent ax bx cx tol] ++
          [CallInterval bx; CallSearchUpper bx (GLOBAL_k w) (GLOBAL_N w) (CONFLEVEL w)] ++ cs1).
  split; [rewrite <- !app_assoc; reflexivity|].
  rewrite !evaluated_app. cbn [evaluated flat_map app List.length].
  unfold kITMAX in *. split; [lia|]. intros H. rewrite (E3 H). reflexivity.
Qed.

Lemma brent_cost (ax bx cx tol : float) (w : world) :
  let r := brent beta_ab ax bx cx tol w in
  (stdout (snd r) = stdout w \/ stdout (snd r) = stdout w ++ [too_many]) /\
  exists cs, calls (snd r) = calls w ++ cs /\ (List.length (evaluated cs) <= 101)%nat.
Proof.
  cbv zeta. rewrite brent_unfold.
  set (s0 := mkBrent _ _ _ _ _ _ _ _ _ _).
  set (w2 := logged _ w).
  destruct (brent_loop_effort kITMAX tol s0 w2) as (cs1 & E1 & E2 & _ & E4).
  rewrite E4, E1. subst w2. cbn [stdout calls logged]. split.
  - destruct (never_converged _ _ _ _ _); [now right|now left].
  - exists ([CallBrent ax bx cx tol] ++
            [CallInterval bx; CallSearchUpper bx (GLOBAL_k w) (GLOBAL_N w) (CONFLEVEL w)] ++ cs1).
    split; [rewrite <- !app_assoc; reflexivity|].
    rewrite !evaluated_app. cbn [evaluated flat_map app List.length].
    unfold kITMAX in *. lia.
Qed.

(** X10: a call of [efficiency_ci] evaluates [interval] at most 102 times
    and prints at most the one message of [brent]; when one of [N], [k]
    and [N - k] is zero it evaluates [interval] not at all and prints
    nothing. *)
Theorem efficiency_ci_effort (k N : Z) (c : float) (w : world) :
  let r := efficiency_ci beta_ab k N c w in
  (stdout (snd r) = stdout w \/ stdout (snd r) = stdout w ++ [too_many]) /\
  (exists cs, calls (snd r) = calls w ++ cs /\ (List.length (evaluated cs) <= 102)%nat) /\
  ((0 =? N)%Z || (k =? 0)%Z || (k =? N)%Z = true ->
     stdout (snd r) = stdout w /\
     exists cs, calls (snd r) = calls w ++ cs /\ evaluated cs = []).
Proof.
  cbv zeta. unfold efficiency_ci.
  destruct (0 =? N)%Z.
  { cbn. split; [now left|]. split; [exists []|split; [reflexivity|exists []]];
      rewrite app_nil_r; split; trivial; cbn; lia. }
  cbv zeta. destruct (k =? 0)%Z.
  { unfold bind. rewrite search_upper_run. cbn.
    split; [now left|]. split; [eexists; split; [reflexivity|cbn; lia]|].
    intros _. split; [reflexivity|]. eexists; split; reflexivity. }
  destruct (k =? N)%Z.
  { unfold bind. rewrite search_lower_run. cbn.
    split; [now left|]. split; [eexists; split; [reflexivity|cbn; lia]|].
    intros _. split; [reflexivity|]. eexists; split; reflexivity. }
  cbn [orb]. split; [|split; [|discriminate]].
  - unfold bind. change (set_context k N c w) with (tt, snd (set_context k N c w)).
    cbv beta iota.
    destruct (brent_cost 0 0.5 1 1.0e-9 (snd (set_context k N c w))) as (E & _).
    cbv zeta in E.
    destruct (brent beta_ab 0 0.5 1 1.0e-9 (snd (set_context k N c w))) as [[fx xmin] w2].
    cbn [fst snd] in *. rewrite interval_run. unfold logged. cbn [snd stdout].
    cbn [set_context snd stdout] in E. exact E.
  - unfold bind. change (set_context k N c w) with (tt, snd (set_context k N c w)).
    cbv beta iota.
    destruct (brent_cost 0 0.5 1 1.0e-9 (snd (set_context k N c w))) as (_ & cs & E1 & E2).
    cbv zeta in E1.
    destruct (brent beta_ab 0 0.5 1 1.0e-9 (snd (set_context k N c w))) as [[fx xmin] w2].
    cbn [fst snd] in *. rewrite interval_run. unfold logged. cbn [snd calls]. rewrite E1.
    cbn [set_context snd calls].
    eexists. split; [rewrite <- app_assoc; reflexivity|].
    rewrite evaluated_app. cbn [evaluated flat_map app]. rewrite length_app. cbn [List.length]. lia.
Qed.

(** ** How close the bisections come *)

Lemma halved_50 : (halved 50 1 <= 1 # 281474976710656)%Q.
Proof. apply Qle_bool_iff. vm_compute. reflexivity. Qed.

Lemma midpoint_error a b :
  finite a = true -> finite b = true ->
  (0 <= val a)%Q -> (val a <= val b)%Q -> (val b <= 1)%Q ->
  ((1 # 2) * (val a + val b) - (1 # 1125899906842624) <= val (0.5 * (a + b))
   <= (1 # 2) * (val a + val b) + (1 # 1125899906842624))%Q.
Proof.
  intros Fa Fb A0 AB B1.
  pose proof (add_Rounds a b Fa Fb) as R1.
  destruct (Rounds_small _ _ R1) as [Fs Bs]; [split; lra|]. unfold eps in Bs.
  pose proof (mul_Rounds_c 0.5 (1 # 2) (a + b) eq_refl val_half Fs) as R2.
  destruct (Rounds_small _ _ R2) as [Fm Bm]; [split; lra|].
  unfold eps in *. lra.
Qed.

Lemma midpoint_error' a b :
  finite a = true -> finite b = true ->
  (0 <= val a)%Q -> (val a <= val b)%Q -> (val b <= 1)%Q ->
  ((1 # 2) * (val a + val b) - (1 # 1125899906842624) <= val (0.5 * (b + a))
   <= (1 # 2) * (val a + val b) + (1 # 1125899906842624))%Q.
Proof.
  intros Fa Fb A0 AB B1.
  pose proof (add_Rounds b a Fb Fa) as R1.
  destruct (Rounds_small _ _ R1) as [Fs Bs]; [split; lra|]. unfold eps in Bs.
  pose proof (mul_Rounds_c 0.5 (1 # 2) (b + a) eq_refl val_half Fs) as R2.
  destruct (Rounds_small _ _ R2) as [Fm Bm]; [split; lra|].
  unfold eps in *. lra.
Qed.

Lemma search_upper_loop_bracket n : forall low k N c tl th test W,
  within 0 1 tl -> within 0 1 th -> (val tl <= val th)%Q -> (val th - val tl <= W)%Q ->
  test = tl \/ test = th ->
  tl = low \/ gtb (beta_ab low tl k N) c = false ->
  th = 1 \/ gtb (beta_ab low th k N) c = true ->
  let t := search_upper_loop beta_ab n low k N c tl th test in
  (fabs (beta_ab low t k N - c) <=? 1.0e-15) = true \/
  exists lo hi,
    within 0 1 lo /\ within 0 1 hi /\
    (val tl <= val lo)%Q /\ (val lo <= val hi)%Q /\ (val hi <= val th)%Q /\
    (val hi - val lo <= halved n W)%Q /\
    (t = lo \/ t = hi) /\
    (lo = low \/ gtb (beta_ab low lo k N) c = false) /\
    (hi = 1 \/ gtb (beta_ab low hi k N) c = true).
Proof.
  induction n as [|n IH]; intros low k N c tl th test W Wl Wh Le Wd Ht Pl Ph; cbv zeta.
  - right. exists tl, th. cbn [search_upper_loop halved].
    repeat split; trivial; try apply Wl; try apply Wh; apply Qle_refl.
  - cbn [search_upper_loop]. cbv zeta.
    set (m := 0.5 * (tl + th)). set (i := beta_ab low m k N).
    destruct (fabs (i - c) <=? 1.0e-15) eqn:Brk; [left; exact Brk|].
    destruct Wl as [Fl [Bl0 Bl1]]. destruct Wh as [Fh [Bh0 Bh1]].
    destruct (midpoint_between tl th Fl Fh Bl0 Le Bh1) as [Fm Bm]. fold m in Fm, Bm.
    pose proof (midpoint_error tl th Fl Fh Bl0 Le Bh1) as Em. fold m in Em.
    assert (Wm : within 0 1 m) by (split; [trivial|lra]).
    assert (D1 : (val m - val tl <= (1 # 2) * W + (1 # 1125899906842624))%Q) by lra.
    assert (D2 : (val th - val m <= (1 # 2) * W + (1 # 1125899906842624))%Q) by lra.
    assert (Wtl : within 0 1 tl) by (split; [trivial|lra]).
    assert (Wth : within 0 1 th) by (split; [trivial|lra]).
    destruct Bm as [Bm1 Bm2].
    destruct (gtb i c) eqn:G.
    + destruct (IH low k N c tl m m _ Wtl Wm Bm1 D1 (or_intror eq_refl) Pl (or_intror G))
        as [X|(lo & hi & X1 & X2 & X3 & X4 & X5 & X6 & X7 & X8 & X9)]; [now left|].
      right. exists lo, hi. cbn [halved].
      split; [exact X1|]. split; [exact X2|]. split; [exact X3|]. split; [exact X4|].
      split; [lra|]. split; [exact X6|]. split; [exact X7|]. split; [exact X8|exact X9].
    + destruct (IH low k N c m th m _ Wm Wth Bm2 D2 (or_introl eq_refl) (or_intror G) Ph)
        as [X|(lo & hi & X1 & X2 & X3 & X4 & X5 & X6 & X7 & X8 & X9)]; [now left|].
      right. exists lo, hi. cbn [halved].
      split; [exact X1|]. split; [exact X2|]. split; [lra|]. split; [exact X4|].
      split; [exact X5|]. split; [exact X6|]. split; [exact X7|]. split; [exact X8|exact X9].
Qed.

Lemma search_lower_loop_bracket n : forall high k N c tl th test W,
  within 0 1 tl -> within 0 1 th -> (val tl <= val th)%Q -> (val th - val tl <= W)%Q ->
  test = tl \/ test = th ->
  tl = 0 \/ gtb (beta_ab tl high k N) c = true ->
  th = high \/ gtb (beta_ab th high k N) c = false ->
  let t := search_lower_loop beta_ab n high k N c tl th test in
  (fabs (beta_ab t high k N - c) <=? 1.0e-15) = true \/
  exists lo hi,
    within 0 1 lo /\ within 0 1 hi /\
    (val lo <= val hi)%Q /\ (val hi <= val th)%Q /\
    (val hi - val lo <= halved n W)%Q /\
    (t = lo \/ t = hi) /\
    (lo = 0 \/ gtb (beta_ab lo high k N) c = true) /\
    (hi = high \/ gtb (beta_ab hi high k N) c = false).
Proof.
  induction n as [|n IH]; intros high k N c tl th test W Wl Wh Le Wd Ht Pl Ph; cbv zeta.
  - right. exists tl, th. cbn [search_lower_loop halved].
    repeat split; trivial; try apply Wl; try apply Wh; apply Qle_refl.
  - cbn [search_lower_loop]. cbv zeta.
    set (m := 0.5 * (th + tl)). set (i := beta_ab m high k N).
    destruct (fabs (i - c) <=? 1.0e-15) eqn:Brk; [left; exact Brk|].
    destruct Wl as [Fl [Bl0 Bl1]]. destruct Wh as [Fh [Bh0 Bh1]].
    destruct (midpoint_between' tl th Fl Fh Bl0 Le Bh1) as [Fm Bm]. fold m in Fm, Bm.
    pose proof (midpoint_error' tl th Fl Fh Bl0 Le Bh1) as Em. fold m in Em.
    assert (Wm : within 0 1 m) by (split; [trivial|lra]).
    assert (D1 : (val m - val tl <= (1 # 2) * W + (1 # 1125899906842624))%Q) by lra.
    assert (D2 : (val th - val m <= (1 # 2) * W + (1 # 1125899906842624))%Q) by lra.
    assert (Wtl : within 0 1 tl) by (split; [trivial|lra]).
    assert (Wth : within 0 1 th) by (split; [trivial|lra]).
    destruct Bm as [Bm1 Bm2].
    destruct (gtb i c) eqn:G.
    + destruct (IH high k N c m th m _ Wm Wth Bm2 D2 (or_introl eq_refl) (or_intror G) Ph)
        as [X|(lo & hi & X1 & X2 & X4 & X5 & X6 & X7 & X8 & X9)]; [now left|].
      right. exists lo, hi. cbn [halved].
      split; [exact X1|]. split; [exact X2|]. split; [exact X4|].
      split; [exact X5|]. split; [exact X6|]. split; [exact X7|]. split; [exact X8|exact X9].
    + destruct (IH high k N c tl m m _ Wtl Wm Bm1 D1 (or_intror eq_refl) Pl (or_intror G))
        as [X|(lo & hi & X1 & X2 & X4 & X5 & X6 & X7 & X8 & X9)]; [now left|].
      right. exists lo, hi. cbn [halved].
      split; [exact X1|]. split; [exact X2|]. split; [exact X4|].
      split; [lra|]. split; [exact X6|]. split; [exact X7|]. split; [exact X8|exact X9].
Qed.

Lemma search_upper_value_bracket (low : float) (k N : Z) (c : float) :
  within 0 1 low ->
  (beta_ab low 1 k N =? c) = false -> (beta_ab low 1 k N <? c) = false ->
  let t := search_upper_value beta_ab low k N c in
  (fabs (beta_ab low t k N - c) <=? 1.0e-15) = true \/
  exists lo hi,
    within 0 1 lo /\ within 0 1 hi /\
    (val low <= val lo)%Q /\ (val lo <= val hi)%Q /\
    (val hi - val lo <= 1 # 281474976710656)%Q /\
    (t = lo \/ t = hi) /\
    (lo = low \/ gtb (beta_ab low lo k N) c = false) /\
    (hi = 1 \/ gtb (beta_ab low hi k N) c = true).
Proof.
  intros Wl E1 E2. cbv zeta. rewrite search_upper_value_eq. cbv zeta. rewrite E1, E2.
  assert (W1 : within 0 1 1) by (apply within_1; lra).
  assert (Le : (val low <= val 1)%Q) by (rewrite val_1; apply Wl).
  assert (Wd : (val 1 - val low <= 1)%Q) by (rewrite val_1; destruct Wl as [_ [? ?]]; lra).
  destruct (search_upper_loop_bracket 50 low k N c low 1 1 1 Wl W1 Le Wd
              (or_intror eq_refl) (or_introl eq_refl) (or_introl eq_refl))
    as [X|(lo & hi & X1 & X2 & X3 & X4 & X5 & X6 & X7 & X8 & X9)]; [now left|].
  right. exists lo, hi. pose proof halved_50 as H50.
  split; [exact X1|]. split; [exact X2|]. split; [exact X3|]. split; [exact X4|].
  split; [lra|]. split; [exact X7|]. split; [exact X8|exact X9].
Qed.

Lemma search_lower_value_bracket (high : float) (k N : Z) (c : float) :
  within 0 1 high ->
  (beta_ab 0 high k N =? c) = false -> (beta_ab 0 high k N <? c) = false ->
  let t := search_lower_value beta_ab high k N c in
  (fabs (beta_ab t high k N - c) <=? 1.0e-15) = true \/
  exists lo hi,
    within 0 1 lo /\ within 0 1 hi /\
    (val lo <= val hi)%Q /\ (val hi <= val high)%Q /\
    (val hi - val lo <= 1 # 281474976710656)%Q /\
    (t = lo \/ t = hi) /\
    (lo = 0 \/ gtb (beta_ab lo high k N) c = true) /\
    (hi = high \/ gtb (beta_ab hi high k N) c = false).
Proof.
  intros Wh E1 E2. cbv zeta. rewrite search_lower_value_eq. cbv zeta. rewrite E1, E2.
  assert (W0 : within 0 1 0) by (apply within_0; lra).
  assert (Le : (val 0 <= val high)%Q) by (rewrite val_0; apply Wh).
  assert (Wd : (val high - val 0 <= 1)%Q) by (rewrite val_0; destruct Wh as [_ [? ?]]; lra).
  destruct (search_lower_loop_bracket 50 high k N c 0 high 0 1 W0 Wh Le Wd
              (or_introl eq_refl) (or_introl eq_refl) (or_introl eq_refl))
    as [X|(lo & hi & X1 & X2 & X4 & X5 & X6 & X7 & X8 & X9)]; [now left|].
  right. exists lo, hi. pose proof halved_50 as H50.
  split; [exact X1|]. split; [exact X2|]. split; [exact X4|]. split; [exact X5|].
  split; [lra|]. split; [exact X7|]. split; [exact X8|exact X9].
Qed.

Lemma within_bracket lo hi x :
  finite lo = true -> finite hi = true -> finite x = true ->
  (val lo <= val x)%Q -> (val x <= val hi)%Q -> in_bracket lo hi x = true.
Proof. intros Fl Fh Fx A B. apply within_in_bracket; trivial. now split. Qed.

(** X11: when [search_upper] bisects (the integral up to 1 compares
    neither equal to nor below [c]), it stops at a point where the integral
    is within 1e-15 of [c], or it returns an end of a bracket [[lo, hi]]
    inside [[low, 1]] that is at most [2^-48] wide, with the integral above
    [c] at [hi] unless [hi] is still 1, and not above [c] at [lo] unless
    [lo] is still the anchor. *)
Theorem search_upper_bisects (low : float) (k N : Z) (c : float) (w : world) :
  in_bracket 0 1 low = true ->
  (beta_ab low 1 k N =? c) = false -> (beta_ab low 1 k N <? c) = false ->
  let t := fst (search_upper beta_ab low k N c w) in
  (fabs (beta_ab low t k N - c) <=? 1.0e-15) = true \/
  exists lo hi,
    in_bracket low 1 lo = true /\ in_bracket lo 1 hi = true /\
    (t = lo \/ t = hi) /\
    (val hi - val lo <= 1 # 281474976710656)%Q /\
    (lo = low \/ gtb (beta_ab low lo k N) c = false) /\
    (hi = 1 \/ gtb (beta_ab low hi k N) c = true).
Proof.
  intros B E1 E2. cbv zeta. apply in_bracket_01 in B.
  rewrite search_upper_run. cbn [fst].
  destruct (search_upper_value_bracket low k N c B E1 E2)
    as [X|(lo & hi & [F1 X1] & [F2 X2] & X3 & X4 & X5 & X6 & X7 & X8)]; [now left|].
  right. exists lo, hi. destruct B as [Fl Bl].
  pose proof val_1 as V1. assert (Fo : finite 1 = true) by reflexivity.
  split; [apply (within_bracket low 1 lo Fl Fo F1); lra|].
  split; [apply (within_bracket lo 1 hi F1 Fo F2); lra|].
  split; [exact X6|]. split; [exact X5|]. split; [exact X7|exact X8].
Qed.

(** X12: when [search_lower] bisects, it stops at a point where the
    integral is within 1e-15 of [c], or it returns an end of a bracket
    [[lo, hi]] inside [[0, high]] that is at most [2^-48] wide, with the
    integral above [c] at [lo] unless [lo] is still 0, and not above [c] at
    [hi] unless [hi] is still the anchor. *)
Theorem search_lower_bisects (high : float) (k N : Z) (c : float) (w : world) :
  in_bracket 0 1 high = true ->
  (beta_ab 0 high k N =? c) = false -> (beta_ab 0 high k N <? c) = false ->
  let t := fst (search_lower beta_ab high k N c w) in
  (fabs (beta_ab t high k N - c) <=? 1.0e-15) = true \/
  exists lo hi,
    in_bracket 0 high lo = true /\ in_bracket lo high hi = true /\
    (t = lo \/ t = hi) /\
    (val hi - val lo <= 1 # 281474976710656)%Q /\
    (lo = 0 \/ gtb (beta_ab lo high k N) c = true) /\
    (hi = high \/ gtb (beta_ab hi high k N) c = false).
Proof.
  intros B E1 E2. cbv zeta. apply in_bracket_01 in B.
  rewrite search_lower_run. cbn [fst].
  destruct (search_lower_value_bracket high k N c B E1 E2)
    as [X|(lo & hi & [F1 X1] & [F2 X2] & X3 & X4 & X5 & X6 & X7 & X8)]; [now left|].
  right. exists lo, hi. destruct B as [Fh Bh].
  pose proof val_0 as V0. assert (Fz : finite 0 = true) by reflexivity.
  split; [apply (within_bracket 0 high lo Fz Fh F1); lra|].
  split; [apply (within_bracket lo high hi F1 Fh F2); lra|].
  split; [exact X6|]. split; [exact X5|]. split; [exact X7|exact X8].
Qed.

(** X13: if the integral from the anchor, once above [c], stays above [c]
    further right, then a bisecting [search_upper] that does not stop on
    the 1e-15 test returns the threshold to within [2^-48]: the integral
    is not above [c] at any point of [[low, 1]] more than [2^-48] left of
    the result, and above [c] at any point more than [2^-48] right of it. *)
Theorem search_upper_threshold (low : float) (k N : Z) (c : float) (w : world) :
  in_bracket 0 1 low = true ->
  (beta_ab low 1 k N =? c) = false -> (beta_ab low 1 k N <? c) = false ->
  (forall y1 y2, in_bracket low 1 y1 = true -> in_bracket y1 1 y2 = true ->
     gtb (beta_ab low y1 k N) c = true -> gtb (beta_ab low y2 k N) c = true) ->
  let t := fst (search_upper beta_ab low k N c w) in
  (fabs (beta_ab low t k N - c) <=? 1.0e-15) = true \/
  forall y, in_bracket low 1 y = true ->
    ((val y < val t - (1 # 281474976710656))%Q -> gtb (beta_ab low y k N) c = false) /\
    ((val t + (1 # 281474976710656) < val y)%Q -> gtb (beta_ab low y k N) c = true).
Proof.
  intros B E1 E2 Mono. cbv zeta. apply in_bracket_01 in B.
  rewrite search_upper_run. cbn [fst].
  destruct (search_upper_value_bracket low k N c B E1 E2)
    as [X|(lo & hi & [F1 X1] & [F2 X2] & X3 & X4 & X5 & X6 & X7 & X8)]; [now left|].
  right. intros y By. destruct B as [Fl Bl].
  assert (F1' : finite 1 = true) by reflexivity.
  pose proof (in_bracket_within low 1 y Fl F1' By) as [Fy [Y1 Y2]].
  assert (T : (val lo <= val (search_upper_value beta_ab low k N c) <= val hi)%Q).
  { destruct X6 as [->| ->]; split; trivial; apply Qle_refl. }
  pose proof val_1 as V1.
  split; intros D.
  - destruct X7 as [->|G]; [lra|].
    destruct (gtb (beta_ab low y k N) c) eqn:Gy; [|reflexivity].
    assert (Byl : in_bracket y 1 lo = true)
      by (apply (within_bracket y 1 lo Fy F1' F1); lra).
    rewrite (Mono y lo By Byl Gy) in G. discriminate.
  - destruct X8 as [->|G]; [lra|].
    assert (Bh : in_bracket low 1 hi = true)
      by (apply (within_bracket low 1 hi Fl F1' F2); lra).
    assert (Bhy : in_bracket hi 1 y = true)
      by (apply (within_bracket hi 1 y F2 F1' Fy); lra).
    exact (Mono hi y Bh Bhy G).
Qed.

(** X14: if the integral up to the anchor, once above [c], stays above [c]
    further left, then a bisecting [search_lower] that does not stop on the
    1e-15 test returns the threshold to within [2^-48]: the integral is
    above [c] at any point of [[0, high]] more than [2^-48] left of the
    result, and not above [c] at any point more than [2^-48] right of it. *)
Theorem search_lower_threshold (high : float) (k N : Z) (c : float) (w : world) :
  in_bracket 0 1 high = true ->
  (beta_ab 0 high k N =? c) = false -> (beta_ab 0 high k N <? c) = false ->
  (forall y1 y2, in_bracket 0 high y1 = true -> in_bracket y1 high y2 = true ->
     gtb (beta_ab y2 high k N) c = true -> gtb (beta_ab y1 high k N) c = true) ->
  let t := fst (search_lower beta_ab high k N c w) in
  (fabs (beta_ab t high k N - c) <=? 1.0e-15) = true \/
  forall y, in_bracket 0 high y = true ->
    ((val y < val t - (1 # 281474976710656))%Q -> gtb (beta_ab y high k N) c = true) /\
    ((val t + (1 # 281474976710656) < val y)%Q -> gtb (beta_ab y high k N) c = false).
Proof.
  intros B E1 E2 Mono. cbv zeta. apply in_bracket_01 in B.
  rewrite search_lower_run. cbn [fst].
  destruct (search_lower_value_bracket high k N c B E1 E2)
    as [X|(lo & hi & [F1 X1] & [F2 X2] & X3 & X4 & X5 & X6 & X7 & X8)]; [now left|].
  right. intros y By. destruct B as [Fh Bh].
  assert (F0 : finite 0 = true) by reflexivity.
  pose proof (in_bracket_within 0 high y F0 Fh By) as [Fy [Y1 Y2]].
  assert (T : (val lo <= val (search_lower_value beta_ab high k N c) <= val hi)%Q).
  { destruct X6 as [->| ->]; split; trivial; apply Qle_refl. }
  pose proof val_0 as V0.
  split; intros D.
  - destruct X7 as [->|G]; [lra|].
    assert (Byl : in_bracket y high lo = true)
      by (apply (within_bracket y high lo Fy Fh F1); lra).
    exact (Mono y lo By Byl G).
  - destruct X8 as [->|G]; [lra|].
    destruct (gtb (beta_ab y high k N) c) eqn:Gy; [|reflexivity].
    assert (Bh' : in_bracket 0 high hi = true)
      by (apply (within_bracket 0 high hi F0 Fh F2); lra).
    assert (Bhy : in_bracket hi high y = true)
      by (apply (within_bracket hi high y F2 Fh Fy); lra).
    rewrite (Mono hi y Bh' Bhy Gy) in G. discriminate.
Qed.

(** ** The bracket of [brent] *)

Lemma SFcompare_antisym x y :
  SFcompare y x = option_map CompOpp (SFcompare x y).
Proof.
  destruct x as [sx|sx| |sx mx ex]; destruct y as [sy|sy| |sy my ey]; cbn;
    try reflexivity;
    repeat match goal with s : bool |- _ => destruct s end; try reflexivity;
    rewrite (Z.compare_antisym ex ey); destruct (ex ?= ey)%Z; cbn; try reflexivity;
    rewrite (Pos.compare_cont_antisym mx my Eq); cbn;
    destruct (Pos.compare_cont Eq mx my); reflexivity.
Qed.

Lemma ltb_asym x y : (x <? y) = true -> (y <? x) = false.
Proof.
  rewrite !FloatAxioms.ltb_spec. unfold SFltb.
  rewrite (SFcompare_antisym (Prim2SF x) (Prim2SF y)).
  now destruct (SFcompare (Prim2SF x) (Prim2SF y)) as [[ | | ]|].
Qed.

(** X15: the ends of the bracket may be given in either order: when [ax]
    and [cx] compare as different, or are the same number,
    [brent(ax, bx, cx)] and [brent(cx, bx, ax)] return the same minimum,
    store the same [*xmin] and print the same. *)
Theorem brent_bracket_order (ax bx cx tol : float) (w : world) :
  (ax <? cx) = true \/ (cx <? ax) = true \/ ax = cx ->
  fst (brent beta_ab ax bx cx tol w) = fst (brent beta_ab cx bx ax tol w) /\
  stdout (snd (brent beta_ab ax bx cx tol w)) = stdout (snd (brent beta_ab cx bx ax tol w)).
Proof.
  intros H. rewrite !brent_unfold. unfold gtb.
  assert (E : ((if ax <? cx then ax else cx) = (if cx <? ax then cx else ax)) /\
              ((if cx <? ax then ax else cx) = (if ax <? cx then cx else ax))).
  { destruct H as [L|[L| ->]].
    - rewrite L, (ltb_asym _ _ L). split; reflexivity.
    - rewrite L, (ltb_asym _ _ L). split; reflexivity.
    - destruct (cx <? cx); split; reflexivity. }
  destruct E as [-> ->].
  set (s0 := mkBrent _ _ _ _ _ _ _ _ _ _).
  rewrite (framed_brent_loop beta_ab kITMAX tol s0 (logged _ w)).
  rewrite (framed_brent_loop beta_ab kITMAX tol s0
             (logged [CallBrent cx bx ax tol; _; _] w)).
  split; reflexivity.
Qed.

Lemma start_inv (a b bx fx : float) :
  within 0 1 a -> within 0 1 b -> within (val a) (val b) bx -> within (-2) 2 fx ->
  brent_inv (val a) (val b) (mkBrent a b 0 0 bx bx bx fx fx fx).
Proof.
  intros [Fa Ba] [Fb Bb] [Fx Bx] [Ffx Bfx].
  unfold brent_inv. cbn [br_a br_b br_d br_e br_v br_w br_x br_fv br_fw br_fx].
  pose proof val_0 as V0.
  assert (F0 : finite 0 = true) by reflexivity.
  repeat split; trivial; lra.
Qed.

(** X16: on a bracket in [[0,1]] that is no wider than [kZEPS], with a
    tolerance in [[0,1]], [brent] makes no pass: it evaluates [interval]
    once, at [bx], returns that value with [*xmin = bx], and prints
    nothing. *)
Theorem brent_narrow_bracket (ax bx cx tol : float) (w : world) :
  let a := if ax <? cx then ax else cx in
  let b := if gtb ax cx then ax else cx in
  in_bracket 0 1 a = true -> in_bracket 0 1 b = true ->
  in_bracket a b bx = true -> in_bracket 0 1 tol = true ->
  (b - a <=? kZEPS) = true ->
  brent beta_ab ax bx cx tol w
  = ((fst (interval beta_ab bx w), bx),
     logged [CallBrent ax bx cx tol; CallInterval bx;
             CallSearchUpper bx (GLOBAL_k w) (GLOBAL_N w) (CONFLEVEL w)] w).
Proof.
  intros a b Ba Bb Bx Bt Hw.
  apply in_bracket_01 in Ba, Bb, Bt.
  assert (Fa : finite a = true) by apply Ba.
  assert (Fb : finite b = true) by apply Bb.
  apply in_bracket_within in Bx; trivial.
  rewrite brent_unfold, interval_run. cbn [fst]. fold a. fold b.
  set (fx := interval_value beta_ab _ _ _ bx).
  set (s0 := mkBrent _ _ _ _ _ _ _ _ _ _).
  assert (Wx01 : within 0 1 bx).
  { destruct Bx as [Fx Bx]. destruct Ba as [_ Ba]. destruct Bb as [_ Bb].
    split; [trivial|lra]. }
  assert (Wfx : within (-2) 2 fx).
  { apply within_weaken with (-1)%Q 2%Q; try lra. now apply interval_value_bounded. }
  pose proof (start_inv a b bx fx Ba Bb Bx Wfx) as Inv. fold s0 in Inv.
  destruct Bt as [Ft Bt].
  assert (La : (0 <= val a)%Q) by apply Ba.
  assert (Hb : (val b <= 1)%Q) by apply Bb.
  unfold kITMAX. rewrite brent_loop_S.
  destruct (brent_converged tol s0) eqn:C; [reflexivity|exfalso].
  pose proof (step_wide tol s0 (val a) (val b) Ft Bt La Hb Inv C) as Wd.
  destruct (step_tol2 tol s0 (val a) (val b) Ft Bt La Hb Inv) as [F2 E2].
  pose proof (step_tol1 tol s0 (val a) (val b) Ft Bt La Hb Inv) as [F1 _].
  cbn [s0 br_a br_b br_x] in Wd, E2, F1, F2.
  (* tol1 is at least kZEPS *)
  destruct Bx as [Fx Bx].
  assert (Fax : finite (fabs bx) = true) by (rewrite finite_fabs; exact Fx).
  pose proof (val_abs_cases bx) as [A0 A1]. fold (fabs bx) in A0, A1.
  assert (A2 : (val (fabs bx) <= 1)%Q)
    by (destruct Wx01 as [_ W]; destruct A1 as [E|E]; rewrite E; lra).
  pose proof (mul_Rounds tol (fabs bx) Ft Fax) as Rm.
  assert (P0 : (0 <= val tol * val (fabs bx))%Q) by (apply Qmult_le_0_compat; lra).
  assert (P1 : (val tol * val (fabs bx) <= 1)%Q).
  { apply Qle_trans with (1 * val (fabs bx))%Q; [|lra].
    apply Qmult_le_compat_r; lra. }
  destruct (Rounds_small _ _ Rm) as [Fm _]; [split; lra|].
  assert (F0 : finite 0 = true) by reflexivity.
  assert (M0 : (val 0 <= val (tol * fabs bx))%Q)
    by (apply (Rounds_ge _ _ 0 Rm Fm F0); rewrite val_0; lra).
  rewrite val_0 in M0.
  assert (Fz : finite kZEPS = true) by reflexivity.
  pose proof (add_Rounds (tol * fabs bx) kZEPS Fm Fz) as Ra.
  assert (T1 : (val kZEPS <= val (tol * fabs bx + kZEPS))%Q)
    by (apply (Rounds_ge _ _ kZEPS Ra F1 Fz); lra).
  (* the width *)
  pose proof (sub_Rounds b a Fb Fa) as Rw.
  destruct (Rounds_small _ _ Rw) as [Fw Ew]; [destruct Ba as [_ ?]; split; lra|].
  apply (leb_val _ _ Fw Fz) in Hw.
  pose proof val_kZEPS as Vz. unfold eps in *. rewrite Vz in *.
  destruct Wd; lra.
Qed.

(** X17: in the minimising branch [low] is in [[0,1]] and [high] is not
    below [low], whatever the primitive returns, whatever the level is and
    whether or not [k] lies between 0 and [N]. *)
Theorem efficiency_ci_low_in_unit (k N : Z) (c : float) (w : world) :
  N <> 0%Z -> k <> 0%Z -> k <> N ->
  let r := fst (efficiency_ci beta_ab k N c w) in
  in_bracket 0 1 (snd (fst r)) = true /\ (snd (fst r) <=? snd r) = true.
Proof.
  intros HN Hk0 HkN.
  destruct (general_branch_run k N c w HN Hk0 HkN) as [E Wlow]. cbv zeta in E, Wlow.
  cbv zeta. rewrite E. cbn [fst snd].
  destruct (high_of_low beta_ab k N c _ Wlow) as (Fh & Hl & _). cbv zeta in Fh, Hl.
  split; [now apply within_01_in_bracket|].
  destruct Wlow as [Fl _]. now apply (leb_val _ _ Fl Fh).
Qed.

End Further.

(** ** The further properties on concrete inputs *)

Lemma search_upper_range_witness :
  in_bracket 0 1 0.25 = true /\
  (fst (search_upper beta_ref 0.25 1 2 0.5 w0) = (-1)%float \/
   in_bracket 0.25 1 (fst (search_upper beta_ref 0.25 1 2 0.5 w0)) = true).
Proof.
  split; [reflexivity|].
  apply (search_upper_range beta_ref 0.25 1 2 0.5 w0). reflexivity.
Defined.

Lemma search_lower_range_witness :
  in_bracket 0 1 0.75 = true /\
  (fst (search_lower beta_ref 0.75 1 2 0.5 w0) = (-1)%float \/
   in_bracket 0 0.75 (fst (search_lower beta_ref 0.75 1 2 0.5 w0)) = true).
Proof.
  split; [reflexivity|].
  apply (search_lower_range beta_ref 0.75 1 2 0.5 w0). reflexivity.
Defined.

Lemma interval_range_witness :
  in_bracket 0 1 0.25 = true /\
  (fst (interval beta_ref 0.25 (mkWorld 1 2 0.5 [] [])) = 2 \/
   (in_bracket 0 1 (fst (interval beta_ref 0.25 (mkWorld 1 2 0.5 [] []))) = true /\
    in_bracket 0.25 1 (0.25 + fst (interval beta_ref 0.25 (mkWorld 1 2 0.5 [] []))) = true)).
Proof.
  split; [reflexivity|].
  apply (interval_range beta_ref 0.25 (mkWorld 1 2 0.5 [] [])). reflexivity.
Defined.

Lemma efficiency_ci_sentinel_exactly_witness :
  (5 <> 0)%Z /\
  (snd (fst (fst (efficiency_ci beta_ref 2 5 0.6827 w0))) <> (-1)%float /\
   snd (fst (efficiency_ci beta_ref 2 5 0.6827 w0)) <> (-1)%float).
Proof.
  split; [lia|].
  destruct (efficiency_ci_sentinel_exactly beta_ref 2 5 0.6827 w0) as (_ & _ & H); [lia|].
  apply H; lia.
Defined.

Lemma efficiency_ci_infeasible_witness :
  (2000000000 <> 0)%Z /\ (1 <> 0)%Z /\ (1 <> 2000000000)%Z /\
  ((1 <? snd (fst (efficiency_ci beta_ref 1 2000000000 0.99 w0))) = true <->
   fst (search_upper beta_ref
          (snd (fst (fst (efficiency_ci beta_ref 1 2000000000 0.99 w0))))
          1 2000000000 0.99 w0) = (-1)%float).
Proof.
  split; [lia|]. split; [lia|]. split; [lia|].
  apply (efficiency_ci_infeasible beta_ref 1 2000000000 0.99 w0); lia.
Defined.

Lemma efficiency_ci_high_near_edge_witness :
  (2 <> 0)%Z /\ (1 <> 0)%Z /\ (1 <> 2)%Z /\
  (Qabs (val (snd (fst (efficiency_ci beta_ref 1 2 0.6827 w0)))
         - val (fst (search_upper beta_ref
                       (snd (fst (fst (efficiency_ci beta_ref 1 2 0.6827 w0))))
                       1 2 0.6827 w0)))
   <= 1 # 4503599627370496)%Q.
Proof.
  split; [lia|]. split; [lia|]. split; [lia|].
  apply (efficiency_ci_high_near_edge beta_ref 1 2 0.6827 w0); [lia|lia|lia|].
  intros E. apply (f_equal (fun x => x =? -1)) in E. vm_compute in E. discriminate.
Defined.

Lemma search_upper_bisects_witness :
  in_bracket 0 1 0 = true /\
  (beta_ref 0 1 0 5 =? 0.6827) = false /\ (beta_ref 0 1 0 5 <? 0.6827) = false /\
  ((fabs (beta_ref 0 (fst (search_upper beta_ref 0 0 5 0.6827 w0)) 0 5 - 0.6827)
      <=? 1.0e-15) = true \/
   exists lo hi,
     in_bracket 0 1 lo = true /\ in_bracket lo 1 hi = true /\
     (fst (search_upper beta_ref 0 0 5 0.6827 w0) = lo \/
      fst (search_upper beta_ref 0 0 5 0.6827 w0) = hi) /\
     (val hi - val lo <= 1 # 281474976710656)%Q /\
     (lo = 0 \/ gtb (beta_ref 0 lo 0 5) 0.6827 = false) /\
     (hi = 1 \/ gtb (beta_ref 0 hi 0 5) 0.6827 = true)).
Proof.
  split; [reflexivity|]. split; [vm_compute; reflexivity|]. split; [vm_compute; reflexivity|].
  apply (search_upper_bisects beta_ref 0 0 5 0.6827 w0);
    [reflexivity|vm_compute; reflexivity|vm_compute; reflexivity].
Defined.

Lemma search_lower_bisects_witness :
  in_bracket 0 1 1 = true /\
  (beta_ref 0 1 5 5 =? 0.6827) = false /\ (beta_ref 0 1 5 5 <? 0.6827) = false /\
  ((fabs (beta_ref (fst (search_lower beta_ref 1 5 5 0.6827 w0)) 1 5 5 - 0.6827)
      <=? 1.0e-15) = true \/
   exists lo hi,
     in_bracket 0 1 lo = true /\ in_bracket lo 1 hi = true /\
     (fst (search_lower beta_ref 1 5 5 0.6827 w0) = lo \/
      fst (search_lower beta_ref 1 5 5 0.6827 w0) = hi) /\
     (val hi - val lo <= 1 # 281474976710656)%Q /\
     (lo = 0 \/ gtb (beta_ref lo 1 5 5) 0.6827 = true) /\
     (hi = 1 \/ gtb (beta_ref hi 1 5 5) 0.6827 = false)).
Proof.
  split; [reflexivity|]. split; [vm_compute; reflexivity|]. split; [vm_compute; reflexivity|].
  apply (search_lower_bisects beta_ref 1 5 5 0.6827 w0);
    [reflexivity|vm_compute; reflexivity|vm_compute; reflexivity].
Defined.

Lemma search_upper_threshold_witness :
  let one := fun (_ _ : float) (_ _ : Z) => 1 in
  in_bracket 0 1 0.25 = true /\
  ((fabs (one 0.25 (fst (search_upper one 0.25 0 0 0.5 w0)) 0%Z 0%Z - 0.5) <=? 1.0e-15) = true \/
   forall y, in_bracket 0.25 1 y = true ->
     ((val y < val (fst (search_upper one 0.25 0 0 0.5 w0)) - (1 # 281474976710656))%Q ->
        gtb (one 0.25 y 0%Z 0%Z) 0.5 = false) /\
     ((val (fst (search_upper one 0.25 0 0 0.5 w0)) + (1 # 281474976710656) < val y)%Q ->
        gtb (one 0.25 y 0%Z 0%Z) 0.5 = true)).
Proof.
  cbv zeta. split; [reflexivity|].
  apply (search_upper_threshold (fun _ _ _ _ => 1) 0.25 0 0 0.5 w0);
    [reflexivity|reflexivity|reflexivity|intros; reflexivity].
Defined.

Lemma search_lower_threshold_witness :
  let one := fun (_ _ : float) (_ _ : Z) => 1 in
  in_bracket 0 1 0.75 = true /\
  ((fabs (one (fst (search_lower one 0.75 0 0 0.5 w0)) 0.75 0%Z 0%Z - 0.5) <=? 1.0e-15) = true \/
   forall y, in_bracket 0 0.75 y = true ->
     ((val y < val (fst (search_lower one 0.75 0 0 0.5 w0)) - (1 # 281474976710656))%Q ->
        gtb (one y 0.75 0%Z 0%Z) 0.5 = true) /\
     ((val (fst (search_lower one 0.75 0 0 0.5 w0)) + (1 # 281474976710656) < val y)%Q ->
        gtb (one y 0.75 0%Z 0%Z) 0.5 = false)).
Proof.
  cbv zeta. split; [reflexivity|].
  apply (search_lower_threshold (fun _ _ _ _ => 1) 0.75 0 0 0.5 w0);
    [reflexivity|reflexivity|reflexivity|intros; reflexivity].
Defined.

Lemma brent_bracket_order_witness :
  (0 <? 1) = true /\
  fst (brent beta_ref 0 0.5 1 1.0e-9 (mkWorld 1 2 0.5 [] []))
  = fst (brent beta_ref 1 0.5 0 1.0e-9 (mkWorld 1 2 0.5 [] [])).
Proof.
  split; [reflexivity|].
  apply (brent_bracket_order beta_ref 0 0.5 1 1.0e-9 (mkWorld 1 2 0.5 [] [])).
  left. reflexivity.
Defined.

Lemma brent_narrow_bracket_witness :
  in_bracket 0 1 0.3 = true /\ in_bracket 0.3 0.3 0.3 = true /\
  in_bracket 0 1 1.0e-9 = true /\ (0.3 - 0.3 <=? kZEPS) = true /\
  fst (brent beta_ref 0.3 0.3 0.3 1.0e-9 (mkWorld 1 2 0.5 [] []))
  = (fst (interval beta_ref 0.3 (mkWorld 1 2 0.5 [] [])), 0.3).
Proof.
  repeat (split; [reflexivity|]).
  rewrite (brent_narrow_bracket beta_ref 0.3 0.3 0.3 1.0e-9 (mkWorld 1 2 0.5 [] []));
    reflexivity.
Defined.

Lemma efficiency_ci_low_in_unit_witness :
  (2 <> 0)%Z /\ (3 <> 0)%Z /\ (3 <> 2)%Z /\
  in_bracket 0 1 (snd (fst (fst (efficiency_ci beta_ref 3 2 0.5 w0)))) = true.
Proof.
  split; [lia|]. split; [lia|]. split; [lia|].
  apply (efficiency_ci_low_in_unit beta_ref 3 2 0.5 w0); lia.
Defined.

End Behaviour.

(** * The quotient [k/N] *)

Section Quotients.
Local Open Scope Z_scope.

(** ** Rounding a quotient of integers *)










Lemma rnd_unshifted a b :
  round_nearest_even (a / b) (match 2 * (a mod b) ?= b with
                              | Lt => loc_Inexact Lt
                              | Eq => loc_Inexact Eq
                              | Gt => loc_Inexact Gt
                              end) = rnd a b.
Proof.
  unfold rnd. destruct (2 * (a mod b) ?= b); reflexivity.
Qed.




Local Open Scope Q_scope.





Local Open Scope float_scope.




(** ** The mode *)

Section Mode.
Variable beta_ab : float -> float -> Z -> Z -> float.



End Mode.


End Quotients.
